(** * file-encryptor: cipher engine, checkpoint store, worker pool, batch runner

    A shallow embedding of the main-process code of the file encryptor:
    - [Engine]  : crypto.ts (encryptFile, decryptFile, isFileEncrypted)
    - [Resume]  : resumableOperation.ts (canResumeOperation, resumeEncryption)
    - [Pool]    : encryptionWorkerManager.ts (queueTask, processQueue, ...)
    - [Batch]   : batchProcessor.ts (processFiles)
    - [BatchEngine] : the engine of crypto.ts as processFiles calls it
    - [Secure]  : secureMemory.ts (SecureBuffer, SecureString,
                  SecureMemoryManager)
    - [Names]   : crypto.ts (suggestOutputFilename)

    Files are byte lists stored in a finite map from paths to nodes.  Node's
    [crypto] primitives are not part of the repository, so they enter as
    section variables: PBKDF2 and SHA-256 as functions, AES-256-GCM through
    its structure (a counter-mode keystream that is XORed onto the data, and
    a 16-byte tag that is a function of key, IV and ciphertext).

    What the code leaves to the scheduler of the runtime enters as a section
    variable as well: whether a write issued after the end of a stream still
    lands, how much of a stream had reached the file when the stream was
    destroyed, and how many progress reports arrive before a promise
    settles.  JavaScript numbers are integers and rationals here: the code
    evaluates the same expressions in double precision.  A callback that
    throws inside a ['data'] listener raises an uncaught exception; the
    process is taken to survive it (as the main process of an Electron
    application does), the stream that called the listener delivers nothing
    more.

    The definitions come first, the theorems follow in the modules whose
    names end in [Facts] or [More]. *)

From Stdlib Require Import ZArith QArith Lia List String.
From stdpp Require Import gmap strings list fin_maps.

Open Scope Z_scope.

(** ** Results of fallible calls *)

Inductive error : Type :=
| ENOENT            (* no such file or directory *)
| EACCES            (* permission denied *)
| EISDIR            (* illegal operation on a directory *)
| ERR_OUT_OF_RANGE  (* RangeError: a stream range or position is out of range *)
| ERR_CRYPTO_AUTH   (* "Unsupported state or unable to authenticate data" *)
| ERR_INVALID_ARG   (* TypeError: a required argument is undefined *)
| ERR_UNKNOWN_CIPHER
| JsError (message : string).  (* throw new Error(message) *)

Inductive result (A : Type) : Type :=
| Ok (a : A)
| Err (e : error).
Arguments Ok {A} a.
Arguments Err {A} e.

#[global] Instance error_eq_dec : EqDecision error.
Proof. solve_decision. Defined.

(** ** The file system *)

Inductive node : Type :=
| File (content : list Z) (readable : bool)
| Dir (size : Z).

Module Fs.

(** [fs.statSync(p).size] *)
Definition statSync (fs : gmap string node) (p : string) : result Z :=
  match fs !! p with
  | None => Err ENOENT
  | Some (File c _) => Ok (Z.of_nat (length c))
  | Some (Dir sz) => Ok sz
  end.

(** [fs.existsSync(p)] *)
Definition existsSync (fs : gmap string node) (p : string) : bool :=
  match fs !! p with Some _ => true | None => false end.

(** [fs.openSync(p, 'r')]: the descriptor is the node it refers to. *)
Definition openSync (fs : gmap string node) (p : string) : result node :=
  match fs !! p with
  | None => Err ENOENT
  | Some (File c false) => Err EACCES
  | Some n => Ok n
  end.

(** [fs.readSync(fd, buf, 0, len, position)] into a zero-filled buffer of
    [len] bytes: a short read leaves the rest of the buffer at zero.  A
    negative position is refused (position -1 would read at the current
    file position instead; the only caller that can pass it goes on to open
    a stream range that is refused with the same error). *)
Definition readSync (fd : node) (len : nat) (position : Z) : result (list Z) :=
  match fd with
  | Dir _ => Err EISDIR
  | File c _ =>
      if position <? 0 then Err ERR_OUT_OF_RANGE
      else Ok (take len (drop (Z.to_nat position) c ++ replicate len 0))
  end.

(** [fs.createReadStream(p, {start, end})], [end] inclusive.  The
    constructor validates the range before anything is opened: both bounds
    must be non-negative integers and [start <= end], otherwise it throws
    ERR_OUT_OF_RANGE ('The value of "start" is out of range. It must be
    <= "end"'). *)
Definition range_ok (start end_ : Z) : bool :=
  (0 <=? start) && (0 <=? end_) && (start <=? end_).

Definition read_range (c : list Z) (start end_ : Z) : list Z :=
  take (Z.to_nat (end_ - start + 1)) (drop (Z.to_nat start) c).

(** [fs.createReadStream(p, {start})], read to the end of the file. *)
Definition read_from (fs : gmap string node) (p : string) (start : Z)
  : result (list Z) :=
  match fs !! p with
  | None => Err ENOENT
  | Some (File c false) => Err EACCES
  | Some (File c true) => Ok (drop (Z.to_nat start) c)
  | Some (Dir _) => Err EISDIR
  end.

Definition is_dir (fs : gmap string node) (p : string) : bool :=
  match fs !! p with Some (Dir _) => true | _ => false end.

(** [fs.createWriteStream(p)] (flag 'w'): the file is created or truncated
    when the stream opens; a directory cannot be opened for writing.  The
    file-system model has neither parent directories nor write permissions,
    so every other path opens: the runs that resolve in Node are among
    those that resolve here (Node also refuses a path whose parent
    directory is missing, and a target that is not writable). *)
Definition open_w (fs : gmap string node) (p : string)
  : result (gmap string node) :=
  match fs !! p with
  | Some (Dir _) => Err EISDIR
  | _ => Ok (<[p := File [] true]> fs)
  end.

(** Flag 'a' and [fs.appendFileSync]: bytes go after the present content. *)
Definition append (fs : gmap string node) (p : string) (chunk : list Z)
  : result (gmap string node) :=
  match fs !! p with
  | Some (Dir _) => Err EISDIR
  | Some (File c r) => Ok (<[p := File (c ++ chunk) r]> fs)
  | None => Ok (<[p := File chunk true]> fs)
  end.

End Fs.

(** ** Writable streams

    A write stream collects the chunks written to it.  [stream.pipeline]
    ends its last stream when the source is exhausted.  [encryptFile] issues
    one more [write] after the pipeline has settled; whether such a late
    chunk still reaches the file is a property of the stream runtime and is
    kept as the parameter [late] of [ws_write]. *)

Record WriteStream : Type := { written : list Z; ended : bool }.

Definition ws_new : WriteStream := {| written := []; ended := false |}.

Definition ws_write (late : bool) (s : WriteStream) (chunk : list Z) : WriteStream :=
  if ended s
  then (if late then {| written := written s ++ chunk; ended := true |} else s)
  else {| written := written s ++ chunk; ended := false |}.

Definition ws_end (s : WriteStream) : WriteStream :=
  {| written := written s; ended := true |}.

(** [crypto.randomBytes(n)], drawn from a byte source at offset [off]. *)
Definition randomBytes (rng : nat -> Z) (off n : nat) : list Z :=
  map rng (seq off n).

(** * The cipher engine (crypto.ts) *)

Module Engine.
Section Cipher.

(** [crypto.pbkdf2Sync(password, salt, iterations, keylen, 'sha256')] *)
Variable pbkdf2Sync : string -> list Z -> Z -> Z -> list Z.
(** Byte [i] of the counter-mode keystream of AES-256-GCM under key, IV. *)
Variable keystream : list Z -> list Z -> nat -> Z.
(** Byte [j] of the GCM tag of a ciphertext under key, IV. *)
Variable ghash : list Z -> list Z -> list Z -> nat -> Z.
(** Does a write issued after the pipeline ended the stream reach the file? *)
Variable write_after_end_lands : bool.
(** How many bytes of the plaintext have reached the output file when the
    pipeline destroys the write stream after a failed tag check; what is
    still queued in the stream then is dropped. *)
Variable flushed : nat.

(** [cipher.update] over a whole stream: a new cipher (or decipher) object
    always starts its keystream at position 0. *)
Definition update (key iv data : list Z) : list Z :=
  imap (fun i b => Z.lxor b (keystream key iv i)) data.

(** [cipher.getAuthTag()]: 16 bytes. *)
Definition getAuthTag (key iv ct : list Z) : list Z :=
  map (ghash key iv ct) (seq 0 16).

(** The input is read as it was when the call started; the caller passes
    distinct input and output paths. *)
Definition encryptFile (fs : gmap string node)
    (inputPath outputPath password : string) (rng : nat -> Z)
  : gmap string node * result string :=
  let salt := randomBytes rng 0 32 in
  let iv := randomBytes rng 32 16 in
  let key := pbkdf2Sync password salt 100000 32 in
  (* const output = fs.createWriteStream(outputPath) *)
  let opened := Fs.open_w fs outputPath in
  match Fs.statSync fs inputPath with
  | Err e => (match opened with Ok fs' => fs' | Err _ => fs end, Err e)
  | Ok total =>
      (* output.write(salt); output.write(iv) *)
      let output := ws_write write_after_end_lands ws_new salt in
      let output := ws_write write_after_end_lands output iv in
      match opened with
      | Err e => (fs, Err e)
      | Ok fs' =>
          match Fs.read_from fs inputPath 0 with
          | Err e => (<[outputPath := File (written output) true]> fs', Err e)
          | Ok data =>
              (* await pipe(input, cipher, output) *)
              let ct := update key iv data in
              let output := ws_end (ws_write write_after_end_lands output ct) in
              let authTag := getAuthTag key iv ct in
              (* output.write(authTag), after the pipeline has settled *)
              let output := ws_write write_after_end_lands output authTag in
              (<[outputPath := File (written output) true]> fs', Ok outputPath)
          end
      end
  end.

(** The bytes a successful [encryptFile] has sent to its output stream. *)
Definition envelope (password : string) (rng : nat -> Z) (data : list Z) : list Z :=
  let salt := randomBytes rng 0 32 in
  let iv := randomBytes rng 32 16 in
  let key := pbkdf2Sync password salt 100000 32 in
  let ct := update key iv data in
  salt ++ iv ++ ct ++ (if write_after_end_lands then getAuthTag key iv ct else []).

(** The decipher emits plaintext while it reads and checks the tag in its
    final step.  When the check fails the pipeline destroys the output
    stream: the plaintext written so far stays in the output file, the rest
    is lost. *)
Definition decryptFile (fs : gmap string node)
    (inputPath outputPath password : string)
  : gmap string node * result string :=
  (* const output = fs.createWriteStream(outputPath) *)
  let opened := Fs.open_w fs outputPath in
  let fs' := match opened with Ok f => f | Err _ => fs end in
  match Fs.openSync fs inputPath with
  | Err e => (fs', Err e)
  | Ok fd =>
  (* fs.readSync(fd, salt, 0, 32, 0); fs.readSync(fd, iv, 0, 16, 32) *)
  match Fs.readSync fd 32 0 with
  | Err e => (fs', Err e)
  | Ok salt =>
  match Fs.readSync fd 16 32 with
  | Err e => (fs', Err e)
  | Ok iv =>
  let key := pbkdf2Sync password salt 100000 32 in
  match Fs.statSync fs inputPath with
  | Err e => (fs', Err e)
  | Ok size =>
  (* fs.readSync(fd, authTag, 0, 16, stats.size - 16) *)
  match Fs.readSync fd 16 (size - 16) with
  | Err e => (fs', Err e)
  | Ok authTag =>
  (* Skip salt+iv (48 bytes) and authTag (last 16 bytes):
     fs.createReadStream(inputPath, { start: 48, end: stats.size - 17 }) *)
  if negb (Fs.range_ok 48 (size - 17)) then (fs', Err ERR_OUT_OF_RANGE)
  else
    match fd, opened with
    | Dir _, _ => (fs', Err EISDIR)
    | _, Err e => (fs, Err e)
    | File c _, Ok fs1 =>
        let ct := Fs.read_range c 48 (size - 17) in
        let pt := update key iv ct in
        (* decipher.final() compares the tag set by setAuthTag *)
        if bool_decide (getAuthTag key iv ct = authTag)
        then (<[outputPath := File pt true]> fs1, Ok outputPath)
        else (<[outputPath := File (take flushed pt) true]> fs1, Err ERR_CRYPTO_AUTH)
    end
  end end end end end.

(** ** Progress reports

    A file read stream hands its data on in chunks of at most 64 KiB; the
    ['data'] listener of [encryptFile] and [decryptFile] adds the length of
    each chunk to [processed] and calls [onProgress(processed / total)]. *)
Definition highWaterMark : Z := 65536.

(** The values of [processed] after each chunk of a stream of [n] bytes. *)
Definition chunk_ends (n : Z) : list Z :=
  map (fun k => Z.min n ((Z.of_nat k + 1) * highWaterMark))
      (seq 0 (Z.to_nat ((n + highWaterMark - 1) / highWaterMark))).

Definition fractions (n total : Z) : list Q :=
  map (fun processed => (inject_Z processed / inject_Z total)%Q) (chunk_ends n).

(** [encryptFile]: the listener is attached, after [statSync], to the
    stream that feeds the pipeline, so every report precedes the end of the
    pipeline.  When the output cannot be opened the pipeline is torn down
    while the input is read, after [arrived] reports at most. *)
Definition encryptFile_reports (fs : gmap string node)
    (inputPath outputPath : string) (arrived : nat) : list Q :=
  match Fs.statSync fs inputPath with
  | Err _ => []
  | Ok total =>
      match Fs.read_from fs inputPath 0 with
      | Err _ => []
      | Ok data =>
          let all := fractions (Z.of_nat (length data)) total in
          match Fs.open_w fs outputPath with
          | Ok _ => all
          | Err _ => take arrived all
          end
      end
  end.

(** The file system when the input stream of [encryptFile] has stopped at
    its report number [n] (the listener threw): the chunks before it have
    gone through the cipher into the output file, which is never ended. *)
Definition encryptFile_stalled (fs : gmap string node)
    (inputPath outputPath password : string) (rng : nat -> Z) (n : nat)
  : gmap string node :=
  let salt := randomBytes rng 0 32 in
  let iv := randomBytes rng 32 16 in
  let key := pbkdf2Sync password salt 100000 32 in
  match Fs.open_w fs outputPath, Fs.read_from fs inputPath 0 with
  | Ok fs', Ok data =>
      let ct := update key iv (take (Z.to_nat (Z.of_nat n * highWaterMark)) data) in
      <[outputPath := File (salt ++ iv ++ ct) true]> fs'
  | Ok fs', Err _ => <[outputPath := File (salt ++ iv) true]> fs'
  | Err _, _ => fs
  end.

(** [decryptFile]: the listener is attached to [input], a stream over the
    whole file that feeds nothing; the pipeline reads the file through a
    second stream.  The listener is attached once the header, the size and
    the tag have been read, and [input] is read to its end whatever becomes
    of the call: its reports are those of the whole file, header and tag
    included, over [stats.size].  The result separates the reports made
    before the promise settles from those made after it: when
    [createReadStream] refuses the range the call is rejected at once and
    every report comes after; otherwise [arrived] of them come before. *)
Definition decryptFile_progress (fs : gmap string node) (inputPath : string)
    (arrived : nat) : list Q * list Q :=
  match Fs.openSync fs inputPath with
  | Err _ => ([], [])
  | Ok fd =>
  match Fs.readSync fd 32 0 with
  | Err _ => ([], [])
  | Ok salt =>
  match Fs.readSync fd 16 32 with
  | Err _ => ([], [])
  | Ok iv =>
  match Fs.statSync fs inputPath with
  | Err _ => ([], [])
  | Ok size =>
  match Fs.readSync fd 16 (size - 16) with
  | Err _ => ([], [])
  | Ok authTag =>
      match fd with
      | Dir _ => ([], [])
      | File c _ =>
          let all := fractions (Z.of_nat (length c)) size in
          if negb (Fs.range_ok 48 (size - 17)) then ([], all)
          else (take arrived all, drop arrived all)
      end
  end end end end end.

(** [isFileEncrypted]: the body of the [try], then the [catch] around it. *)
Definition isFileEncrypted_try (fs : gmap string node) (filePath : string)
  : result bool :=
  match Fs.openSync fs filePath with
  | Err e => Err e
  | Ok fd =>
      match Fs.readSync fd 48 0 with
      | Err e => Err e
      | Ok buffer =>
          match Fs.statSync fs filePath with
          | Err e => Err e
          | Ok size => Ok (64 <? size)
          end
      end
  end.

Definition isFileEncrypted (fs : gmap string node) (filePath : string) : bool :=
  match isFileEncrypted_try fs filePath with
  | Ok b => b
  | Err _ => false
  end.

End Cipher.

(** The envelope as the specification words it: a 64-byte header of format
    version, salt, base nonce, chunk size and total plaintext length, then
    one (ciphertext, 16-byte tag) pair per chunk and nothing after them. *)
Definition spec_envelope (file salt nonce : list Z) (plainLen : nat) : Prop :=
  exists (version chunkSize totalLen : list Z) (chunks : list (list Z * list Z)),
    length version = 4%nat /\ length salt = 32%nat /\ length nonce = 16%nat /\
    length chunkSize = 4%nat /\ length totalLen = 8%nat /\
    Forall (fun c => length c.2 = 16%nat) chunks /\
    length (concat (map fst chunks)) = plainLen /\
    file = version ++ salt ++ nonce ++ chunkSize ++ totalLen
           ++ concat (map (fun c => c.1 ++ c.2) chunks).

End Engine.

(** * The checkpoint store (resumableOperation.ts) *)

Module Resume.

Inductive Operation : Type := encrypt | decrypt.

Record OperationCheckpoint : Type := {
  id : string;
  operation : Operation;
  inputPath : string;
  outputPath : string;
  password : string;            (* the SHA-256 hex digest of the password *)
  progress : Q;
  bytesProcessed : Z;
  totalBytes : Z;
  chunkSize : Z;
  timestamp : Z;                (* milliseconds, Date.now() *)
  algorithm : string;
  salt : option (list Z);
  iv : option (list Z);
  tempDataPath : option string
}.

Record ResumeInfo : Type := {
  canResume : bool;
  checkpoint : option OperationCheckpoint;
  reason : option string
}.

(** [{ canResume: false, reason }] and [{ canResume: true, checkpoint }] *)
Definition refuse (r : string) : ResumeInfo :=
  {| canResume := false; checkpoint := None; reason := Some r |}.
Definition accept (cp : OperationCheckpoint) : ResumeInfo :=
  {| canResume := true; checkpoint := Some cp; reason := None |}.

(** The checkpoint directory: one JSON file per operation id,
    [checkpointsDir/<id>.json].  A file is represented by the record that
    [JSON.parse] and the [Buffer.from] conversion of [salt] and [iv] give
    for it; [Some None] is a file whose content does not parse.  The text
    of the files is not part of the model. *)
Definition loadCheckpoint
    (store : gmap string (option OperationCheckpoint)) (operationId : string)
  : option OperationCheckpoint :=
  match store !! operationId with
  | None => None            (* !fs.existsSync(checkpointPath) *)
  | Some None => None       (* JSON.parse throws, the catch returns null *)
  | Some (Some cp) => Some cp
  end.

(** JavaScript truthiness of an optional string: undefined and '' are falsy. *)
Definition truthy (o : option string) : bool :=
  match o with
  | Some s => negb (String.eqb s "")
  | None => false
  end.

Definition checkpointInterval : Z := 5 * 1024 * 1024.

(** [path.join(dir, name)] for a plain file name. *)
Definition path_join (dir name : string) : string :=
  String.append dir (String.append "/" name).

(** [(Date.now() - checkpoint.timestamp) / (1000 * 60 * 60 * 24)] *)
Definition daysSinceCheckpoint (now : Z) (cp : OperationCheckpoint) : Q :=
  (inject_Z (now - timestamp cp) / inject_Z (1000 * 60 * 60 * 24))%Q.

(** The first entry of an ordered list of (holds, reason) checks that does
    not hold. *)
Definition first_failing (checks : list (bool * string)) : option string :=
  snd <$> List.find (fun c => negb (fst c)) checks.

Section Store.

Variable sha256hex : string -> string.
Variable pbkdf2Sync : string -> list Z -> Z -> Z -> list Z.
Variable keystream : list Z -> list Z -> nat -> Z.
Variable ghash : list Z -> list Z -> list Z -> nat -> Z.
(** [app.getPath('userData')/temp] *)
Variable tempDir : string.
(** [Date.now()] at the moment the data handler of a resumed encryption has
    counted [processed] bytes, and the number of bytes the output file holds
    at that moment. *)
Variable clock : Z -> Z.
Variable written_at : Z -> nat.

Definition encryptPassword (pw : string) : string := sha256hex pw.

Definition verifyPassword (pw storedHash : string) : bool :=
  String.eqb (sha256hex pw) storedHash.

Definition saveCheckpoint
    (store : gmap string (option OperationCheckpoint)) (fs : gmap string node)
    (now : Z) (operationId : string) (op : Operation)
    (inputPath outputPath pw : string) (progress : Q)
    (bytesProcessed totalBytes : Z) (algorithm : string)
    (salt iv : option (list Z))
  : gmap string (option OperationCheckpoint) * gmap string node :=
  let tmp := path_join tempDir (String.append operationId ".temp") in
  let cp := {| id := operationId; operation := op;
               inputPath := inputPath; outputPath := outputPath;
               password := encryptPassword pw; progress := progress;
               bytesProcessed := bytesProcessed; totalBytes := totalBytes;
               chunkSize := checkpointInterval; timestamp := now;
               algorithm := algorithm; salt := salt; iv := iv;
               tempDataPath := if 0 <? bytesProcessed then Some tmp else None |} in
  let fs' :=
    if 0 <? bytesProcessed then
      match fs !! outputPath with
      | Some n => <[tmp := n]> fs      (* fs.copyFileSync(outputPath, tmp) *)
      | None => fs
      end
    else fs in
  (<[operationId := Some cp]> store, fs').

Definition canResumeOperation
    (store : gmap string (option OperationCheckpoint)) (fs : gmap string node)
    (now : Z) (operationId pw : string) : result ResumeInfo :=
  match loadCheckpoint store operationId with
  | None => Ok (refuse "Checkpoint not found")
  | Some cp =>
      (* Verify password *)
      if negb (verifyPassword pw (password cp)) then Ok (refuse "Invalid password")
      (* Check if input file still exists *)
      else if negb (Fs.existsSync fs (inputPath cp))
      then Ok (refuse "Input file no longer exists")
      else
        (* Check if input file size matches *)
        match Fs.statSync fs (inputPath cp) with
        | Err e => Err e
        | Ok currentSize =>
            if negb (currentSize =? totalBytes cp)
            then Ok (refuse "Input file has been modified")
            (* Check if temp data exists if needed *)
            else if truthy (tempDataPath cp)
                    && negb (Fs.existsSync fs (default ""%string (tempDataPath cp)))
            then Ok (refuse "Temporary data lost")
            (* Check if checkpoint is not too old *)
            else if negb (Qle_bool (daysSinceCheckpoint now cp) 7)
            then Ok (refuse "Checkpoint is too old (>7 days)")
            else Ok (accept cp)
        end
  end.

(** The checks of [canResumeOperation], in the order of the code. *)
Definition code_checks (fs : gmap string node) (now : Z) (pw : string)
    (cp : OperationCheckpoint) : list (bool * string) :=
  [ (verifyPassword pw (password cp), "Invalid password"%string);
    (Fs.existsSync fs (inputPath cp), "Input file no longer exists"%string);
    (match Fs.statSync fs (inputPath cp) with
     | Ok currentSize => currentSize =? totalBytes cp
     | Err _ => false
     end, "Input file has been modified"%string);
    (negb (truthy (tempDataPath cp))
     || Fs.existsSync fs (default ""%string (tempDataPath cp)),
     "Temporary data lost"%string);
    (bool_decide (now - timestamp cp <= 7 * 24 * 60 * 60 * 1000),
     "Checkpoint is too old (>7 days)"%string) ].

(** The checks of [canResume] in the order the specification lists them:
    password verifier, input file exists, size equals [totalBytes], age at
    most 7 days, and, if [bytesProcessed > 0], temp snapshot data exists. *)
Definition spec_canResume
    (store : gmap string (option OperationCheckpoint)) (fs : gmap string node)
    (now : Z) (operationId pw : string) : ResumeInfo :=
  match loadCheckpoint store operationId with
  | None => refuse "Checkpoint not found"
  | Some cp =>
      match first_failing
              [ (verifyPassword pw (password cp), "Invalid password"%string);
                (Fs.existsSync fs (inputPath cp), "Input file no longer exists"%string);
                (match Fs.statSync fs (inputPath cp) with
                 | Ok currentSize => currentSize =? totalBytes cp
                 | Err _ => false
                 end, "Input file has been modified"%string);
                (bool_decide (now - timestamp cp <= 7 * 24 * 60 * 60 * 1000),
                 "Checkpoint is too old (>7 days)"%string);
                (negb (0 <? bytesProcessed cp)
                 || Fs.existsSync fs (default ""%string (tempDataPath cp)),
                 "Temporary data lost"%string) ] with
      | Some r => refuse r
      | None => accept cp
      end
  end.

(** The algorithm that [saveCheckpoint] records by default is that of the
    engine, 'aes-256-gcm', and the cipher model covers that algorithm.  For another
    algorithm string in a checkpoint file Node may build another cipher
    (and the code appends or reads a tag only if the string includes
    'gcm'); such checkpoints are not followed: the model answers
    ERR_UNKNOWN_CIPHER for them, and every statement about a resumed run
    carries the algorithm of the checkpoint as a hypothesis. *)
Definition is_gcm (alg : string) : bool := String.eqb alg "aes-256-gcm".

(** [resumeEncryption]: a new cipher object on the stored salt and IV, fed
    with the input from [bytesProcessed] on, appended to the output file;
    the tag of that cipher object is appended when the output has finished.
    The checkpoints the data handler saves on the way are those of
    [periodic_save] below. *)
Definition resumeEncryption (cp : OperationCheckpoint) (pw : string)
    (fs : gmap string node) : gmap string node * result unit :=
  if negb (0 <=? bytesProcessed cp) then (fs, Err ERR_OUT_OF_RANGE)
  else
    match Fs.append fs (outputPath cp) [] with
    | Err e => (fs, Err e)
    | Ok fs0 =>
        match salt cp, iv cp with
        | None, _ | _, None => (fs0, Err ERR_INVALID_ARG)
        | Some salt, Some iv =>
            let key := pbkdf2Sync pw salt 100000 32 in
            if negb (is_gcm (algorithm cp)) then (fs0, Err ERR_UNKNOWN_CIPHER)
            else
              match Fs.read_from fs (inputPath cp) (bytesProcessed cp) with
              | Err e => (fs0, Err e)
              | Ok rest =>
                  let ct := Engine.update keystream key iv rest in
                  let authTag := Engine.getAuthTag ghash key iv ct in
                  match Fs.append fs0 (outputPath cp) (ct ++ authTag) with
                  | Err e => (fs0, Err e)
                  | Ok fs1 => (fs1, Ok tt)
                  end
              end
        end
    end.

(** [resumeDecryption]: a new decipher object on the stored salt and IV with
    the tag from the last 16 bytes of the input, fed with the input from
    [48 + bytesProcessed] up to the tag, appended to the output file. *)
Definition resumeDecryption (cp : OperationCheckpoint) (pw : string)
    (fs : gmap string node) : gmap string node * result unit :=
  match salt cp, iv cp with
  | None, _ | _, None => (fs, Err ERR_INVALID_ARG)
  | Some salt, Some iv =>
      let key := pbkdf2Sync pw salt 100000 32 in
      if negb (is_gcm (algorithm cp)) then (fs, Err ERR_UNKNOWN_CIPHER)
      else
        match Fs.statSync fs (inputPath cp), Fs.openSync fs (inputPath cp) with
        | Err e, _ | _, Err e => (fs, Err e)
        | Ok size, Ok fd =>
            match Fs.readSync fd 16 (size - 16) with
            | Err e => (fs, Err e)
            | Ok authTag =>
                let dataEndPos := size - 16 in
                let remainingStart := 48 + bytesProcessed cp in
                if negb (Fs.range_ok remainingStart (dataEndPos - 1))
                then (fs, Err ERR_OUT_OF_RANGE)
                else
                  match fd with
                  | Dir _ => (fs, Err EISDIR)
                  | File c _ =>
                      let ct := Fs.read_range c remainingStart (dataEndPos - 1) in
                      let pt := Engine.update keystream key iv ct in
                      match Fs.append fs (outputPath cp) pt with
                      | Err e => (fs, Err e)
                      | Ok fs1 =>
                          if bool_decide (Engine.getAuthTag ghash key iv ct = authTag)
                          then (fs1, Ok tt)
                          else (fs1, Err ERR_CRYPTO_AUTH)
                      end
                  end
            end
        end
  end.

(** The values of [processed] at which the data handler of
    [resumeEncryption] saves a checkpoint: the read stream starts at
    [bytesProcessed] and hands on chunks of at most 64 KiB, and the handler
    saves when the count is a multiple of the checkpoint interval. *)
Definition save_points (cp : OperationCheckpoint) (fs : gmap string node) : list Z :=
  match Fs.read_from fs (inputPath cp) (bytesProcessed cp) with
  | Err _ => []
  | Ok rest =>
      List.filter (fun processed => processed mod checkpointInterval =? 0)
        (map (fun e => bytesProcessed cp + e)
           (Engine.chunk_ends (Z.of_nat (length rest))))
  end.

(** One such save: [saveCheckpoint] under the id recorded in the checkpoint,
    with the output file as it is at that moment, a prefix of what the run
    writes.  If [copyFileSync] throws (the output cannot be read, or the
    temp path is a directory) nothing is saved: the rejection is swallowed
    by the [catch] of the handler.  The run is taken to read its input as
    it was at the start, also when the temp path is the input path. *)
Definition periodic_save (cp : OperationCheckpoint) (pw : string)
    (st : gmap string (option OperationCheckpoint) * gmap string node)
    (processed : Z)
  : gmap string (option OperationCheckpoint) * gmap string node :=
  let tmp := path_join tempDir (String.append (id cp) ".temp") in
  match st.2 !! outputPath cp with
  | Some (File final true) =>
      if Fs.is_dir st.2 tmp then st
      else
        let fs_now :=
          <[outputPath cp := File (take (written_at processed) final) true]> st.2 in
        let saved :=
          saveCheckpoint st.1 fs_now (clock processed) (id cp) (operation cp)
            (inputPath cp) (outputPath cp) pw
            (inject_Z processed / inject_Z (totalBytes cp))%Q
            processed (totalBytes cp) (algorithm cp) (salt cp) (iv cp) in
        (saved.1, <[outputPath cp := File final true]> saved.2)
  | _ => st
  end.

(** [resumeEncryption] with the checkpoints it saves on the way.  Data, and
    with it a save, flows only in a run that goes through. *)
Definition resumeEncryption_saving (cp : OperationCheckpoint) (pw : string)
    (store : gmap string (option OperationCheckpoint)) (fs : gmap string node)
  : gmap string (option OperationCheckpoint) * gmap string node * result unit :=
  let '(fs1, r) := resumeEncryption cp pw fs in
  match r with
  | Ok _ =>
      let '(store1, fs2) := foldl (periodic_save cp pw) (store, fs1) (save_points cp fs) in
      (store1, fs2, r)
  | Err _ => (store, fs1, r)
  end.

(** [cleanupCheckpoint]: the checkpoint file and the temp copy are removed. *)
Definition cleanupCheckpoint
    (store : gmap string (option OperationCheckpoint)) (fs : gmap string node)
    (operationId : string)
  : gmap string (option OperationCheckpoint) * gmap string node :=
  (delete operationId store,
   delete (path_join tempDir (String.append operationId ".temp")) fs).

Definition resumeOperation
    (store : gmap string (option OperationCheckpoint)) (fs : gmap string node)
    (now : Z) (operationId pw : string)
  : gmap string (option OperationCheckpoint) * gmap string node * result unit :=
  match loadCheckpoint store operationId with
  | None => (store, fs, Err (JsError "Checkpoint not found"))
  | Some cp =>
      if negb (verifyPassword pw (password cp))
      then (store, fs, Err (JsError "Invalid password for resuming operation"))
      else
        match canResumeOperation store fs now operationId pw with
        | Err e => (store, fs, Err e)
        | Ok resumeInfo =>
            if negb (canResume resumeInfo)
            then (store, fs,
                  Err (JsError (if truthy (reason resumeInfo)
                                then default ""%string (reason resumeInfo)
                                else "Cannot resume operation"%string)))
            else
              let '(store1, fs1, r) :=
                match operation cp with
                | encrypt => resumeEncryption_saving cp pw store fs
                | decrypt =>
                    let '(fs1, r) := resumeDecryption cp pw fs in (store, fs1, r)
                end in
              match r with
              | Err e => (store1, fs1, Err e)
              | Ok _ =>
                  let '(store', fs2) := cleanupCheckpoint store1 fs1 operationId in
                  (store', fs2, Ok tt)
              end
        end
  end.

End Store.
End Resume.

(** * The worker pool (encryptionWorkerManager.ts) *)

Module Pool.

Inductive TaskType : Type := encrypt | decrypt.

Record WorkerTask : Type := {
  id : string;
  type : TaskType;
  inputPath : string;
  outputPath : string;
  password : string
}.

Inductive Status : Type := processing | completed | error.

Record WorkerProgress : Type := {
  taskId : string;
  progress : Q;
  status : Status
}.

(** The manager, and the worker threads it has created.  A [Worker] object
    is named by its serial number; [spawned] lists the task id each worker
    was created for, and [running] holds the workers that have neither been
    terminated nor exited. *)
Record Manager : Type := {
  workers : gmap string nat;
  activeTasksQueue : list WorkerTask;
  maxWorkers : Z;
  currentWorkerCount : Z;
  spawned : list string;
  running : gset nat
}.

(** An assignment to [this.activeTasksQueue]. *)
Definition set_queue (m : Manager) (queue : list WorkerTask) : Manager :=
  {| workers := workers m; activeTasksQueue := queue;
     maxWorkers := maxWorkers m; currentWorkerCount := currentWorkerCount m;
     spawned := spawned m; running := running m |}.

(** [new EncryptionWorkerManager(maxWorkers)] *)
Definition create (maxWorkers : Z) : Manager :=
  {| workers := ∅; activeTasksQueue := []; maxWorkers := maxWorkers;
     currentWorkerCount := 0; spawned := []; running := ∅ |}.

Definition startWorker (m : Manager) (task : WorkerTask) : Manager :=
  let worker := length (spawned m) in          (* new Worker(workerScript, ...) *)
  {| workers := <[id task := worker]> (workers m);
     activeTasksQueue := activeTasksQueue m;
     maxWorkers := maxWorkers m;
     currentWorkerCount := currentWorkerCount m + 1;
     spawned := spawned m ++ [id task];
     running := {[worker]} ∪ running m |}.

Definition processQueue (m : Manager) : Manager :=
  if (length (activeTasksQueue m) =? 0)%nat || (maxWorkers m <=? currentWorkerCount m)
  then m
  else
    match activeTasksQueue m with       (* this.activeTasksQueue.shift() *)
    | [] => m
    | task :: rest =>
        startWorker (set_queue m rest) task
    end.

Definition queueTask (m : Manager) (task : WorkerTask) : Manager :=
  processQueue (set_queue m (activeTasksQueue m ++ [task])).

Definition cleanupWorker (m : Manager) (taskId : string) : Manager :=
  match workers m !! taskId with
  | Some worker =>
      {| workers := delete taskId (workers m);       (* after worker.terminate() *)
         activeTasksQueue := activeTasksQueue m;
         maxWorkers := maxWorkers m;
         currentWorkerCount := currentWorkerCount m - 1;
         spawned := spawned m;
         running := running m ∖ {[worker]} |}
  | None => m
  end.

Definition cancelTask (m : Manager) (taskId : string) : Manager :=
  let m1 := cleanupWorker m taskId in    (* after postMessage({type: 'cancel'}) *)
  set_queue m1
    (List.filter (fun task => negb (String.eqb (id task) taskId)) (activeTasksQueue m1)).

Definition cancelAllTasks (m : Manager) : Manager :=
  let m1 := foldl cleanupWorker m (map fst (map_to_list (workers m))) in
  set_queue m1 [].

Definition getActiveTaskCount (m : Manager) : Z := currentWorkerCount m.
Definition getQueuedTaskCount (m : Manager) : nat := length (activeTasksQueue m).

(** [Math.max(2, Math.min(8, Math.floor(cpuCount / 2)))] *)
Definition getOptimalWorkerCount (cpuCount : Z) : Z :=
  Z.max 2 (Z.min 8 (cpuCount / 2)).

(** The handlers [startWorker] installs on a worker created for [taskId].
    Each begins by emitting an event to the registered listeners; a listener
    that throws ([throws]) ends the handler at that point. *)
Definition on_message (m : Manager) (taskId : string) (data : WorkerProgress)
    (throws : bool) : Manager :=
  if throws then m
  else
    match status data with
    | completed | error => processQueue (cleanupWorker m taskId)
    | processing => m
    end.

Definition on_error (m : Manager) (taskId : string) (throws : bool) : Manager :=
  if throws then m else processQueue (cleanupWorker m taskId).

Definition on_exit (m : Manager) (taskId : string) (code : Z) (throws : bool)
  : Manager :=
  if negb (code =? 0) && throws then m
  else processQueue (cleanupWorker m taskId).

(** What can happen to a manager: calls of its methods, and events of the
    workers it has created. *)
Inductive Event : Type :=
| QueueTask (task : WorkerTask)
| CancelTask (taskId : string)
| CancelAllTasks
| WorkerMessage (worker : nat) (data : WorkerProgress) (throws : bool)
| WorkerError (worker : nat) (throws : bool)
| WorkerExit (worker : nat) (code : Z) (throws : bool).

Definition exited (m : Manager) (worker : nat) : Manager :=
  {| workers := workers m; activeTasksQueue := activeTasksQueue m;
     maxWorkers := maxWorkers m; currentWorkerCount := currentWorkerCount m;
     spawned := spawned m; running := running m ∖ {[worker]} |}.

Definition step (m : Manager) (ev : Event) : Manager :=
  match ev with
  | QueueTask task => queueTask m task
  | CancelTask taskId => cancelTask m taskId
  | CancelAllTasks => cancelAllTasks m
  | WorkerMessage worker data throws =>
      match spawned m !! worker with
      | Some taskId => on_message m taskId data throws
      | None => m
      end
  | WorkerError worker throws =>
      match spawned m !! worker with
      | Some taskId => on_error m taskId throws
      | None => m
      end
  | WorkerExit worker code throws =>
      match spawned m !! worker with
      | Some taskId => on_exit (exited m worker) taskId code throws
      | None => m
      end
  end.

(** The manager after a history of events. *)
Definition run (maxWorkers : Z) (history : list Event) : Manager :=
  foldl step (create maxWorkers) history.

(** The events whose handler releases the slot of its worker and runs to
    its end: a message with a terminal status, an error, an exit. *)
Definition releasing (ev : Event) : option nat :=
  match ev with
  | WorkerMessage worker data false =>
      match status data with processing => None | _ => Some worker end
  | WorkerError worker false => Some worker
  | WorkerExit worker _ false => Some worker
  | _ => None
  end.

(** The accounting invariant: the workers that are running or still in the
    map form a set [tracked] no larger than the counter, and the counter is
    within [maxWorkers]. *)
Definition Inv (m : Manager) : Prop :=
  currentWorkerCount m <= maxWorkers m /\
  exists tracked : gset nat,
    running m ⊆ tracked /\
    (forall taskId worker, workers m !! taskId = Some worker -> worker ∈ tracked) /\
    Z.of_nat (size tracked) <= currentWorkerCount m /\
    (forall worker, worker ∈ tracked -> (worker < length (spawned m))%nat) /\
    (forall t1 t2 worker,
        workers m !! t1 = Some worker -> workers m !! t2 = Some worker -> t1 = t2).

End Pool.

(** * The batch runner (batchProcessor.ts) *)

Module Batch.

Inductive Operation : Type := encrypt | decrypt.

Definition operation_name (op : Operation) : string :=
  match op with encrypt => "encrypt" | decrypt => "decrypt" end.

Record BatchFileInfo : Type := {
  inputPath : string;
  outputPath : string;
  name : string;
  size : Z
}.

Record BatchProgress : Type := {
  fileIndex : nat;
  fileName : string;
  fileProgress : Q;
  overallProgress : Q;
  completed : nat;
  total : nat;
  errors : list string
}.

Record BatchOptions : Type := {
  operation : Operation;
  password : string;
  outputDirectory : option string;
  preserveStructure : bool;
  overwriteExisting : bool
}.

(** The two fields of a [BatchProcessor]. *)
Record Instance : Type := { isProcessing : bool; shouldCancel : bool }.

(** Which statement passed a snapshot to [onProgress]: the one at the start
    of a file, the per-file callback with the fraction the engine reported
    (while the engine call for the file is awaited, or for file [j] after
    that call has settled: the callback is a closure over [progress] and
    the loop index, and the engine may go on reporting from a stream that
    outlives its promise), or the one after the loop. *)
Inductive TickKind : Type :=
| Start
| Tick (fileFraction : Q)
| Late (j : nat) (fileFraction : Q)
| Final.

(** [encryptFile] / [decryptFile] as the runner sees one call:
    - [reports]: the fractions passed to the progress callback before the
      promise settles;
    - [piped]: whether they are reported by the source stream of the
      engine's pipeline; a callback that throws inside a ['data'] listener
      stops that stream, so a pipeline fed by it never ends and the promise
      never settles;
    - [stalled n]: the file system left behind when the pipeline has
      stopped at report [n];
    - [after], [failure]: the file system when the promise settles, and the
      message of the error if it is rejected;
    - [late]: the fractions reported after the promise has settled. *)
Record Run : Type := {
  reports : list Q;
  piped : bool;
  stalled : nat -> gmap string node;
  after : gmap string node;
  failure : option string;
  late : list Q
}.

(** A call of [processFiles] that has passed the guard: its arguments, the
    loop index, the [progress] object and the snapshots handed out so far;
    whether the awaited engine call can still settle ([hung] if not); and,
    per file index, the reports that the engine call for that file has
    still to make after it has settled. *)
Record Frame : Type := {
  files : list BatchFileInfo;
  options : BatchOptions;
  i : nat;
  progress : BatchProgress;
  emitted : list (TickKind * BatchProgress);
  hung : bool;
  pending : gmap nat (list Q)
}.

(** The outcome of a call: [None] for the call ([Some f] with its frame when
    it got past the guard), and how its promise settled. *)
Record System : Type := {
  inst : Instance;
  fs : gmap string node;
  history : list (string * Operation);
  active : list Frame;
  settled : list (option Frame * result unit)
}.

Definition fresh (fs : gmap string node) : System :=
  {| inst := {| isProcessing := false; shouldCancel := false |};
     fs := fs; history := []; active := []; settled := [] |}.

(** [FileHistoryManager.addToHistory]: every error inside is caught. *)
Definition addToHistory (fs : gmap string node) (history : list (string * Operation))
    (filePath : string) (op : Operation) : list (string * Operation) :=
  match Fs.statSync fs filePath with
  | Err _ => history
  | Ok _ =>
      take 20 ((filePath, op)
               :: List.filter (fun e => negb (String.eqb (fst e) filePath))
                    (List.filter (fun e => Fs.existsSync fs (fst e)) history))
  end.

(** The fraction of a file behind a snapshot, if it has one. *)
Definition fraction (kind : TickKind) : option Q :=
  match kind with
  | Start => Some 0%Q
  | Tick t | Late _ t => Some t
  | Final => None
  end.

(** What the overall figure of a snapshot is.  For the snapshot at the
    start of a file and for a report made while the engine call for the
    file is awaited: the file index plus the fraction of the file, over the
    number of files, as a percentage, where the file index counts the files
    tried before, completed or failed.  For a report about file [j] that
    arrives after the engine call for file [j] has settled: the same
    figure with [j] in place of the file index, while the snapshot carries
    the file index and the counts that the loop has reached by then.  For
    the snapshot after the loop: 100. *)
Definition tick_ok (tick : TickKind * BatchProgress) : Prop :=
  let p := tick.2 in
  match tick.1 with
  | Late j t =>
      (overallProgress p
       == (inject_Z (Z.of_nat j) + t) / inject_Z (Z.of_nat (total p)) * 100)%Q
      /\ (fileProgress p == t * 100)%Q
      /\ (j <= fileIndex p)%nat
      /\ (j < completed p + length (errors p))%nat
  | kind =>
      match fraction kind with
      | Some t =>
          (overallProgress p
           == (inject_Z (Z.of_nat (fileIndex p)) + t)
              / inject_Z (Z.of_nat (total p)) * 100)%Q
          /\ (fileProgress p == t * 100)%Q
          /\ fileIndex p = (completed p + length (errors p))%nat
      | None => (overallProgress p == 100)%Q
      end
  end.

(** The formula of the specification: completed files plus the fraction of
    the current file, over the number of files. *)
Definition spec_overallFraction (p : BatchProgress) (currentFileFraction : Q) : Q :=
  ((inject_Z (Z.of_nat (completed p)) + currentFileFraction)
   / inject_Z (Z.of_nat (total p)))%Q.

Section Runner.

(** [encryptFile] / [decryptFile] as the runner sees them. *)
Variable engine :
  Operation -> string -> string -> string -> gmap string node -> Run.
(** [path.dirname] *)
Variable dirname : string -> string.
(** The caller's [onProgress]: [Some msg] if it throws [Error(msg)]. *)
Variable sink : BatchProgress -> option string.

Definition processingleFile (file : BatchFileInfo) (opts : BatchOptions)
    (fs : gmap string node) : Run :=
  if negb (overwriteExisting opts) && Fs.existsSync fs (outputPath file)
  then {| reports := []; piped := false; stalled := fun _ => fs; after := fs;
          failure := Some (String.append "Output file already exists: "
                             (outputPath file));
          late := [] |}
  else
    let outputDir := dirname (outputPath file) in
    let fs1 := if Fs.existsSync fs outputDir then fs
               else <[outputDir := Dir 4096]> fs in
    engine (operation opts) (inputPath file) (outputPath file) (password opts) fs1.

Definition set_progress (f : Frame) (p : BatchProgress) : Frame :=
  {| files := files f; options := options f; i := i f; progress := p;
     emitted := emitted f; hung := hung f; pending := pending f |}.

(** [onProgress({ ...progress })]: the snapshot is recorded with the error
    list as it is at this moment (in the source the copies share the one
    [errors] array of the call). *)
Definition emit (kind : TickKind) (f : Frame) : Frame :=
  {| files := files f; options := options f; i := i f; progress := progress f;
     emitted := emitted f ++ [(kind, progress f)];
     hung := hung f; pending := pending f |}.

(** The [finally] block, and the promise of the call settling. *)
Definition settle (s : System) (others : list Frame) (f : Frame) (r : result unit)
  : System :=
  {| inst := {| isProcessing := false; shouldCancel := shouldCancel (inst s) |};
     fs := fs s; history := history s; active := others;
     settled := settled s ++ [(Some f, r)] |}.

(** After the loop: [progress.overallProgress = 100], one more snapshot,
    and the [finally] block. *)
Definition finish (s : System) (f : Frame) (others : list Frame) : System :=
  let f1 := set_progress f
    {| fileIndex := fileIndex (progress f); fileName := fileName (progress f);
       fileProgress := fileProgress (progress f); overallProgress := 100;
       completed := completed (progress f); total := total (progress f);
       errors := errors (progress f) |} in
  let f2 := emit Final f1 in
  settle s others f2
    (match sink (progress f2) with Some msg => Err (JsError msg) | None => Ok tt end).

(** From the loop test to the next [await], or to the end of the call. *)
Definition loop_head (s : System) (f : Frame) (others : list Frame) : System :=
  let K := length (files f) in
  match files f !! i f with
  | Some file =>
      if shouldCancel (inst s)
      then finish s f others        (* break *)
      else
        let f1 := set_progress f
          {| fileIndex := i f; fileName := name file; fileProgress := 0;
             overallProgress :=
               (inject_Z (Z.of_nat (i f)) / inject_Z (Z.of_nat K) * 100)%Q;
             completed := completed (progress f); total := total (progress f);
             errors := errors (progress f) |} in
        let f2 := emit Start f1 in
        match sink (progress f2) with
        | Some msg => settle s others f2 (Err (JsError msg))
        | None =>
            {| inst := inst s; fs := fs s; history := history s;
               active := f2 :: others; settled := settled s |}
        end
  | None => finish s f others
  end.

(** A call of [processFiles], up to its first [await]. *)
Definition call (s : System) (fileList : list BatchFileInfo) (opts : BatchOptions)
  : System :=
  if isProcessing (inst s)
  then {| inst := inst s; fs := fs s; history := history s; active := active s;
          settled := settled s
            ++ [(None, Err (JsError "Batch processing is already in progress"))] |}
  else
    let s1 := {| inst := {| isProcessing := true; shouldCancel := false |};
                 fs := fs s; history := history s; active := active s;
                 settled := settled s |} in
    let f := {| files := fileList; options := opts; i := 0;
                progress := {| fileIndex := 0; fileName := ""; fileProgress := 0;
                               overallProgress := 0; completed := 0;
                               total := length fileList; errors := [] |};
                emitted := []; hung := false; pending := ∅ |} in
    loop_head s1 f (active s).

(** The per-file progress callback, called by the engine with a fraction. *)
Definition file_tick (f : Frame) (fileFraction : Q) : Frame :=
  let K := length (files f) in
  emit (Tick fileFraction)
    (set_progress f
       {| fileIndex := fileIndex (progress f); fileName := fileName (progress f);
          fileProgress := (fileFraction * 100)%Q;
          overallProgress :=
            ((inject_Z (Z.of_nat (i f)) + fileFraction) / inject_Z (Z.of_nat K) * 100)%Q;
          completed := completed (progress f); total := total (progress f);
          errors := errors (progress f) |}).

Definition next_file (f : Frame) (p : BatchProgress) : Frame :=
  {| files := files f; options := options f; i := S (i f); progress := p;
     emitted := emitted f; hung := hung f; pending := pending f |}.

(** The reports of the awaited engine call, in order, up to the first one
    at which [onProgress] throws: the stream whose ['data'] listener has
    thrown delivers nothing more.  The result says at which report, if at
    any, the callback threw. *)
Fixpoint deliver (ticks : list Q) (f : Frame) (n : nat) : Frame * option nat :=
  match ticks with
  | [] => (f, None)
  | t :: rest =>
      let f1 := file_tick f t in
      match sink (progress f1) with
      | Some _ => (f1, Some n)
      | None => deliver rest f1 (S n)
      end
  end.

Definition set_hung (f : Frame) : Frame :=
  {| files := files f; options := options f; i := i f; progress := progress f;
     emitted := emitted f; hung := true; pending := pending f |}.

Definition set_pending (f : Frame) (m : gmap nat (list Q)) : Frame :=
  {| files := files f; options := options f; i := i f; progress := progress f;
     emitted := emitted f; hung := hung f; pending := m |}.

(** The awaited [processingleFile] of the [k]-th call in flight settles; the
    call goes on to its next [await] or to its end.  If the callback has
    thrown in a report of the pipeline's source, the engine call does not
    settle any more and the call stays in flight for good. *)
Definition resolve (s : System) (k : nat) : System :=
  match active s !! k with
  | None => s
  | Some f =>
      let others := delete k (active s) in
      match files f !! i f with
      | None => s
      | Some file =>
          if hung f then s else
          let run := processingleFile file (options f) (fs s) in
          let fs' := after run in
          let err := failure run in
          let '(f0, thrown) := deliver (reports run) f 0 in
          match thrown, piped run with
          | Some n, true =>
              {| inst := inst s; fs := stalled run n; history := history s;
                 active := <[k := set_hung f0]> (active s);
                 settled := settled s |}
          | _, _ =>
          let f1 := set_pending f0
                      (<[i f := match thrown with
                                | Some _ => []
                                | None => late run
                                end]> (pending f0)) in
          let p := progress f1 in
          match err with
          | None =>
              (* progress.completed++; addToHistory(...) *)
              let f2 := next_file f1
                {| fileIndex := fileIndex p; fileName := fileName p;
                   fileProgress := fileProgress p; overallProgress := overallProgress p;
                   completed := S (completed p); total := total p;
                   errors := errors p |} in
              loop_head
                {| inst := inst s; fs := fs';
                   history := addToHistory fs' (history s) (inputPath file)
                                (operation (options f));
                   active := active s; settled := settled s |}
                f2 others
          | Some message =>
              (* progress.errors.push(errorMessage) *)
              let errorMessage :=
                String.append "Failed to "
                  (String.append (operation_name (operation (options f)))
                     (String.append " "
                        (String.append (name file) (String.append ": " message)))) in
              let f2 := next_file f1
                {| fileIndex := fileIndex p; fileName := fileName p;
                   fileProgress := fileProgress p; overallProgress := overallProgress p;
                   completed := completed p; total := total p;
                   errors := errors p ++ [errorMessage] |} in
              loop_head
                {| inst := inst s; fs := fs'; history := history s;
                   active := active s; settled := settled s |}
                f2 others
          end
          end
      end
  end.

(** The per-file callback of file [j], called after the engine call for
    file [j] has settled: the closure still holds the [progress] object of
    its call and its own loop index. *)
Definition late_tick (f : Frame) (j : nat) (fileFraction : Q) : Frame :=
  let K := length (files f) in
  emit (Late j fileFraction)
    (set_progress f
       {| fileIndex := fileIndex (progress f); fileName := fileName (progress f);
          fileProgress := (fileFraction * 100)%Q;
          overallProgress :=
            ((inject_Z (Z.of_nat j) + fileFraction) / inject_Z (Z.of_nat K) * 100)%Q;
          completed := completed (progress f); total := total (progress f);
          errors := errors (progress f) |}).

(** The next late report of file [j]; a callback that throws there is an
    uncaught exception outside the promise of the call, and ends the
    reports of that stream. *)
Definition report_frame (j : nat) (f : Frame) : Frame :=
  match pending f !! j with
  | Some (t :: rest) =>
      let f1 := late_tick f j t in
      set_pending f1
        (<[j := match sink (progress f1) with Some _ => [] | None => rest end]>
           (pending f1))
  | _ => f
  end.

(** A call that is in flight, or one that has settled, by its position. *)
Inductive Call : Type := InFlight (k : nat) | Over (k : nat).

Definition report (s : System) (c : Call) (j : nat) : System :=
  match c with
  | InFlight k =>
      {| inst := inst s; fs := fs s; history := history s;
         active := alter (report_frame j) k (active s); settled := settled s |}
  | Over k =>
      {| inst := inst s; fs := fs s; history := history s; active := active s;
         settled := alter (fun c => (report_frame j <$> c.1, c.2)) k (settled s) |}
  end.

(** [cancel()] *)
Definition cancel (s : System) : System :=
  {| inst := {| isProcessing := isProcessing (inst s); shouldCancel := true |};
     fs := fs s; history := history s; active := active s; settled := settled s |}.

Definition isCurrentlyProcessing (s : System) : bool := isProcessing (inst s).

Inductive Action : Type :=
| ProcessFiles (fileList : list BatchFileInfo) (opts : BatchOptions)
| Resolve (k : nat)
| Cancel
| Report (c : Call) (j : nat).

Definition step (s : System) (a : Action) : System :=
  match a with
  | ProcessFiles fileList opts => call s fileList opts
  | Resolve k => resolve s k
  | Cancel => cancel s
  | Report c j => report s c j
  end.

(** One call run to its end: while file [j] is awaited, [cancel()] is
    called if [cancels j] says so. *)
Definition schedule (cancels : nat -> bool) (K : nat) : list Action :=
  flat_map (fun j => (if cancels j then [Cancel] else []) ++ [Resolve 0]) (seq 0 K).

Definition run_batch (s : System) (fileList : list BatchFileInfo)
    (opts : BatchOptions) (cancels : nat -> bool) : System :=
  foldl step (call s fileList opts) (schedule cancels (length fileList)).

(** Whether [processingleFile] rejects, file by file, in a run over a list. *)
Fixpoint outcomes (fs : gmap string node) (opts : BatchOptions)
    (fileList : list BatchFileInfo) : list (option string) :=
  match fileList with
  | [] => []
  | file :: rest =>
      let run := processingleFile file opts fs in
      failure run :: outcomes (after run) opts rest
  end.

Definition failures (l : list (option string)) : nat :=
  length (List.filter (fun o => match o with Some _ => true | None => false end) l).

(** A call is in flight exactly while the flag is set, and then alone. *)
Definition Exclusive (s : System) : Prop :=
  (isProcessing (inst s) = true /\ length (active s) = 1%nat) \/
  (isProcessing (inst s) = false /\ active s = []).

(** A call between two files, or after its end: the late reports it can
    still receive are about files that have been counted. *)
Definition FrameInv (f : Frame) : Prop :=
  total (progress f) = length (files f) /\
  i f = (completed (progress f) + length (errors (progress f)))%nat /\
  Forall tick_ok (emitted f) /\
  (forall j l, pending f !! j = Some l ->
     (j < i f)%nat /\ (j <= fileIndex (progress f))%nat).

(** A call in flight, waiting for its current file. *)
Definition Awaiting (f : Frame) : Prop :=
  FrameInv f /\ fileIndex (progress f) = i f.

Definition Ticks_ok (s : System) : Prop :=
  Forall Awaiting (active s) /\
  Forall (fun c => match c.1 with
                   | Some f => FrameInv f
                   | None => True
                   end) (settled s).

End Runner.
End Batch.

(** * Histories of the worker pool *)

Module PoolHistory.

(** The ids of the tasks handed to [queueTask], in the order of the calls. *)
Definition queued_ids (history : list Pool.Event) : list string :=
  flat_map (fun ev => match ev with
                      | Pool.QueueTask task => [Pool.id task]
                      | _ => []
                      end) history.

(** No [cancelTask] and no [cancelAllTasks] in the history. *)
Definition no_cancel (history : list Pool.Event) : bool :=
  forallb (fun ev => match ev with
                     | Pool.CancelTask _ | Pool.CancelAllTasks => false
                     | _ => true
                     end) history.

(** The tasks started so far, then the tasks still waiting. *)
Definition order (m : Pool.Manager) : list string :=
  Pool.spawned m ++ map Pool.id (Pool.activeTasksQueue m).

End PoolHistory.

(** * Reports of the batch runner *)

Module BatchReport.

(** [`Failed to ${options.operation} ${file.name}: ${error.message}`] *)
Definition error_message (opts : Batch.BatchOptions) (file : Batch.BatchFileInfo)
    (message : string) : string :=
  String.append "Failed to "
    (String.append (Batch.operation_name (Batch.operation opts))
       (String.append " "
          (String.append (Batch.name file) (String.append ": " message)))).

(** The error messages for a list of files and their outcomes, in order. *)
Fixpoint error_messages (opts : Batch.BatchOptions)
    (fileList : list Batch.BatchFileInfo) (results : list (option string))
  : list string :=
  match fileList, results with
  | file :: fileList', Some message :: results' =>
      error_message opts file message :: error_messages opts fileList' results'
  | _ :: fileList', None :: results' => error_messages opts fileList' results'
  | _, _ => []
  end.

Definition successes (results : list (option string)) : nat :=
  length (List.filter (fun o => match o with Some _ => false | None => true end) results).

(** How many of [n] files, from index [start] on, the loop tries when
    [cancel()] is called during the files that [cancels] marks: the loop
    stops at its next test after the first such file. *)
Fixpoint tried (cancels : nat -> bool) (start n : nat) : nat :=
  match n with
  | O => O
  | S n' => if cancels start then 1%nat else S (tried cancels (S start) n')
  end.

End BatchReport.

(** * The cipher engine as the batch runner calls it *)

Module BatchEngine.
Section Adapter.

Variable pbkdf2Sync : string -> list Z -> Z -> Z -> list Z.
Variable keystream : list Z -> list Z -> nat -> Z.
Variable ghash : list Z -> list Z -> list Z -> nat -> Z.
Variable write_after_end_lands : bool.
Variable flushed : nat.
(** The bytes [crypto.randomBytes] draws in the call for an input path. *)
Variable rng : string -> nat -> Z.
(** How many progress reports arrive before the promise of a call settles,
    where the code leaves their order to the scheduler. *)
Variable arrived : nat.
(** [error.message] *)
Variable message : error -> string.

Definition outcome {A : Type} (r : result A) : option string :=
  match r with
  | Ok _ => None
  | Err e => Some (message e)
  end.

(** [encryptFile] reports from the source of its pipeline and is silent
    once its promise has settled; the pipeline waits for that source unless
    it is torn down because the output cannot be opened.  [decryptFile]
    reports from a stream of its own that nothing waits for. *)
Definition engine (op : Batch.Operation) (inputPath outputPath password : string)
    (fs : gmap string node) : Batch.Run :=
  match op with
  | Batch.encrypt =>
      let run := Engine.encryptFile pbkdf2Sync keystream ghash write_after_end_lands
                   fs inputPath outputPath password (rng inputPath) in
      {| Batch.reports := Engine.encryptFile_reports fs inputPath outputPath arrived;
         Batch.piped :=
           match Fs.open_w fs outputPath with Ok _ => true | Err _ => false end;
         Batch.stalled :=
           Engine.encryptFile_stalled pbkdf2Sync keystream fs inputPath outputPath
             password (rng inputPath);
         Batch.after := run.1;
         Batch.failure := outcome run.2;
         Batch.late := [] |}
  | Batch.decrypt =>
      let run := Engine.decryptFile pbkdf2Sync keystream ghash flushed
                   fs inputPath outputPath password in
      let ticks := Engine.decryptFile_progress fs inputPath arrived in
      {| Batch.reports := ticks.1;
         Batch.piped := false;
         Batch.stalled := fun _ => run.1;
         Batch.after := run.1;
         Batch.failure := outcome run.2;
         Batch.late := ticks.2 |}
  end.

End Adapter.
End BatchEngine.

(** * Files of the checkpoint store *)

Module ResumeFiles.

(** [path.join(this.tempDir, `${operationId}.temp`)] *)
Definition temp_of (tempDir operationId : string) : string :=
  Resume.path_join tempDir (String.append operationId ".temp").

(** What [fs.copyFileSync(p, _)] accepts as its source when [p] exists: a
    readable regular file. *)
Definition copyable (fs : gmap string node) (p : string) : bool :=
  match fs !! p with
  | None | Some (File _ true) => true
  | Some (File _ false) | Some (Dir _) => false
  end.

End ResumeFiles.

(** * Suggested output names (crypto.ts) *)

Module Names.

(** [s.endsWith(suffix)] *)
Definition endsWith (s suffix : string) : bool :=
  let n := String.length s in
  let m := String.length suffix in
  (m <=? n)%nat && String.eqb (substring (n - m) m s) suffix.

(** [s.slice(0, -k)] for [k > 0] *)
Definition slice_end (s : string) (k : nat) : string :=
  substring 0 (String.length s - k) s.

Section Path.

(** [path.basename] and the [name] and [ext] fields of [path.parse]. *)
Variable basename : string -> string.
Variable parse_name : string -> string.
Variable parse_ext : string -> string.

Definition suggestOutputFilename (inputPath : string) (operation : Batch.Operation)
  : string :=
  let fileName := basename inputPath in
  match operation with
  | Batch.encrypt => String.append fileName ".enc"
  | Batch.decrypt =>
      if endsWith fileName ".enc" then slice_end fileName 4
      else String.append (parse_name fileName)
             (String.append "_decrypted" (parse_ext fileName))
  end.

End Path.
End Names.

(** * Secure buffers (secureMemory.ts) *)

Module Secure.

(** A [Buffer] is a view on a block of memory; [Buffer.prototype.slice]
    returns a view on the same block, not a copy. *)
Record Buffer : Type := { block : nat; byteOffset : nat; byteLength : nat }.

Record SecureBuffer : Type := { buffer : Buffer; isCleared : bool }.

(** The memory blocks, the [SecureBuffer] objects, the [SecureString]
    objects (each holds a reference to its [secureBuffer]) and the number
    of bytes drawn from the random source so far. *)
Record Heap : Type := {
  memory : gmap nat (list Z);
  buffers : gmap nat SecureBuffer;
  strings : gmap nat nat;
  drawn : nat
}.

Definition empty_heap : Heap :=
  {| memory := ∅; buffers := ∅; strings := ∅; drawn := 0 |}.

(** The bytes seen through a view. *)
Definition bytes (h : Heap) (b : Buffer) : list Z :=
  take (byteLength b) (drop (byteOffset b) (default [] (memory h !! block b))).

(** [data.copy(b, pos)]: the bytes of [data] that fit into the view are
    written from position [pos] of the view on. *)
Definition poke (h : Heap) (b : Buffer) (pos : nat) (data : list Z) : Heap :=
  match memory h !! block b with
  | None => h
  | Some c =>
      let d := take (byteLength b - pos) data in
      let p := (byteOffset b + pos)%nat in
      {| memory := <[block b := take p c ++ d ++ drop (p + length d) c]> (memory h);
         buffers := buffers h; strings := strings h; drawn := drawn h |}
  end.

(** [b.fill(v)] *)
Definition fill (h : Heap) (b : Buffer) (v : Z) : Heap :=
  poke h b 0 (replicate (byteLength b) v).

(** The index arithmetic of [Buffer.prototype.slice]. *)
Definition adjustOffset (offset length : Z) : Z :=
  if offset =? 0 then 0
  else if offset <? 0 then Z.max (offset + length) 0
  else Z.min offset length.

Definition Buffer_slice (b : Buffer) (start : Z) (end_ : option Z) : Buffer :=
  let srcLength := Z.of_nat (byteLength b) in
  let s := adjustOffset start srcLength in
  let e := match end_ with
           | Some e => adjustOffset e srcLength
           | None => srcLength
           end in
  let newLength := if s <? e then e - s else 0 in
  {| block := block b; byteOffset := byteOffset b + Z.to_nat s;
     byteLength := Z.to_nat newLength |}.

Definition set_cleared (h : Heap) (this : nat) (sb : SecureBuffer) : Heap :=
  {| memory := memory h;
     buffers := <[this := {| buffer := buffer sb; isCleared := true |}]> (buffers h);
     strings := strings h; drawn := drawn h |}.

Section Sources.

(** The random source behind [crypto.randomFillSync]. *)
Variable rng : nat -> Z.
(** [Buffer.from(s, 'utf8')] and [buf.toString('utf8')]. *)
Variable encode : string -> list Z.
Variable decode : list Z -> string.

(** [crypto.randomFillSync(b)] *)
Definition randomFillSync (h : Heap) (b : Buffer) : Heap :=
  let h' := poke h b 0 (randomBytes rng (drawn h) (byteLength b)) in
  {| memory := memory h'; buffers := buffers h'; strings := strings h';
     drawn := drawn h + byteLength b |}.

(** ** SecureBuffer *)

(** [new SecureBuffer(size)]: [Buffer.allocUnsafe] refuses a negative
    size; the new block is filled from the random source. *)
Definition SecureBuffer_new (h : Heap) (size : Z) : result (Heap * nat) :=
  if size <? 0 then Err ERR_OUT_OF_RANGE
  else
    let n := Z.to_nat size in
    let blk := fresh (dom (memory h)) in
    let this := fresh (dom (buffers h)) in
    let b := {| block := blk; byteOffset := 0; byteLength := n |} in
    let h1 := {| memory := <[blk := replicate n 0]> (memory h);
                 buffers := <[this := {| buffer := b; isCleared := false |}]> (buffers h);
                 strings := strings h; drawn := drawn h |} in
    Ok (randomFillSync h1 b, this).

(** [write(data, offset)] for a [Buffer] argument, given by its bytes. *)
Definition write (h : Heap) (this : nat) (data : list Z) (offset : Z)
  : result (Heap * Z) :=
  match buffers h !! this with
  | None => Err ERR_INVALID_ARG
  | Some sb =>
      if isCleared sb then Err (JsError "Cannot write to cleared SecureBuffer")
      else if Z.of_nat (byteLength (buffer sb)) <? offset + Z.of_nat (length data)
      then Err (JsError "Data exceeds buffer capacity")
      (* dataBuffer.copy(this.buffer, offset): a negative targetStart is refused *)
      else if offset <? 0 then Err ERR_OUT_OF_RANGE
      else Ok (poke h (buffer sb) (Z.to_nat offset) data, Z.of_nat (length data))
  end.

(** [read(start, end)]: a view on the buffer's own memory. *)
Definition read (h : Heap) (this : nat) (start : Z) (end_ : option Z)
  : result Buffer :=
  match buffers h !! this with
  | None => Err ERR_INVALID_ARG
  | Some sb =>
      if isCleared sb then Err (JsError "Cannot read from cleared SecureBuffer")
      else Ok (Buffer_slice (buffer sb) start end_)
  end.

(** The getters [length] and [cleared]. *)
Definition get_length (h : Heap) (this : nat) : Z :=
  match buffers h !! this with
  | Some sb => Z.of_nat (byteLength (buffer sb))
  | None => 0
  end.

Definition get_cleared (h : Heap) (this : nat) : bool :=
  match buffers h !! this with
  | Some sb => isCleared sb
  | None => false
  end.

Definition clear (h : Heap) (this : nat) : Heap :=
  match buffers h !! this with
  | None => h
  | Some sb =>
      if isCleared sb then h
      else
        let b := buffer sb in
        let h1 := fill h b 0 in
        let h2 := fill h1 b 255 in
        let h3 := randomFillSync h2 b in
        let h4 := fill h3 b 0 in
        set_cleared h4 this sb
  end.

Definition toString (h : Heap) (this : nat) : result string :=
  match buffers h !! this with
  | None => Err ERR_INVALID_ARG
  | Some sb =>
      if isCleared sb
      then Err (JsError "Cannot convert cleared SecureBuffer to string")
      else Ok (decode (bytes h (buffer sb)))
  end.

(** [crypto.timingSafeEqual] on buffers of equal length is equality of
    their bytes. *)
Definition equals (h : Heap) (this other : nat) : bool :=
  match buffers h !! this, buffers h !! other with
  | Some a, Some b =>
      if isCleared a || isCleared b then false
      else if negb (byteLength (buffer a) =? byteLength (buffer b))%nat then false
      else bool_decide (bytes h (buffer a) = bytes h (buffer b))
  | _, _ => false
  end.

(** [slice(start, end)]: [sliced] is a view on this buffer's memory; its
    bytes are copied into a new secure buffer, then [sliced.fill(0)]. *)
Definition slice (h : Heap) (this : nat) (start : Z) (end_ : option Z)
  : result (Heap * nat) :=
  match buffers h !! this with
  | None => Err ERR_INVALID_ARG
  | Some sb =>
      if isCleared sb then Err (JsError "Cannot slice cleared SecureBuffer")
      else
        let sliced := Buffer_slice (buffer sb) start end_ in
        match SecureBuffer_new h (Z.of_nat (byteLength sliced)) with
        | Err e => Err e
        | Ok (h1, secureSlice) =>
            match buffers h1 !! secureSlice with
            | None => Err ERR_INVALID_ARG
            | Some fresh_sb =>
                (* sliced.copy(secureSlice.buffer) *)
                let h2 := poke h1 (buffer fresh_sb) 0 (bytes h1 sliced) in
                (* sliced.fill(0) *)
                Ok (fill h2 sliced 0, secureSlice)
            end
        end
  end.

(** ** SecureString *)

Definition SecureString_new (h : Heap) (value : string) : result (Heap * nat) :=
  let data := encode value in
  match SecureBuffer_new h (Z.of_nat (length data)) with
  | Err e => Err e
  | Ok (h1, secureBuffer) =>
      match write h1 secureBuffer data 0 with
      | Err e => Err e
      | Ok (h2, _) =>
          let this := fresh (dom (strings h2)) in
          Ok ({| memory := memory h2; buffers := buffers h2;
                 strings := <[this := secureBuffer]> (strings h2);
                 drawn := drawn h2 |}, this)
      end
  end.

Definition getValue (h : Heap) (this : nat) : result string :=
  match strings h !! this with
  | None => Err ERR_INVALID_ARG
  | Some secureBuffer => toString h secureBuffer
  end.

Definition string_cleared (h : Heap) (this : nat) : bool :=
  match strings h !! this with
  | None => false
  | Some secureBuffer => get_cleared h secureBuffer
  end.

Definition string_clear (h : Heap) (this : nat) : Heap :=
  match strings h !! this with
  | None => h
  | Some secureBuffer => clear h secureBuffer
  end.

(** [equals(other)] for a plain string: a temporary secure string is made,
    compared and cleared. *)
Definition string_equals (h : Heap) (this : nat) (other : string)
  : result (Heap * bool) :=
  match SecureString_new h other with
  | Err e => Err e
  | Ok (h1, tempSecure) =>
      match strings h1 !! this, strings h1 !! tempSecure with
      | Some a, Some b => Ok (string_clear h1 tempSecure, equals h1 a b)
      | _, _ => Err ERR_INVALID_ARG
      end
  end.

(** [clone()]: a new empty secure string whose buffer is cleared and then
    replaced by [this.secureBuffer.slice()]. *)
Definition clone (h : Heap) (this : nat) : result (Heap * nat) :=
  if string_cleared h this then Err (JsError "Cannot clone cleared SecureString")
  else
    match SecureString_new h "" with
    | Err e => Err e
    | Ok (h1, copy) =>
        let h2 := string_clear h1 copy in
        match strings h2 !! this with
        | None => Err ERR_INVALID_ARG
        | Some secureBuffer =>
            match slice h2 secureBuffer 0 None with
            | Err e => Err e
            | Ok (h3, sliced) =>
                Ok ({| memory := memory h3; buffers := buffers h3;
                       strings := <[copy := sliced]> (strings h3);
                       drawn := drawn h3 |}, copy)
            end
        end
    end.

(** ** SecureMemoryManager *)

(** The two sets, in insertion order. *)
Record Manager : Type := {
  tracked_buffers : list nat;
  tracked_strings : list nat;
  isDestroyed : bool
}.

Definition new_manager : Manager :=
  {| tracked_buffers := []; tracked_strings := []; isDestroyed := false |}.

(** [Set.prototype.add] and [Set.prototype.delete] *)
Definition set_add (x : nat) (s : list nat) : list nat :=
  if bool_decide (x ∈ s) then s else s ++ [x].
Definition set_delete (x : nat) (s : list nat) : list nat :=
  List.filter (fun y => negb (Nat.eqb y x)) s.

Definition destroyed_error : error :=
  JsError "SecureMemoryManager has been destroyed".

Definition createBuffer (m : Manager) (h : Heap) (size : Z)
  : result (Manager * Heap * nat) :=
  if isDestroyed m then Err destroyed_error
  else
    match SecureBuffer_new h size with
    | Err e => Err e
    | Ok (h1, b) =>
        Ok ({| tracked_buffers := set_add b (tracked_buffers m);
               tracked_strings := tracked_strings m;
               isDestroyed := isDestroyed m |}, h1, b)
    end.

Definition createString (m : Manager) (h : Heap) (value : string)
  : result (Manager * Heap * nat) :=
  if isDestroyed m then Err destroyed_error
  else
    match SecureString_new h value with
    | Err e => Err e
    | Ok (h1, s) =>
        Ok ({| tracked_buffers := tracked_buffers m;
               tracked_strings := set_add s (tracked_strings m);
               isDestroyed := isDestroyed m |}, h1, s)
    end.

Definition releaseBuffer (m : Manager) (h : Heap) (b : nat) : Manager * Heap :=
  ({| tracked_buffers := set_delete b (tracked_buffers m);
      tracked_strings := tracked_strings m;
      isDestroyed := isDestroyed m |}, clear h b).

Definition releaseString (m : Manager) (h : Heap) (s : nat) : Manager * Heap :=
  ({| tracked_buffers := tracked_buffers m;
      tracked_strings := set_delete s (tracked_strings m);
      isDestroyed := isDestroyed m |}, string_clear h s).

Definition clearAll (m : Manager) (h : Heap) : Manager * Heap :=
  let h1 := foldl clear h (tracked_buffers m) in
  let h2 := foldl string_clear h1 (tracked_strings m) in
  ({| tracked_buffers := []; tracked_strings := [];
      isDestroyed := isDestroyed m |}, h2).

Definition destroy (m : Manager) (h : Heap) : Manager * Heap :=
  if isDestroyed m then (m, h)
  else
    let '(m1, h1) := clearAll m h in
    ({| tracked_buffers := tracked_buffers m1;
        tracked_strings := tracked_strings m1;
        isDestroyed := true |}, h1).

End Sources.

(** A secure buffer as its constructor leaves it: the view covers the
    whole of a block of its own. *)
Definition owns (h : Heap) (sb : SecureBuffer) : bool :=
  (byteOffset (buffer sb) =? 0)%nat
  && match memory h !! block (buffer sb) with
     | Some c => (length c =? byteLength (buffer sb))%nat
     | None => false
     end.

(** The state of a secure buffer object between two method calls: it owns
    its block, and once it is marked as cleared its bytes are zero. *)
Definition sound (h : Heap) (this : nat) : bool :=
  match buffers h !! this with
  | None => false
  | Some sb =>
      owns h sb
      && (negb (isCleared sb)
          || bool_decide (bytes h (buffer sb)
                          = replicate (byteLength (buffer sb)) 0))
  end.

Definition sound_string (h : Heap) (this : nat) : bool :=
  match strings h !! this with
  | None => false
  | Some secureBuffer => sound h secureBuffer
  end.

(** The invariant of the heap: every secure buffer is sound, no two of
    them share a block, and every secure string refers to a secure
    buffer. *)
Definition all_sound (h : Heap) : Prop :=
  (forall b sb, buffers h !! b = Some sb -> sound h b = true) /\
  (forall b1 b2 sb1 sb2,
     buffers h !! b1 = Some sb1 -> buffers h !! b2 = Some sb2 ->
     block (buffer sb1) = block (buffer sb2) -> b1 = b2) /\
  (forall s r, strings h !! s = Some r -> is_Some (buffers h !! r)).

End Secure.

(** * A small concrete cipher, to run the code on examples *)

Module Toy.

Definition pbkdf2Sync (password : string) (salt : list Z) (iters keylen : Z) : list Z :=
  map (fun i => (Z.of_nat (String.length password) + nth i salt 0 + Z.of_nat i) mod 256)
      (seq 0 (Z.to_nat keylen)).

Definition keystream (key iv : list Z) (i : nat) : Z :=
  (nth (i mod 32) key 0 + nth (i mod 16) iv 0 + 7 * Z.of_nat i) mod 256.

Definition ghash (key iv ct : list Z) (j : nat) : Z :=
  (nth j key 0 + nth j iv 0 + fold_right Z.add 0 ct + Z.of_nat (length ct)) mod 256.

Definition rng (i : nat) : Z := (Z.of_nat i * 37 + 11) mod 256.

Definition sha256hex (s : string) : string := String.append "h:" s.

(** The clock of the periodic checkpoints, and the bytes in the output file
    when one is saved. *)
Definition clock (processed : Z) : Z := processed.
Definition written_at (processed : Z) : nat := 48.

(** Example file systems: an empty input file, and a one-byte input file. *)
Definition empty_fs : gmap string node := {[ "plain"%string := File [] true ]}.
Definition one_byte_fs : gmap string node := {[ "plain"%string := File [7] true ]}.

Definition encryptFile (late : bool) :=
  Engine.encryptFile pbkdf2Sync keystream ghash late.
(** Nothing has reached the file when a pipeline is destroyed. *)
Definition flushed : nat := 0.
Definition decryptFile := Engine.decryptFile pbkdf2Sync keystream ghash flushed.
Definition envelope (late : bool) := Engine.envelope pbkdf2Sync keystream ghash late.

(** A checkpoint of an encryption interrupted after one byte of a two-byte
    input, with the partial output it left behind. *)
Definition two_bytes : list Z := [1; 2].
Definition salt0 : list Z := randomBytes rng 0 32.
Definition iv0 : list Z := randomBytes rng 32 16.
Definition key0 : list Z := pbkdf2Sync "pw" salt0 100000 32.

Definition interrupted_cp : Resume.OperationCheckpoint :=
  {| Resume.id := "op1"; Resume.operation := Resume.encrypt;
     Resume.inputPath := "plain"; Resume.outputPath := "plain.enc";
     Resume.password := sha256hex "pw"; Resume.progress := 1 # 2;
     Resume.bytesProcessed := 1; Resume.totalBytes := 2;
     Resume.chunkSize := Resume.checkpointInterval; Resume.timestamp := 0;
     Resume.algorithm := "aes-256-gcm";
     Resume.salt := Some salt0; Resume.iv := Some iv0;
     Resume.tempDataPath := Some "temp/op1.temp"%string |}.

Definition interrupted_fs : gmap string node :=
  {[ "plain"%string := File two_bytes true;
     "plain.enc"%string :=
       File (salt0 ++ iv0 ++ take 1 (Engine.update keystream key0 iv0 two_bytes)) true ]}.

(** The same checkpoint eight days later, its temp copy gone. *)
Definition stale_store : gmap string (option Resume.OperationCheckpoint) :=
  {[ "op1"%string := Some interrupted_cp ]}.
Definition eight_days : Z := 8 * 24 * 60 * 60 * 1000.

(** Three tasks for a pool of two workers; the first worker then exits. *)
Definition task (name : string) : Pool.WorkerTask :=
  {| Pool.id := name; Pool.type := Pool.encrypt;
     Pool.inputPath := name; Pool.outputPath := String.append name ".enc";
     Pool.password := "pw" |}.

Definition pool_history : list Pool.Event :=
  [ Pool.QueueTask (task "a"); Pool.QueueTask (task "b");
    Pool.QueueTask (task "c"); Pool.WorkerExit 0 0 false ].

(** A batch of two files: the engine rejects the first and reports the
    second half done, then done. *)
Definition batch_file (name : string) : Batch.BatchFileInfo :=
  {| Batch.inputPath := name; Batch.outputPath := String.append name ".enc";
     Batch.name := name; Batch.size := 1 |}.

Definition batch_engine (op : Batch.Operation) (inp out pw : string)
    (fs : gmap string node) : Batch.Run :=
  if Fs.existsSync fs inp
  then {| Batch.reports := [1 # 2; 1]%Q; Batch.piped := true;
          Batch.stalled := fun _ => <[out := File [] true]> fs;
          Batch.after := <[out := File [] true]> fs;
          Batch.failure := None; Batch.late := [] |}
  else {| Batch.reports := []; Batch.piped := true;
          Batch.stalled := fun _ => fs; Batch.after := fs;
          Batch.failure := Some "ENOENT: no such file or directory"%string;
          Batch.late := [] |}.

Definition batch_dirname (p : string) : string := "."%string.
Definition batch_sink (p : Batch.BatchProgress) : option string := None.
Definition batch_fs : gmap string node :=
  {[ "."%string := Dir 4096; "good"%string := File [7] true ]}.
Definition batch_options : Batch.BatchOptions :=
  {| Batch.operation := Batch.encrypt; Batch.password := "pw";
     Batch.outputDirectory := None; Batch.preserveStructure := false;
     Batch.overwriteExisting := false |}.
Definition batch_files : list Batch.BatchFileInfo :=
  [batch_file "missing"; batch_file "good"].

Definition batch_actions : list Batch.Action :=
  [ Batch.ProcessFiles batch_files batch_options; Batch.Resolve 0; Batch.Resolve 0 ].

(** A call of two files that waits for its first file. *)
Definition batch_awaiting : Batch.System :=
  Batch.call batch_sink (Batch.fresh batch_fs)
    [batch_file "good"; batch_file "missing"] batch_options.

Definition batch_run : Batch.System :=
  Batch.run_batch batch_engine batch_dirname batch_sink
    (Batch.fresh batch_fs) batch_files batch_options (fun _ => false).

End Toy.

(** * More concrete stores and files *)

Module Samples.

(** The interrupted encryption of [Toy], with its temp copy in place. *)
Definition resumable_fs : gmap string node :=
  <["temp/op1.temp"%string := File (Toy.salt0 ++ Toy.iv0) true]> Toy.interrupted_fs.

(** An encryption interrupted after the header was written. *)
Definition header_cp : Resume.OperationCheckpoint :=
  {| Resume.id := "op2"; Resume.operation := Resume.encrypt;
     Resume.inputPath := "plain"; Resume.outputPath := "plain.enc";
     Resume.password := Toy.sha256hex "pw"; Resume.progress := 0;
     Resume.bytesProcessed := 0; Resume.totalBytes := 2;
     Resume.chunkSize := Resume.checkpointInterval; Resume.timestamp := 0;
     Resume.algorithm := "aes-256-gcm";
     Resume.salt := Some Toy.salt0; Resume.iv := Some Toy.iv0;
     Resume.tempDataPath := None |}.

Definition header_fs : gmap string node :=
  {[ "plain"%string := File Toy.two_bytes true;
     "plain.enc"%string := File (Toy.salt0 ++ Toy.iv0) true ]}.

(** An encrypted file with a two-byte body, and a decryption of it that
    was interrupted after [n] bytes. *)
Definition body : list Z := [5; 6].
Definition stored_tag : list Z := replicate 16 0.

Definition decrypt_cp (n : Z) : Resume.OperationCheckpoint :=
  {| Resume.id := "op3"; Resume.operation := Resume.decrypt;
     Resume.inputPath := "data.enc"; Resume.outputPath := "data";
     Resume.password := Toy.sha256hex "pw"; Resume.progress := 0;
     Resume.bytesProcessed := n; Resume.totalBytes := 66;
     Resume.chunkSize := Resume.checkpointInterval; Resume.timestamp := 0;
     Resume.algorithm := "aes-256-gcm";
     Resume.salt := Some Toy.salt0; Resume.iv := Some Toy.iv0;
     Resume.tempDataPath := None |}.

Definition encrypted_fs : gmap string node :=
  {[ "data.enc"%string := File (Toy.salt0 ++ Toy.iv0 ++ body ++ stored_tag) true ]}.

(** The same file with the tag of its body under the key of password
    'pw'. *)
Definition sealed_tag : list Z := Engine.getAuthTag Toy.ghash Toy.key0 Toy.iv0 body.
Definition sealed_fs : gmap string node :=
  {[ "data.enc"%string := File (Toy.salt0 ++ Toy.iv0 ++ body ++ sealed_tag) true ]}.

Definition half_decrypted_fs : gmap string node :=
  <["data"%string := File [9] true]> encrypted_fs.

(** A batch that decrypts a 20-byte file, which [decryptFile] refuses, and
    then the sealed file: the engine of [crypto.ts] under the toy cipher,
    with one report of a call arriving before its promise settles.  The
    report of the first file arrives while the second file is awaited. *)
Definition message (e : error) : string :=
  match e with
  | ERR_OUT_OF_RANGE => "The value of start is out of range"
  | ERR_CRYPTO_AUTH => "Unsupported state or unable to authenticate data"
  | JsError msg => msg
  | _ => "error"
  end.

Definition decrypt_engine :=
  BatchEngine.engine Toy.pbkdf2Sync Toy.keystream Toy.ghash true Toy.flushed
    (fun _ => Toy.rng) 1 message.

Definition decrypt_fs : gmap string node :=
  {[ "."%string := Dir 4096;
     "short.enc"%string := File (replicate 20 7) true;
     "data.enc"%string := File (Toy.salt0 ++ Toy.iv0 ++ body ++ sealed_tag) true ]}.

Definition decrypt_files : list Batch.BatchFileInfo :=
  [ {| Batch.inputPath := "short.enc"; Batch.outputPath := "short";
       Batch.name := "short.enc"; Batch.size := 20 |};
    {| Batch.inputPath := "data.enc"; Batch.outputPath := "data";
       Batch.name := "data.enc"; Batch.size := 66 |} ].

Definition decrypt_options : Batch.BatchOptions :=
  {| Batch.operation := Batch.decrypt; Batch.password := "pw";
     Batch.outputDirectory := None; Batch.preserveStructure := false;
     Batch.overwriteExisting := false |}.

Definition decrypt_actions : list Batch.Action :=
  [ Batch.ProcessFiles decrypt_files decrypt_options;
    Batch.Resolve 0;
    Batch.Report (Batch.InFlight 0) 0;
    Batch.Resolve 0 ].

Definition decrypt_run : Batch.System :=
  foldl (Batch.step decrypt_engine Toy.batch_dirname Toy.batch_sink)
    (Batch.fresh decrypt_fs) decrypt_actions.

(** A heap holding one secure string, as [new SecureString('key')]
    leaves it, and a manager that tracks that string. *)
Definition utf8 (s : string) : list Z :=
  map (fun a => Z.of_nat (Ascii.nat_of_ascii a)) (list_ascii_of_string s).
Definition from_utf8 (l : list Z) : string :=
  string_of_list_ascii (map (fun b => Ascii.ascii_of_nat (Z.to_nat b)) l).

Definition key_heap : Secure.Heap :=
  match Secure.SecureString_new Toy.rng utf8 Secure.empty_heap "key" with
  | Ok (h, _) => h
  | Err _ => Secure.empty_heap
  end.

Definition key_buffer : Secure.SecureBuffer :=
  {| Secure.buffer := {| Secure.block := 0; Secure.byteOffset := 0;
                         Secure.byteLength := 3 |};
     Secure.isCleared := false |}.

Definition key_manager : Secure.Manager :=
  {| Secure.tracked_buffers := []; Secure.tracked_strings := [0%nat];
     Secure.isDestroyed := false |}.

End Samples.

(** * Facts about the cipher engine *)

Module EngineFacts.

Lemma length_randomBytes rng off n : length (randomBytes rng off n) = n.
Proof. unfold randomBytes. now rewrite length_map, length_seq. Qed.

Lemma slice_app (a b c : list Z) :
  take (length b) (drop (length a) (a ++ b ++ c)) = b.
Proof. now rewrite drop_app_length, take_app_length. Qed.

Lemma readSync_slice (a b c : list Z) (r : bool) (n : nat) (pos : Z) :
  n = length b -> pos = Z.of_nat (length a) ->
  Fs.readSync (File (a ++ b ++ c) r) n pos = Ok b.
Proof.
  intros -> ->. unfold Fs.readSync.
  destruct (Z.ltb_spec (Z.of_nat (length a)) 0) as [Hneg|_]; [lia|].
  rewrite Nat2Z.id, drop_app_length, <- app_assoc.
  now rewrite take_app_length.
Qed.

Lemma open_w_not_dir fs p :
  Fs.is_dir fs p = false -> Fs.open_w fs p = Ok (<[p := File [] true]> fs).
Proof.
  unfold Fs.is_dir, Fs.open_w. now destruct (fs !! p) as [[c r|sz]|].
Qed.

Section Cipher.

Variable pbkdf2Sync : string -> list Z -> Z -> Z -> list Z.
Variable keystream : list Z -> list Z -> nat -> Z.
Variable ghash : list Z -> list Z -> list Z -> nat -> Z.
Variable write_after_end_lands : bool.
Variable flushed : nat.

Local Abbreviation update := (Engine.update keystream).
Local Abbreviation getAuthTag := (Engine.getAuthTag ghash).
Local Abbreviation encryptFile :=
  (Engine.encryptFile pbkdf2Sync keystream ghash write_after_end_lands).
Local Abbreviation decryptFile := (Engine.decryptFile pbkdf2Sync keystream ghash flushed).
Local Abbreviation envelope :=
  (Engine.envelope pbkdf2Sync keystream ghash write_after_end_lands).

Lemma length_update key iv data : length (update key iv data) = length data.
Proof. apply length_imap. Qed.

Lemma length_getAuthTag key iv ct : length (getAuthTag key iv ct) = 16%nat.
Proof. unfold Engine.getAuthTag. now rewrite length_map, length_seq. Qed.

(** Counter mode: applying the keystream twice gives the data back. *)
Lemma update_involutive key iv data : update key iv (update key iv data) = data.
Proof.
  apply list_eq; intros i. unfold Engine.update.
  rewrite !list_lookup_imap.
  destruct (data !! i) as [b|]; simpl; [|reflexivity].
  now rewrite Z.lxor_assoc, Z.lxor_nilpotent, Z.lxor_0_r.
Qed.

Lemma encryptFile_writes fs inputPath outputPath password rng data :
  fs !! inputPath = Some (File data true) ->
  Fs.is_dir fs outputPath = false ->
  encryptFile fs inputPath outputPath password rng
  = (<[outputPath := File (envelope password rng data) true]> fs, Ok outputPath).
Proof.
  intros Hin Hout. unfold Engine.encryptFile, Fs.statSync, Fs.read_from, Fs.open_w.
  rewrite Hin.
  fold (Fs.open_w fs outputPath). rewrite (open_w_not_dir _ _ Hout). simpl drop. rewrite insert_insert_eq.
  f_equal. f_equal. f_equal. unfold Engine.envelope, ws_write, ws_end, ws_new. simpl.
  destruct write_after_end_lands; simpl; now rewrite <- ?app_assoc, ?app_nil_r.
Qed.

Lemma length_envelope password rng data :
  length (envelope password rng data)
  = (48 + length data + (if write_after_end_lands then 16 else 0))%nat.
Proof.
  unfold Engine.envelope. rewrite !length_app, !length_randomBytes, length_update.
  destruct write_after_end_lands; [rewrite length_getAuthTag|simpl]; lia.
Qed.

(** Any input shorter than 65 bytes is refused before a byte is decrypted:
    either the tag position or the ciphertext range is out of range. *)
Lemma decryptFile_short fs inputPath outputPath password c :
  fs !! inputPath = Some (File c true) ->
  (length c < 65)%nat ->
  (decryptFile fs inputPath outputPath password).2 = Err ERR_OUT_OF_RANGE.
Proof.
  intros Hin Hlen. unfold Engine.decryptFile, Fs.openSync, Fs.statSync.
  rewrite Hin. unfold Fs.readSync.
  simpl (0 <? 0). simpl (32 <? 0). cbv iota.
  destruct (Z.ltb_spec (Z.of_nat (length c) - 16) 0) as [|Hge]; [reflexivity|].
  assert (Hr : Fs.range_ok 48 (Z.of_nat (length c) - 17) = false).
  { unfold Fs.range_ok. apply andb_false_iff. right. apply Z.leb_gt. lia. }
  now rewrite Hr.
Qed.

(** A well-formed input of at least 65 bytes: the call resolves exactly when
    the tag recomputed over the stored ciphertext equals the stored tag, and
    leaves the decrypted body then; otherwise it leaves what had reached
    the file of it. *)
Lemma decryptFile_long fs inputPath outputPath password salt iv ct tag :
  fs !! inputPath = Some (File (salt ++ iv ++ ct ++ tag) true) ->
  Fs.is_dir fs outputPath = false ->
  length salt = 32%nat -> length iv = 16%nat -> length tag = 16%nat ->
  ct <> [] ->
  let key := pbkdf2Sync password salt 100000 32 in
  decryptFile fs inputPath outputPath password
  = if bool_decide (getAuthTag key iv ct = tag)
    then (<[outputPath := File (update key iv ct) true]> fs, Ok outputPath)
    else (<[outputPath := File (take flushed (update key iv ct)) true]> fs,
          Err ERR_CRYPTO_AUTH).
Proof.
  intros Hin Hout Hs Hi Ht Hne key.
  unfold Engine.decryptFile, Fs.openSync, Fs.statSync. rewrite Hin.
  pose proof (readSync_slice [] salt (iv ++ ct ++ tag) true 32 0) as Hsalt.
  cbn [app] in Hsalt. rewrite Hsalt by (try reflexivity; congruence).
  rewrite (readSync_slice salt iv (ct ++ tag) true 16 32) by (simpl; lia).
  replace (salt ++ iv ++ ct ++ tag) with ((salt ++ iv ++ ct) ++ tag ++ [])
    by now rewrite app_nil_r, <- !app_assoc.
  rewrite (readSync_slice (salt ++ iv ++ ct) tag [] true 16)
    by (rewrite ?length_app; simpl length; lia).
  assert (Hlen : (0 < length ct)%nat) by (destruct ct; simpl; [congruence|lia]).
  assert (Hr : Fs.range_ok 48 (Z.of_nat (length ((salt ++ iv ++ ct) ++ tag ++ [])) - 17) = true).
  { unfold Fs.range_ok. rewrite !length_app, Hs, Hi, Ht. simpl length.
    rewrite !andb_true_iff, !Z.leb_le. lia. }
  rewrite Hr. cbn [negb].
  rewrite (open_w_not_dir _ _ Hout).
  assert (Hct : Fs.read_range ((salt ++ iv ++ ct) ++ tag ++ [])
                  48 (Z.of_nat (length ((salt ++ iv ++ ct) ++ tag ++ [])) - 17) = ct).
  { unfold Fs.read_range. rewrite app_nil_r, <- !app_assoc.
    replace (salt ++ iv ++ ct ++ tag) with ((salt ++ iv) ++ ct ++ tag)
      by now rewrite <- app_assoc.
    replace (Z.to_nat 48) with (length (salt ++ iv)) by (rewrite length_app; lia).
    replace (Z.to_nat _) with (length ct) by (rewrite !length_app; lia).
    apply slice_app. }
  rewrite Hct, !insert_insert_eq. fold key.
  now destruct (bool_decide _).
Qed.

(** With the tag in the file, a non-empty plaintext survives the round trip. *)
Lemma roundtrip_nonempty fs inputPath encPath outPath password rng data :
  write_after_end_lands = true ->
  fs !! inputPath = Some (File data true) ->
  Fs.is_dir fs encPath = false ->
  Fs.is_dir fs outPath = false ->
  encPath <> outPath ->
  data <> [] ->
  let fs1 := (encryptFile fs inputPath encPath password rng).1 in
  decryptFile fs1 encPath outPath password
  = (<[outPath := File data true]> fs1, Ok outPath).
Proof.
  intros Hl Hin Henc Hout Hne Hd fs1. subst fs1.
  rewrite (encryptFile_writes _ _ _ _ _ data) by assumption.
  cbn [fst]. unfold Engine.envelope. rewrite Hl.
  set (salt := randomBytes rng 0 32). set (iv := randomBytes rng 32 16).
  set (key := pbkdf2Sync password salt 100000 32).
  rewrite (decryptFile_long _ encPath outPath password salt iv
             (update key iv data) (getAuthTag key iv (update key iv data))).
  - fold key. rewrite update_involutive, bool_decide_true by reflexivity. reflexivity.
  - apply lookup_insert_eq.
  - unfold Fs.is_dir. rewrite lookup_insert_ne by assumption. apply Hout.
  - apply length_randomBytes.
  - apply length_randomBytes.
  - apply length_getAuthTag.
  - intros E. apply Hd. apply (f_equal length) in E.
    rewrite length_update in E. now destruct data.
Qed.

(** C1 (at the failing input): the encryption of an empty file is a file of
    at most 64 bytes, and [decryptFile] with the same password rejects it
    with a range error instead of producing the empty plaintext: the
    ciphertext range it asks for is [48, size - 17], which is empty-reversed
    for such a file. *)
Theorem roundtrip_empty_file_rejected fs inputPath encPath outPath password rng :
  fs !! inputPath = Some (File [] true) ->
  Fs.is_dir fs encPath = false ->
  let enc := encryptFile fs inputPath encPath password rng in
  enc.2 = Ok encPath /\
  (decryptFile enc.1 encPath outPath password).2 = Err ERR_OUT_OF_RANGE.
Proof.
  intros Hin Henc enc. subst enc.
  rewrite (encryptFile_writes _ _ _ _ _ []) by assumption. cbn [fst snd].
  split; [reflexivity|].
  eapply decryptFile_short; [apply lookup_insert_eq|].
  rewrite length_envelope. destruct write_after_end_lands; simpl; lia.
Qed.

(** C2 (at the failing input): for the encryption of an empty file, a
    different password is answered with the same range error as the right
    one, not with the decipher's authentication failure. *)
Theorem wrong_password_empty_file_range_error
    fs inputPath encPath outPath password password2 rng :
  password2 <> password ->
  fs !! inputPath = Some (File [] true) ->
  Fs.is_dir fs encPath = false ->
  let enc := encryptFile fs inputPath encPath password rng in
  (decryptFile enc.1 encPath outPath password2).2 = Err ERR_OUT_OF_RANGE /\
  (decryptFile enc.1 encPath outPath password2).2 <> Err ERR_CRYPTO_AUTH.
Proof.
  intros _ Hin Henc enc. subst enc.
  rewrite (encryptFile_writes _ _ _ _ _ []) by assumption. cbn [fst].
  assert (H : (decryptFile (<[encPath := File (envelope password rng []) true]> fs)
                 encPath outPath password2).2 = Err ERR_OUT_OF_RANGE).
  { eapply decryptFile_short; [apply lookup_insert_eq|].
    rewrite length_envelope. destruct write_after_end_lands; simpl; lia. }
  rewrite H. split; [reflexivity|discriminate].
Qed.

(** C3 (as amended): the output starts with the 32-byte salt and the
    16-byte IV, with no version, chunk-size or length field; then comes the
    ciphertext of the whole plaintext as one stream of the same length; the
    only tag the code produces is one 16-byte tag over that whole stream,
    sent to the output after the ciphertext, and nothing else follows. *)
Theorem encryptFile_layout fs inputPath outputPath password rng data :
  fs !! inputPath = Some (File data true) ->
  Fs.is_dir fs outputPath = false ->
  let salt := randomBytes rng 0 32 in
  let iv := randomBytes rng 32 16 in
  let key := pbkdf2Sync password salt 100000 32 in
  let ct := update key iv data in
  exists tail,
    (encryptFile fs inputPath outputPath password rng).1 !! outputPath
      = Some (File (salt ++ iv ++ ct ++ tail) true) /\
    length salt = 32%nat /\ length iv = 16%nat /\ length ct = length data /\
    length (getAuthTag key iv ct) = 16%nat /\
    (tail = getAuthTag key iv ct \/ tail = []).
Proof.
  intros Hin Hout salt iv key ct.
  exists (if write_after_end_lands then getAuthTag key iv ct else []).
  rewrite (encryptFile_writes _ _ _ _ _ data) by assumption. cbn [fst].
  rewrite lookup_insert_eq.
  repeat apply conj.
  - reflexivity.
  - apply length_randomBytes.
  - apply length_randomBytes.
  - apply length_update.
  - apply length_getAuthTag.
  - destruct write_after_end_lands; [now left|now right].
Qed.

(** C10: [isFileEncrypted] answers [true] exactly for a readable regular
    file of more than 64 bytes, whatever the bytes are, and [false] whenever
    one of its file-system calls throws. *)
Theorem isFileEncrypted_spec (fs : gmap string node) (filePath : string) :
  (Engine.isFileEncrypted fs filePath = true <->
     exists c, fs !! filePath = Some (File c true) /\ (64 < length c)%nat) /\
  (forall e, Engine.isFileEncrypted_try fs filePath = Err e ->
     Engine.isFileEncrypted fs filePath = false).
Proof.
  split.
  - unfold Engine.isFileEncrypted, Engine.isFileEncrypted_try,
      Fs.openSync, Fs.statSync, Fs.readSync.
    destruct (fs !! filePath) as [[c [|]|sz]|] eqn:E; simpl.
    + rewrite Z.ltb_lt. split.
      * intros H. exists c. split; [reflexivity|lia].
      * intros (c' & [= <-] & H). lia.
    + split; [discriminate|]. intros (c' & [=] & _).
    + split; [discriminate|]. intros (c' & [=] & _).
    + split; [discriminate|]. intros (c' & [=] & _).
  - intros e He. unfold Engine.isFileEncrypted. now rewrite He.
Qed.

End Cipher.

Lemma spec_envelope_length file salt nonce n :
  Engine.spec_envelope file salt nonce n -> (0 < n)%nat ->
  (80 + n <= length file)%nat.
Proof.
  intros (version & chunkSize & totalLen & chunks &
          Hv & Hs & Hn & Hc & Ht & Htags & Hsum & ->) Hpos.
  rewrite !length_app, Hv, Hs, Hn, Hc, Ht.
  destruct chunks as [|[c t] chunks]; [simpl in Hsum; lia|].
  apply Forall_cons in Htags as [Htag Htags]. simpl in Htag.
  assert (Hall : forall l : list (list Z * list Z),
             (length (concat (map fst l))
              <= length (concat (map (fun c => c.1 ++ c.2) l)))%nat).
  { induction l as [|[a b] l IH]; simpl; [lia|]. rewrite !length_app. lia. }
  specialize (Hall chunks).
  simpl in Hsum |- *. rewrite !length_app in *. lia.
Qed.

(** C3 (counterexample): the file written for a one-byte plaintext has 65
    bytes (49 if the late write of the tag is dropped); the layout of the
    claim needs 64 header bytes, the plaintext and 16 tag bytes per chunk. *)
Lemma envelope_layout_counterexample :
  ((Toy.encryptFile true Toy.one_byte_fs "plain" "plain.enc" "pw" Toy.rng).1
     !! "plain.enc"%string = Some (File (Toy.envelope true "pw" Toy.rng [7]) true) /\
   length (Toy.envelope true "pw" Toy.rng [7]) = 65%nat /\
   ~ exists salt nonce,
       Engine.spec_envelope (Toy.envelope true "pw" Toy.rng [7]) salt nonce 1) /\
  ((Toy.encryptFile false Toy.one_byte_fs "plain" "plain.enc" "pw" Toy.rng).1
     !! "plain.enc"%string = Some (File (Toy.envelope false "pw" Toy.rng [7]) true) /\
   length (Toy.envelope false "pw" Toy.rng [7]) = 49%nat /\
   ~ exists salt nonce,
       Engine.spec_envelope (Toy.envelope false "pw" Toy.rng [7]) salt nonce 1).
Proof.
  split; (split; [vm_compute; reflexivity|]); (split; [reflexivity|]);
    intros (salt & nonce & Hspec);
    apply spec_envelope_length in Hspec; try lia;
    vm_compute in Hspec; lia.
Qed.

Lemma roundtrip_empty_file_rejected_witness :
  let enc := Toy.encryptFile true Toy.empty_fs "plain" "plain.enc" "pw" Toy.rng in
  Toy.empty_fs !! "plain"%string = Some (File [] true) /\
  Fs.is_dir Toy.empty_fs "plain.enc" = false /\
  enc.2 = Ok "plain.enc"%string /\
  (Toy.decryptFile enc.1 "plain.enc" "out" "pw").2 = Err ERR_OUT_OF_RANGE.
Proof.
  split; [reflexivity|]. split; [reflexivity|].
  apply (roundtrip_empty_file_rejected Toy.pbkdf2Sync Toy.keystream Toy.ghash true
           Toy.flushed Toy.empty_fs "plain" "plain.enc" "out" "pw" Toy.rng); reflexivity.
Defined.

Lemma wrong_password_empty_file_range_error_witness :
  let enc := Toy.encryptFile true Toy.empty_fs "plain" "plain.enc" "pw" Toy.rng in
  "other"%string <> "pw"%string /\
  (Toy.decryptFile enc.1 "plain.enc" "out" "other").2 = Err ERR_OUT_OF_RANGE /\
  (Toy.decryptFile enc.1 "plain.enc" "out" "other").2 <> Err ERR_CRYPTO_AUTH.
Proof.
  split; [discriminate|].
  apply (wrong_password_empty_file_range_error Toy.pbkdf2Sync Toy.keystream Toy.ghash
           true Toy.flushed Toy.empty_fs "plain" "plain.enc" "out" "pw" "other" Toy.rng);
    [discriminate|reflexivity|reflexivity].
Defined.

Lemma encryptFile_layout_witness :
  Toy.one_byte_fs !! "plain"%string = Some (File [7] true) /\
  Fs.is_dir Toy.one_byte_fs "plain.enc" = false /\
  exists tail,
    (Toy.encryptFile true Toy.one_byte_fs "plain" "plain.enc" "pw" Toy.rng).1
      !! "plain.enc"%string
    = Some (File (randomBytes Toy.rng 0 32 ++ randomBytes Toy.rng 32 16
                  ++ Engine.update Toy.keystream
                       (Toy.pbkdf2Sync "pw" (randomBytes Toy.rng 0 32) 100000 32)
                       (randomBytes Toy.rng 32 16) [7] ++ tail) true).
Proof.
  split; [reflexivity|]. split; [reflexivity|].
  destruct (encryptFile_layout Toy.pbkdf2Sync Toy.keystream Toy.ghash true
              Toy.one_byte_fs "plain" "plain.enc" "pw" Toy.rng [7]
              eq_refl eq_refl) as (tail & H & _).
  exists tail. exact H.
Defined.

End EngineFacts.

(** * Facts about the checkpoint store *)

Module ResumeFacts.

Lemma first_failing_cons (b : bool) (r : string) (checks : list (bool * string)) :
  Resume.first_failing ((b, r) :: checks)
  = if b then Resume.first_failing checks else Some r.
Proof. unfold Resume.first_failing. simpl. now destruct b. Qed.

(** The reason reported is that of a failing check all of whose
    predecessors hold. *)
Lemma first_failing_Some (checks : list (bool * string)) (r : string) :
  Resume.first_failing checks = Some r ->
  exists k, checks !! k = Some (false, r) /\
            forall j c, (j < k)%nat -> checks !! j = Some c -> c.1 = true.
Proof.
  induction checks as [|[b r'] checks IH]; [discriminate|].
  rewrite first_failing_cons. destruct b.
  - intros H. destruct (IH H) as (k & Hk & Hbefore). exists (S k). split; [exact Hk|].
    intros [|j] c Hj Hc; simpl in Hc.
    + now injection Hc as <-.
    + apply (Hbefore j); [lia|exact Hc].
  - intros [= ->]. exists 0%nat. split; [reflexivity|]. intros j c Hj. lia.
Qed.

Lemma first_failing_None (checks : list (bool * string)) :
  Resume.first_failing checks = None <-> Forall (fun c => c.1 = true) checks.
Proof.
  induction checks as [|[b r] checks IH].
  - split; [constructor|reflexivity].
  - rewrite first_failing_cons, Forall_cons. destruct b; simpl.
    + rewrite IH. tauto.
    + split; [discriminate|]. intros [[=] _].
Qed.

(** The age test on the quotient is the test on the milliseconds. *)
Lemma age_check (now : Z) (cp : Resume.OperationCheckpoint) :
  Qle_bool (Resume.daysSinceCheckpoint now cp) 7
  = bool_decide (now - Resume.timestamp cp <= 7 * 24 * 60 * 60 * 1000).
Proof.
  unfold Resume.daysSinceCheckpoint.
  set (d := now - Resume.timestamp cp).
  destruct (bool_decide_reflect (d <= 7 * 24 * 60 * 60 * 1000)) as [H|H].
  - apply Qle_bool_iff. apply Qle_shift_div_r; [reflexivity|].
    unfold Qle, inject_Z, Qmult. simpl Qnum. simpl Qden. lia.
  - apply not_true_is_false. intros Hq. apply H. apply Qle_bool_iff in Hq.
    unfold Qle, Qdiv, Qmult, Qinv, inject_Z in Hq. simpl in Hq. lia.
Qed.

Section Store.

Variable sha256hex : string -> string.
Variable pbkdf2Sync : string -> list Z -> Z -> Z -> list Z.
Variable keystream : list Z -> list Z -> nat -> Z.
Variable ghash : list Z -> list Z -> list Z -> nat -> Z.
Variable tempDir : string.
Variable clock : Z -> Z.
Variable written_at : Z -> nat.

Local Abbreviation verifyPassword := (Resume.verifyPassword sha256hex).
Local Abbreviation canResumeOperation := (Resume.canResumeOperation sha256hex).
Local Abbreviation resumeOperation :=
  (Resume.resumeOperation sha256hex pbkdf2Sync keystream ghash tempDir clock written_at).
Local Abbreviation resumeEncryption :=
  (Resume.resumeEncryption pbkdf2Sync keystream ghash).
Local Abbreviation update := (Engine.update keystream).
Local Abbreviation getAuthTag := (Engine.getAuthTag ghash).

Local Abbreviation code_checks := (Resume.code_checks sha256hex).

(** C5 (as amended): [canResumeOperation] evaluates: checkpoint loads;
    password verifier matches; input file exists; input size equals the
    recorded [totalBytes]; the temp data exists if the checkpoint records a
    temp data path; the checkpoint is at most 7 days old.  The first check
    that fails gives the reason of the refusal, and [resumeOperation] then
    throws without touching the checkpoint store or the file system. *)
Theorem canResumeOperation_order
    (store : gmap string (option Resume.OperationCheckpoint))
    (fs : gmap string node) (now : Z) (operationId pw : string) :
  canResumeOperation store fs now operationId pw
  = Ok (match Resume.loadCheckpoint store operationId with
        | None => Resume.refuse "Checkpoint not found"
        | Some cp =>
            match Resume.first_failing (code_checks fs now pw cp) with
            | Some r => Resume.refuse r
            | None => Resume.accept cp
            end
        end) /\
  (forall info,
     canResumeOperation store fs now operationId pw = Ok info ->
     Resume.canResume info = false ->
     exists msg,
       resumeOperation store fs now operationId pw = (store, fs, Err (JsError msg))).
Proof.
  assert (Hfirst : canResumeOperation store fs now operationId pw
    = Ok (match Resume.loadCheckpoint store operationId with
          | None => Resume.refuse "Checkpoint not found"
          | Some cp =>
              match Resume.first_failing (code_checks fs now pw cp) with
              | Some r => Resume.refuse r
              | None => Resume.accept cp
              end
          end)).
  { unfold Resume.canResumeOperation, Resume.code_checks.
    destruct (Resume.loadCheckpoint store operationId) as [cp|]; [|reflexivity].
    rewrite !first_failing_cons, age_check.
    destruct (Resume.verifyPassword sha256hex pw (Resume.password cp)); [|reflexivity].
    unfold Fs.existsSync at 1 3, Fs.statSync.
    destruct (fs !! Resume.inputPath cp) as [[c r|sz]|]; cbn [negb]; try reflexivity.
    - destruct (Z.of_nat (length c) =? Resume.totalBytes cp); cbn [negb]; [|reflexivity].
      destruct (Resume.truthy (Resume.tempDataPath cp)),
        (Fs.existsSync fs (default ""%string (Resume.tempDataPath cp)));
        cbn [negb andb orb]; try reflexivity;
        now destruct (bool_decide _).
    - destruct (sz =? Resume.totalBytes cp); cbn [negb]; [|reflexivity].
      destruct (Resume.truthy (Resume.tempDataPath cp)),
        (Fs.existsSync fs (default ""%string (Resume.tempDataPath cp)));
        cbn [negb andb orb]; try reflexivity;
        now destruct (bool_decide _). }
  split; [exact Hfirst|].
  intros info Hinfo Hno. unfold Resume.resumeOperation.
  destruct (Resume.loadCheckpoint store operationId) as [cp|]; [|eauto].
  destruct (Resume.verifyPassword sha256hex pw (Resume.password cp)); cbn [negb]; [|eauto].
  rewrite Hinfo, Hno. cbn [negb]. eauto.
Qed.

(** Checkpoints written by [saveCheckpoint] record a temp data path exactly
    when [bytesProcessed > 0]. *)
Lemma saveCheckpoint_temp store fs now oid op inp out pw pr bytes total alg salt iv :
  exists cp,
    (Resume.saveCheckpoint sha256hex tempDir store fs now oid op inp out pw pr
       bytes total alg salt iv).1 !! oid = Some (Some cp) /\
    Resume.truthy (Resume.tempDataPath cp) = (0 <? bytes).
Proof.
  eexists. split; [apply lookup_insert_eq|]. simpl.
  destruct (0 <? bytes); [|reflexivity].
  unfold Resume.path_join. now destruct tempDir.
Qed.

(** Two bytes masked with different keystream bytes differ. *)
Lemma lxor_cancel_l (a b c : Z) : Z.lxor a b = Z.lxor a c -> b = c.
Proof.
  intros H. apply (f_equal (Z.lxor a)) in H.
  now rewrite <- !Z.lxor_assoc, Z.lxor_nilpotent, !Z.lxor_0_l in H.
Qed.

(** C4 (at failing inputs): after an interruption at byte [n] that left
    salt, IV and the first [n] ciphertext bytes in the output,
    [resumeEncryption] appends the rest of the input encrypted by a new
    cipher object, whose keystream starts again at position 0, and a tag
    over that rest only.  Wherever the keystream at some position [j] of
    the rest differs from the keystream at [n + j], the resumed file is not
    the file of an uninterrupted run with the same salt and IV. *)
Theorem resumeEncryption_restarts_keystream
    (fs : gmap string node) (cp : Resume.OperationCheckpoint) (pw : string)
    (rng : nat -> Z) (data : list Z) (n : nat) (late : bool) :
  let salt := randomBytes rng 0 32 in
  let iv := randomBytes rng 32 16 in
  let key := pbkdf2Sync pw salt 100000 32 in
  let ct := update key iv data in
  fs !! Resume.inputPath cp = Some (File data true) ->
  fs !! Resume.outputPath cp = Some (File (salt ++ iv ++ take n ct) true) ->
  Resume.salt cp = Some salt -> Resume.iv cp = Some iv ->
  Resume.algorithm cp = "aes-256-gcm"%string ->
  Resume.bytesProcessed cp = Z.of_nat n ->
  (exists j, (n + j < length data)%nat /\
             keystream key iv j <> keystream key iv (n + j)) ->
  let rest := update key iv (drop n data) in
  let resumed := salt ++ iv ++ take n ct ++ rest ++ getAuthTag key iv rest in
  resumeEncryption cp pw fs
    = (<[Resume.outputPath cp := File resumed true]> fs, Ok tt) /\
  resumed <> Engine.envelope pbkdf2Sync keystream ghash late pw rng data.
Proof.
  intros salt iv key ct Hin Hout Hsalt Hiv Halg Hn (j & Hj & Hks) rest resumed.
  split.
  - unfold Resume.resumeEncryption, Fs.append, Fs.read_from.
    rewrite Hn, Hout, Hsalt, Hiv, Halg, Hin.
    destruct (Z.leb_spec 0 (Z.of_nat n)) as [_|]; [|lia]. cbn [negb].
    rewrite app_nil_r, insert_id by exact Hout. rewrite Hout.
    change (Resume.is_gcm "aes-256-gcm") with true. cbn [negb].
    rewrite Nat2Z.id. subst resumed rest.
    now rewrite <- !app_assoc.
  - unfold Engine.envelope. fold salt iv key ct. subst resumed.
    intros E. do 2 apply app_inv_head in E.
    apply (f_equal (fun l => l !! (n + j)%nat)) in E.
    assert (Hct : length ct = length data) by apply EngineFacts.length_update.
    assert (Hrest : length rest = (length data - n)%nat).
    { subst rest. now rewrite EngineFacts.length_update, length_drop. }
    assert (Hlen : length (take n ct) = n) by (rewrite length_take; lia).
    rewrite lookup_app_r in E by lia.
    rewrite Hlen, lookup_app_l in E by lia.
    rewrite (lookup_app_l ct) in E by lia.
    replace (n + j - n)%nat with j in E by lia.
    subst rest ct. unfold Engine.update in E.
    rewrite !list_lookup_imap, lookup_drop in E.
    destruct (data !! (n + j)%nat) as [b|] eqn:Hb.
    + simpl in E. injection E as E. now apply lxor_cancel_l in E.
    + apply lookup_ge_None in Hb. lia.
Qed.

End Store.

(** C5 (counterexample): a checkpoint that records a temp data path whose
    file is gone and that is eight days old.  In the order of the claim the
    age check fails first; the code reports the lost temp data. *)
Lemma canResume_order_counterexample :
  Resume.canResumeOperation Toy.sha256hex Toy.stale_store Toy.interrupted_fs
    Toy.eight_days "op1" "pw" = Ok (Resume.refuse "Temporary data lost") /\
  Resume.spec_canResume Toy.sha256hex Toy.stale_store Toy.interrupted_fs
    Toy.eight_days "op1" "pw" = Resume.refuse "Checkpoint is too old (>7 days)".
Proof. split; vm_compute; reflexivity. Qed.

Lemma resumeEncryption_restarts_keystream_witness :
  let rest := Engine.update Toy.keystream Toy.key0 Toy.iv0 (drop 1 Toy.two_bytes) in
  let resumed :=
    Toy.salt0 ++ Toy.iv0
      ++ take 1 (Engine.update Toy.keystream Toy.key0 Toy.iv0 Toy.two_bytes)
      ++ rest ++ Engine.getAuthTag Toy.ghash Toy.key0 Toy.iv0 rest in
  (exists j, (1 + j < length Toy.two_bytes)%nat /\
     Toy.keystream Toy.key0 Toy.iv0 j <> Toy.keystream Toy.key0 Toy.iv0 (1 + j)) /\
  Resume.resumeEncryption Toy.pbkdf2Sync Toy.keystream Toy.ghash
      Toy.interrupted_cp "pw" Toy.interrupted_fs
    = (<["plain.enc"%string := File resumed true]> Toy.interrupted_fs, Ok tt) /\
  resumed <> Engine.envelope Toy.pbkdf2Sync Toy.keystream Toy.ghash true
               "pw" Toy.rng Toy.two_bytes.
Proof.
  assert (Hj : exists j, (1 + j < length Toy.two_bytes)%nat /\
     Toy.keystream Toy.key0 Toy.iv0 j <> Toy.keystream Toy.key0 Toy.iv0 (1 + j)).
  { exists 0%nat. split; [simpl; lia|]. vm_compute. discriminate. }
  split; [exact Hj|].
  exact (resumeEncryption_restarts_keystream Toy.pbkdf2Sync Toy.keystream Toy.ghash
           Toy.interrupted_fs Toy.interrupted_cp "pw" Toy.rng Toy.two_bytes 1 true
           eq_refl eq_refl eq_refl eq_refl eq_refl eq_refl Hj).
Defined.

End ResumeFacts.

(** * Facts about the worker pool *)

Module PoolFacts.
Import Pool.

Lemma difference_mono_l (r t : gset nat) (k : nat) : r ⊆ t -> r ∖ {[k]} ⊆ t ∖ {[k]}.
Proof.
  intros H x. rewrite !elem_of_difference. intros [Hx Hn].
  split; [now apply H|exact Hn].
Qed.

Lemma difference_subseteq (r t : gset nat) (k : nat) : r ⊆ t -> r ∖ {[k]} ⊆ t.
Proof. intros H x. rewrite elem_of_difference. intros [Hx _]. now apply H. Qed.

Lemma Inv_create (maxW : Z) : 0 <= maxW -> Inv (create maxW).
Proof.
  intros H. split; [exact H|]. exists (∅ : gset nat).
  cbn [create running workers currentWorkerCount spawned]. repeat apply conj.
  - set_solver.
  - intros taskId worker Hw. now rewrite lookup_empty in Hw.
  - rewrite size_empty. lia.
  - set_solver.
  - intros t1 t2 worker Hw. now rewrite lookup_empty in Hw.
Qed.

Lemma Inv_set_queue (m : Manager) (queue : list WorkerTask) :
  Inv m -> Inv (set_queue m queue).
Proof. intros H. exact H. Qed.

Lemma Inv_startWorker (m : Manager) (task : WorkerTask) :
  Inv m -> currentWorkerCount m < maxWorkers m -> Inv (startWorker m task).
Proof.
  intros (Hmax & tracked & Hrun & Hmap & Hsize & Hfresh & Hinj) Hfree.
  split; [simpl; lia|].
  assert (Hnew : length (spawned m) ∉ tracked).
  { intros Hin. apply Hfresh in Hin. lia. }
  exists ({[length (spawned m)]} ∪ tracked).
  cbn [startWorker running workers currentWorkerCount spawned]. repeat apply conj.
  - apply union_mono_l. exact Hrun.
  - intros taskId worker. rewrite lookup_insert. case_decide.
    + intros [= <-]. set_solver.
    + intros Hw. apply Hmap in Hw. set_solver.
  - rewrite size_union by set_solver. rewrite size_singleton. lia.
  - intros worker. rewrite length_app. simpl.
    rewrite elem_of_union, elem_of_singleton. intros [->|Hin]; [lia|].
    apply Hfresh in Hin. lia.
  - intros t1 t2 worker. rewrite !lookup_insert.
    repeat case_decide; subst; try congruence.
    + intros [= <-] Hw. apply Hmap in Hw. contradiction.
    + intros Hw [= <-]. apply Hmap in Hw. contradiction.
    + apply Hinj.
Qed.

Lemma Inv_processQueue (m : Manager) : Inv m -> Inv (processQueue m).
Proof.
  intros H. unfold processQueue.
  destruct (length (activeTasksQueue m) =? 0)%nat; [exact H|].
  destruct (Z.leb_spec (maxWorkers m) (currentWorkerCount m)); [exact H|].
  simpl. destruct (activeTasksQueue m) as [|task rest]; [exact H|].
  apply Inv_startWorker; [now apply Inv_set_queue|assumption].
Qed.

Lemma Inv_cleanupWorker (m : Manager) (taskId : string) :
  Inv m -> Inv (cleanupWorker m taskId).
Proof.
  intros H. unfold cleanupWorker.
  destruct (workers m !! taskId) as [worker|] eqn:Hw; [|exact H].
  destruct H as (Hmax & tracked & Hrun & Hmap & Hsize & Hfresh & Hinj).
  split; [simpl; lia|].
  exists (tracked ∖ {[worker]}).
  cbn [running workers currentWorkerCount spawned]. repeat apply conj.
  - now apply difference_mono_l.
  - intros t w. rewrite lookup_delete. case_decide; [discriminate|].
    intros Ht. apply elem_of_difference. split; [now apply (Hmap t)|].
    rewrite elem_of_singleton. intros ->. now specialize (Hinj _ _ _ Hw Ht).
  - assert (Hin : worker ∈ tracked) by now apply (Hmap taskId).
    assert (Hsub : ({[worker]} : gset nat) ⊆ tracked) by set_solver.
    rewrite size_difference by exact Hsub. rewrite size_singleton.
    apply subseteq_size in Hsub. rewrite size_singleton in Hsub. lia.
  - intros w Hin. apply Hfresh. apply elem_of_difference in Hin. apply Hin.
  - intros t1 t2 w. rewrite !lookup_delete. repeat case_decide; try discriminate.
    apply Hinj.
Qed.

Lemma Inv_exited (m : Manager) (worker : nat) : Inv m -> Inv (exited m worker).
Proof.
  intros (Hmax & tracked & Hrun & Hrest). split; [exact Hmax|].
  exists tracked. cbn [exited running workers currentWorkerCount spawned].
  split; [now apply difference_subseteq|exact Hrest].
Qed.

Lemma Inv_foldl_cleanup (ids : list string) (m : Manager) :
  Inv m -> Inv (foldl cleanupWorker m ids).
Proof.
  revert m. induction ids as [|taskId ids IH]; intros m H; [exact H|].
  simpl. apply IH. now apply Inv_cleanupWorker.
Qed.

Lemma Inv_step (m : Manager) (ev : Event) : Inv m -> Inv (step m ev).
Proof.
  intros H. destruct ev as [task|taskId| |worker data throws|worker throws
                            |worker code throws]; simpl.
  - apply Inv_processQueue. now apply Inv_set_queue.
  - apply Inv_set_queue. now apply Inv_cleanupWorker.
  - apply Inv_set_queue. now apply Inv_foldl_cleanup.
  - destruct (spawned m !! worker) as [taskId|]; [|exact H].
    unfold on_message. destruct throws; [exact H|].
    destruct (status data); try exact H;
      apply Inv_processQueue; now apply Inv_cleanupWorker.
  - destruct (spawned m !! worker) as [taskId|]; [|exact H].
    unfold on_error. destruct throws; [exact H|].
    apply Inv_processQueue. now apply Inv_cleanupWorker.
  - destruct (spawned m !! worker) as [taskId|]; [|exact H].
    unfold on_exit. apply (Inv_exited _ worker) in H.
    destruct (negb (code =? 0) && throws); [exact H|].
    apply Inv_processQueue. now apply Inv_cleanupWorker.
Qed.

Lemma Inv_foldl_step (history : list Event) (m : Manager) :
  Inv m -> Inv (foldl step m history).
Proof.
  revert m. induction history as [|ev history IH]; intros m H; [exact H|].
  simpl. apply IH. now apply Inv_step.
Qed.

(** No method and no handler assigns [maxWorkers]. *)
Lemma maxWorkers_startWorker m task : maxWorkers (startWorker m task) = maxWorkers m.
Proof. reflexivity. Qed.

Lemma maxWorkers_processQueue m : maxWorkers (processQueue m) = maxWorkers m.
Proof.
  unfold processQueue.
  destruct (_ || _); [reflexivity|]. now destruct (activeTasksQueue m).
Qed.

Lemma maxWorkers_cleanupWorker m taskId :
  maxWorkers (cleanupWorker m taskId) = maxWorkers m.
Proof. unfold cleanupWorker. now destruct (workers m !! taskId). Qed.

Lemma maxWorkers_foldl_cleanup ids m :
  maxWorkers (foldl cleanupWorker m ids) = maxWorkers m.
Proof.
  revert m. induction ids as [|taskId ids IH]; intros m; [reflexivity|].
  simpl. now rewrite IH, maxWorkers_cleanupWorker.
Qed.

Lemma maxWorkers_step m ev : maxWorkers (step m ev) = maxWorkers m.
Proof.
  destruct ev as [task|taskId| |worker data throws|worker throws
                  |worker code throws]; cbn [step].
  - unfold queueTask. now rewrite maxWorkers_processQueue.
  - unfold cancelTask. cbn [set_queue maxWorkers]. now rewrite maxWorkers_cleanupWorker.
  - unfold cancelAllTasks. cbn [set_queue maxWorkers].
    now rewrite maxWorkers_foldl_cleanup.
  - destruct (spawned m !! worker); [|reflexivity].
    unfold on_message. destruct throws, (status data); try reflexivity;
      now rewrite maxWorkers_processQueue, maxWorkers_cleanupWorker.
  - destruct (spawned m !! worker); [|reflexivity].
    unfold on_error. destruct throws; [reflexivity|].
    now rewrite maxWorkers_processQueue, maxWorkers_cleanupWorker.
  - destruct (spawned m !! worker); [|reflexivity].
    unfold on_exit. destruct (_ && _); [reflexivity|].
    now rewrite maxWorkers_processQueue, maxWorkers_cleanupWorker.
Qed.

Lemma maxWorkers_run maxW history : maxWorkers (run maxW history) = maxW.
Proof.
  unfold run. generalize (eq_refl : maxWorkers (create maxW) = maxW).
  generalize (create maxW). induction history as [|ev history IH]; intros m Hm.
  - exact Hm.
  - simpl. apply IH. now rewrite maxWorkers_step.
Qed.

Lemma Inv_run maxW history : 0 <= maxW -> Inv (run maxW history).
Proof. intros H. apply Inv_foldl_step. now apply Inv_create. Qed.

(** A handler that ends in [cleanupWorker] and [processQueue], run while a
    task waits and a slot is free afterwards (the handler frees the slot of
    its task, or a slot was free already): the waiting task at the head of
    the queue is started at once. *)
Lemma release_starts_next (m : Manager) (taskId : string)
    (next : WorkerTask) (rest : list WorkerTask) :
  Inv m ->
  activeTasksQueue m = next :: rest ->
  is_Some (workers m !! taskId) \/ currentWorkerCount m < maxWorkers m ->
  let m' := processQueue (cleanupWorker m taskId) in
  activeTasksQueue m' = rest /\
  workers m' !! id next = Some (length (spawned m)) /\
  currentWorkerCount m' <= maxWorkers m.
Proof.
  intros (Hmax & _) Hq Hfree. unfold cleanupWorker.
  destruct (workers m !! taskId) as [worker|] eqn:Hw.
  - unfold processQueue. cbn [activeTasksQueue maxWorkers currentWorkerCount].
    rewrite Hq. cbn [length Nat.eqb orb].
    destruct (Z.leb_spec (maxWorkers m) (currentWorkerCount m - 1)); [lia|].
    cbn [startWorker set_queue activeTasksQueue workers currentWorkerCount spawned].
    repeat apply conj; [reflexivity|apply lookup_insert_eq|lia].
  - destruct Hfree as [[w [=]]|Hfree].
    unfold processQueue. rewrite Hq. cbn [length Nat.eqb orb].
    destruct (Z.leb_spec (maxWorkers m) (currentWorkerCount m)); [lia|].
    cbn [startWorker set_queue activeTasksQueue workers currentWorkerCount spawned].
    repeat apply conj; [reflexivity|apply lookup_insert_eq|lia].
Qed.



End PoolFacts.

(** * Facts about the batch runner *)

Module BatchFacts.
Import Batch.

Section Runner.

Variable engine :
  Operation -> string -> string -> string -> gmap string node -> Run.
Variable dirname : string -> string.
Variable sink : BatchProgress -> option string.

Local Abbreviation processingleFile := (Batch.processingleFile engine dirname).
Local Abbreviation deliver := (Batch.deliver sink).
Local Abbreviation report_frame := (Batch.report_frame sink).
Local Abbreviation report := (Batch.report sink).
Local Abbreviation finish := (Batch.finish sink).
Local Abbreviation loop_head := (Batch.loop_head sink).
Local Abbreviation call := (Batch.call sink).
Local Abbreviation resolve := (Batch.resolve engine dirname sink).
Local Abbreviation step := (Batch.step engine dirname sink).
Local Abbreviation run_batch := (Batch.run_batch engine dirname sink).
Local Abbreviation outcomes := (Batch.outcomes engine dirname).

(** ** One call at a time *)

(** [loop_head] either reaches the next [await] or settles the call, and
    then the flag is down. *)
Lemma loop_head_cases (s : System) (f : Frame) (others : list Frame) :
  (exists f', loop_head s f others
     = {| inst := inst s; fs := fs s; history := history s;
          active := f' :: others; settled := settled s |}) \/
  (exists f' r, loop_head s f others = settle s others f' r).
Proof.
  unfold Batch.loop_head, Batch.finish.
  destruct (files f !! i f) as [file|]; [|right; eauto].
  destruct (shouldCancel (inst s)); [right; eauto|].
  destruct (sink _); [right|left]; eauto.
Qed.

Lemma Exclusive_loop_head (s : System) (f : Frame) :
  isProcessing (inst s) = true -> Exclusive (loop_head s f []).
Proof.
  intros Hp. destruct (loop_head_cases s f []) as [[f' ->]|(f' & r & ->)].
  - left. split; [exact Hp|reflexivity].
  - right. split; reflexivity.
Qed.

Lemma Exclusive_resolve (s : System) (k : nat) : Exclusive s -> Exclusive (resolve s k).
Proof.
  intros H. unfold Batch.resolve.
  destruct (active s !! k) as [f|] eqn:Hk; [|exact H].
  destruct H as [[Hp Hlen]|[Hp Hnil]]; [|now rewrite Hnil in Hk].
  destruct (active s) as [|f0 [|f1 rest]] eqn:Hact; try discriminate.
  destruct k as [|k]; [|discriminate]. cbn [delete list_delete].
  destruct (files f !! i f) as [file|]; [|left; rewrite Hact; now split].
  destruct (hung f); [left; rewrite Hact; now split|].
  set (run := Batch.processingleFile engine dirname file (options f) (fs s)).
  destruct (Batch.deliver sink (reports run) f 0) as [f0' [n|]];
    destruct (piped run); try (left; split; [exact Hp|reflexivity]);
    destruct (failure run); now apply Exclusive_loop_head.
Qed.

Lemma Exclusive_step (s : System) (a : Action) : Exclusive s -> Exclusive (step s a).
Proof.
  intros H. destruct a as [fileList opts|k| |c j]; cbn [Batch.step].
  - unfold Batch.call. destruct (isProcessing (inst s)) eqn:Hp; [exact H|].
    destruct H as [[Hp' _]|[_ Hnil]]; [congruence|].
    rewrite Hnil. now apply Exclusive_loop_head.
  - now apply Exclusive_resolve.
  - exact H.
  - destruct c as [k|k]; [|exact H]. unfold Exclusive. cbn [Batch.report inst active].
    rewrite length_alter. destruct H as [H|[Hp Hnil]]; [now left|right].
    split; [exact Hp|]. now rewrite Hnil.
Qed.

Lemma Exclusive_reachable (fs0 : gmap string node) (acts : list Action) :
  Exclusive (foldl step (fresh fs0) acts).
Proof.
  assert (H : Exclusive (fresh fs0)) by (right; split; reflexivity).
  revert H. generalize (fresh fs0).
  induction acts as [|a acts IH]; intros s H; [exact H|].
  simpl. apply IH. now apply Exclusive_step.
Qed.

(** A step leaves the number of settled calls alone, or adds a rejected
    call, or adds a call that got past the guard and then the flag is
    down. *)
Lemma step_settled (s : System) (a : Action) :
  length (settled (step s a)) = length (settled s) \/
  (exists r, settled (step s a) = settled s ++ [(None, r)]) \/
  (exists f r, settled (step s a) = settled s ++ [(Some f, r)] /\
               isProcessing (inst (step s a)) = false).
Proof.
  assert (Hloop : forall s0 f others,
             settled (loop_head s0 f others) = settled s0 \/
             (exists f' r, settled (loop_head s0 f others) = settled s0 ++ [(Some f', r)] /\
                           isProcessing (inst (loop_head s0 f others)) = false)).
  { intros s0 f others.
    destruct (loop_head_cases s0 f others) as [[f' ->]|(f' & r & ->)];
      [left; reflexivity|right; exists f', r; split; reflexivity]. }
  destruct a as [fileList opts|k| |c j]; cbn [Batch.step].
  - unfold Batch.call. destruct (isProcessing (inst s)).
    + right. left. eexists. reflexivity.
    + match goal with |- context [Batch.loop_head sink ?s0 ?f ?o] =>
        destruct (Hloop s0 f o) as [H|H] end;
        [left; now rewrite H|right; right; exact H].
  - unfold Batch.resolve. destruct (active s !! k) as [f|]; [|now left].
    destruct (files f !! i f) as [file|]; [|now left].
    destruct (hung f); [now left|].
    set (run := Batch.processingleFile engine dirname file (options f) (fs s)).
    destruct (Batch.deliver sink (reports run) f 0) as [f0' [n|]];
      destruct (piped run); try (now left);
      destruct (failure run);
      match goal with |- context [Batch.loop_head sink ?s0 ?f ?o] =>
        destruct (Hloop s0 f o) as [H|H] end;
      try (left; now rewrite H); right; right; exact H.
  - now left.
  - left. destruct c as [k|k]; cbn [Batch.report settled]; [reflexivity|].
    apply length_alter.
Qed.

(** C9: in every state a [BatchProcessor] reaches, a call of [processFiles]
    made while an earlier call is in flight is rejected with 'Batch
    processing is already in progress' and changes nothing else (no frame
    is created, no snapshot is handed out, no file is touched); and when a
    call that got past the guard settles, with a result or with an error,
    [isCurrentlyProcessing()] is [false]. *)
Theorem processFiles_guard (fs0 : gmap string node) (acts : list Action) :
  let s := foldl step (fresh fs0) acts in
  (forall fileList opts,
     active s <> [] ->
     step s (ProcessFiles fileList opts)
     = {| inst := inst s; fs := fs s; history := history s; active := active s;
          settled := settled s
            ++ [(None, Err (JsError "Batch processing is already in progress"))] |}) /\
  (forall a f r,
     settled (step s a) = settled s ++ [(Some f, r)] ->
     isCurrentlyProcessing (step s a) = false) /\
  (isCurrentlyProcessing s = true <-> active s <> []).
Proof.
  intros s. assert (H : Exclusive s) by apply Exclusive_reachable.
  split; [|split].
  - intros fileList opts Hact. cbn [Batch.step]. unfold Batch.call.
    destruct H as [[-> _]|[_ Hnil]]; [reflexivity|contradiction].
  - intros a f r Hs. unfold isCurrentlyProcessing.
    destruct (step_settled s a) as [Hsame|[[r' Hrej]|(f' & r' & _ & Hdown)]].
    + apply (f_equal length) in Hs.
      rewrite length_app, Hsame in Hs. simpl in Hs. lia.
    + rewrite Hrej in Hs. apply app_inj_tail in Hs as [_ [=]].
    + exact Hdown.
  - unfold isCurrentlyProcessing.
    destruct H as [[Hp Hlen]|[Hp Hnil]]; rewrite Hp.
    + split; [|reflexivity]. intros _ Hnil. now rewrite Hnil in Hlen.
    + split; [discriminate|]. intros Hne. contradiction.
Qed.


(** ** Failures do not stop the batch *)

Lemma failures_cons (o : option string) (l : list (option string)) :
  failures (o :: l) = (match o with Some _ => 1 | None => 0 end + failures l)%nat.
Proof. unfold failures. now destruct o. Qed.

Lemma failures_le (l : list (option string)) : (failures l <= length l)%nat.
Proof.
  induction l as [|o l IH]; [reflexivity|].
  rewrite failures_cons. destruct o; simpl; lia.
Qed.

Lemma length_outcomes (fs0 : gmap string node) (opts : BatchOptions)
    (fileList : list BatchFileInfo) :
  length (outcomes fs0 opts fileList) = length fileList.
Proof.
  revert fs0. induction fileList as [|file rest IH]; intros fs0; [reflexivity|].
  cbn [Batch.outcomes length]. now rewrite IH.
Qed.

(** The per-file callback changes neither the loop index nor the counts. *)
Lemma file_ticks_fields (ticks : list Q) (f : Frame) :
  let f1 := foldl file_tick f ticks in
  files f1 = files f /\ options f1 = options f /\ i f1 = i f /\
  completed (progress f1) = completed (progress f) /\
  errors (progress f1) = errors (progress f) /\
  total (progress f1) = total (progress f) /\
  fileIndex (progress f1) = fileIndex (progress f).
Proof.
  revert f. induction ticks as [|t ticks IH]; intros f; [now repeat split|].
  cbn [foldl]. destruct (IH (file_tick f t)) as (H1 & H2 & H3 & H4 & H5 & H6 & H7).
  now rewrite H1, H2, H3, H4, H5, H6, H7.
Qed.

Lemma file_ticks_late (ticks : list Q) (f : Frame) :
  let f1 := foldl file_tick f ticks in
  hung f1 = hung f /\ pending f1 = pending f.
Proof.
  revert f. induction ticks as [|t ticks IH]; intros f; [now split|].
  cbn [foldl]. destruct (IH (file_tick f t)) as (H1 & H2). now rewrite H1, H2.
Qed.

(** With a callback that returns, every report of the awaited engine call
    is delivered. *)
Lemma deliver_quiet (Hsink : forall p, sink p = None) (ticks : list Q) :
  forall (f : Frame) (n : nat), deliver ticks f n = (foldl file_tick f ticks, None).
Proof.
  induction ticks as [|t ticks IH]; intros f n; [reflexivity|].
  cbn [Batch.deliver foldl]. now rewrite Hsink, IH.
Qed.

Lemma schedule_no_cancel (cancels : nat -> bool) (K : nat) :
  (forall j, cancels j = false) -> schedule cancels K = replicate K (Resolve 0).
Proof.
  intros Hc. unfold schedule.
  assert (H : forall start,
             flat_map (fun j => (if cancels j then [Cancel] else []) ++ [Resolve 0])
               (seq start K) = replicate K (Resolve 0)).
  { induction K as [|K IH]; intros start; [reflexivity|].
    cbn [seq flat_map replicate]. now rewrite Hc, IH. }
  apply H.
Qed.

(** One iteration: from the loop test through the awaited file to the
    next loop test. *)
Lemma iteration (Hsink : forall p, sink p = None)
    (s : System) (f : Frame) (file : BatchFileInfo) :
  shouldCancel (inst s) = false ->
  hung f = false ->
  files f !! i f = Some file ->
  exists s0 f0,
    resolve (loop_head s f []) 0 = loop_head s0 f0 [] /\
    shouldCancel (inst s0) = false /\ settled s0 = settled s /\
    hung f0 = false /\
    files f0 = files f /\ options f0 = options f /\ i f0 = S (i f) /\
    total (progress f0) = total (progress f) /\
    fs s0 = after (processingleFile file (options f) (fs s)) /\
    match failure (processingleFile file (options f) (fs s)) with
    | None => completed (progress f0) = S (completed (progress f)) /\
              length (errors (progress f0)) = length (errors (progress f))
    | Some _ => completed (progress f0) = completed (progress f) /\
                length (errors (progress f0)) = S (length (errors (progress f)))
    end.
Proof.
  intros Hcancel Hhung Hfile.
  assert (Hawait : exists f2,
             loop_head s f [] = {| inst := inst s; fs := fs s; history := history s;
                                   active := [f2]; settled := settled s |} /\
             f2 = emit Start (set_progress f (progress f2)) /\
             completed (progress f2) = completed (progress f) /\
             errors (progress f2) = errors (progress f) /\
             total (progress f2) = total (progress f)).
  { eexists. unfold Batch.loop_head. rewrite Hfile, Hcancel, Hsink.
    split; [reflexivity|]. repeat split. }
  destruct Hawait as (f2 & -> & Hf2 & Hc2 & He2 & Ht2).
  unfold Batch.resolve. rewrite Hf2.
  cbn [active lookup list_lookup delete list_delete Batch.emit Batch.set_progress
       files i options fs inst history settled hung].
  rewrite Hfile, Hhung.
  set (run := Batch.processingleFile engine dirname file (options f) (fs s)).
  rewrite (deliver_quiet Hsink).
  match goal with |- context [foldl file_tick ?f0 (reports run)] =>
    destruct (file_ticks_fields (reports run) f0) as (Hf & Ho & Hi & Hc & He & Ht & _);
    destruct (file_ticks_late (reports run) f0) as (Hh & _);
    set (f1 := foldl file_tick f0 (reports run)) in * end.
  cbn [Batch.emit Batch.set_progress files options i progress completed errors total
       hung] in Hf, Ho, Hi, Hc, He, Ht, Hh.
  rewrite Hc2 in Hc. rewrite He2 in He. rewrite Ht2 in Ht.
  destruct (failure run) as [message|]; do 2 eexists; (split; [reflexivity|]);
    cbn [Batch.next_file Batch.set_pending inst fs settled files options i progress
         completed errors total hung];
    rewrite ?length_app; cbn [length]; repeat apply conj;
    try assumption; try reflexivity; try congruence; rewrite ?He; lia.
Qed.

(** From any point of the loop on, with no [cancel()] and a callback that
    returns, every remaining file is tried and counted once. *)
Lemma run_from (Hsink : forall p, sink p = None) (n : nat) :
  forall (s : System) (f : Frame),
    shouldCancel (inst s) = false ->
    hung f = false ->
    (i f + n)%nat = length (files f) ->
    let s1 := foldl step (loop_head s f []) (replicate n (Resolve 0)) in
    let M := failures (outcomes (fs s) (options f) (drop (i f) (files f))) in
    exists f',
      settled s1 = settled s ++ [(Some f', Ok tt)] /\
      isProcessing (inst s1) = false /\
      i f' = length (files f) /\
      total (progress f') = total (progress f) /\
      (completed (progress f') + M)%nat = (completed (progress f) + n)%nat /\
      length (errors (progress f')) = (length (errors (progress f)) + M)%nat.
Proof.
  induction n as [|n IH]; intros s f Hcancel Hhung Hlen s1 M.
  - assert (Hnone : files f !! i f = None) by (apply lookup_ge_None; lia).
    subst s1 M. unfold Batch.loop_head, Batch.finish. rewrite Hnone, Hsink.
    rewrite drop_ge by lia.
    eexists. unfold Batch.settle. cbn [replicate foldl settled inst isProcessing].
    repeat apply conj; try reflexivity;
      unfold Batch.emit, Batch.set_progress, failures; simpl; lia.
  - assert (Hsome : is_Some (files f !! i f)) by (apply lookup_lt_is_Some; lia).
    destruct Hsome as [file Hfile].
    destruct (iteration Hsink s f file Hcancel Hhung Hfile)
      as (s0 & f0 & Heq & Hc0 & Hs0 & Hh0 & Hf0 & Ho0 & Hi0 & Ht0 & Hfs0 & Hcount).
    assert (Hs1 : s1 = foldl step (loop_head s0 f0 []) (replicate n (Resolve 0))).
    { subst s1. cbn [replicate foldl]. now rewrite <- Heq. }
    assert (HM : M = (match failure (processingleFile file (options f) (fs s)) with
                      | Some _ => 1 | None => 0 end
                      + failures (outcomes (fs s0) (options f0) (drop (i f0) (files f0))))%nat).
    { subst M. rewrite (drop_S _ _ _ Hfile). cbn [Batch.outcomes].
      rewrite Hfs0, Ho0, Hi0, Hf0.
      now rewrite failures_cons. }
    destruct (IH s0 f0 Hc0 Hh0) as (f' & H1 & H2 & H3 & H4 & H5 & H6).
    { rewrite Hi0, Hf0. lia. }
    cbn zeta in H1, H2, H5, H6. rewrite <- Hs1 in H1, H2.
    exists f'. rewrite HM.
    destruct (failure (processingleFile file (options f) (fs s))) as [message|];
      destruct Hcount as [Hcompleted Herrors];
      repeat apply conj; try congruence; lia.
Qed.

(** C7: a batch of K files, with no [cancel()] and a progress callback that
    returns, runs all K iterations; if M of the files fail, it ends with
    K - M files counted as completed and M entries in the error list, and
    the call resolves. *)
Theorem batch_partial_failure (fs0 : gmap string node)
    (fileList : list BatchFileInfo) (opts : BatchOptions) (cancels : nat -> bool) :
  (forall j, cancels j = false) ->
  (forall p, sink p = None) ->
  let s := run_batch (fresh fs0) fileList opts cancels in
  let K := length fileList in
  let M := failures (outcomes fs0 opts fileList) in
  exists f,
    settled s = [(Some f, Ok tt)] /\
    i f = K /\
    total (progress f) = K /\
    completed (progress f) = (K - M)%nat /\
    length (errors (progress f)) = M /\
    isCurrentlyProcessing s = false.
Proof.
  intros Hc Hsink s K M. subst s. unfold Batch.run_batch.
  rewrite (schedule_no_cancel _ _ Hc). unfold Batch.call. cbn [fresh inst isProcessing active].
  match goal with |- context [Batch.loop_head sink ?s0 ?f0 []] =>
    destruct (run_from Hsink (length fileList) s0 f0) as (f & H1 & H2 & H3 & H4 & H5 & H6)
  end; [reflexivity|reflexivity|reflexivity|].
  cbn [fresh files options i progress completed errors total fs settled length] in *.
  rewrite drop_0 in H5, H6. fold M in H5, H6. fold K in H3, H4, H5.
  assert (HM : (M <= K)%nat).
  { subst M K. rewrite <- (length_outcomes fs0 opts fileList). apply failures_le. }
  exists f. repeat apply conj; try assumption; try lia.
Qed.

(** ** What the snapshots report *)

Lemma tick_ok_start (f : Frame) (file : BatchFileInfo) :
  FrameInv f ->
  tick_ok (Start,
           {| fileIndex := i f; fileName := name file; fileProgress := 0;
              overallProgress :=
                (inject_Z (Z.of_nat (i f)) / inject_Z (Z.of_nat (length (files f))) * 100)%Q;
              completed := completed (progress f); total := total (progress f);
              errors := errors (progress f) |}).
Proof.
  intros (Htotal & Hi & _). unfold tick_ok. cbn. rewrite Htotal.
  repeat apply conj; [|reflexivity|exact Hi].
  now rewrite Qplus_0_r.
Qed.

Lemma Awaiting_file_tick (f : Frame) (t : Q) : Awaiting f -> Awaiting (file_tick f t).
Proof.
  intros ((Htotal & Hi & Hticks & Hpend) & Hindex).
  unfold Awaiting, FrameInv, file_tick, Batch.emit, Batch.set_progress.
  cbn [files i progress emitted total completed errors fileIndex pending].
  repeat apply conj; try assumption.
  apply Forall_app. split; [exact Hticks|]. apply Forall_singleton.
  unfold tick_ok. cbn. rewrite Htotal, Hindex.
  repeat apply conj; [reflexivity|reflexivity|exact Hi].
Qed.

Lemma Awaiting_file_ticks (ticks : list Q) (f : Frame) :
  Awaiting f -> Awaiting (foldl file_tick f ticks).
Proof.
  revert f. induction ticks as [|t ticks IH]; intros f H; [exact H|].
  cbn [foldl]. apply IH. now apply Awaiting_file_tick.
Qed.

Lemma Awaiting_deliver (ticks : list Q) :
  forall (f : Frame) (n : nat),
    Awaiting f ->
    Awaiting (deliver ticks f n).1 /\ i (deliver ticks f n).1 = i f.
Proof.
  induction ticks as [|t ticks IH]; intros f n H; [now split|].
  cbn [Batch.deliver]. destruct (sink _).
  - split; [now apply Awaiting_file_tick|reflexivity].
  - destruct (IH (file_tick f t) (S n)) as [H1 H2]; [now apply Awaiting_file_tick|].
    split; [exact H1|]. rewrite H2. reflexivity.
Qed.

(** A report that arrives after its engine call has settled. *)
Lemma FrameInv_report_frame (j : nat) (f : Frame) :
  FrameInv f ->
  FrameInv (report_frame j f) /\
  i (report_frame j f) = i f /\
  fileIndex (progress (report_frame j f)) = fileIndex (progress f).
Proof.
  intros Hinv. pose proof Hinv as (Htotal & Hi & Hticks & Hpend).
  unfold Batch.report_frame.
  destruct (pending f !! j) as [[|t rest]|] eqn:Hj;
    try (split; [exact Hinv|now split]).
  destruct (Hpend j _ Hj) as [Hlt Hle].
  split; [|now split].
  unfold FrameInv, Batch.set_pending, Batch.late_tick, Batch.emit, Batch.set_progress.
  cbn [files i progress emitted total completed errors fileIndex pending].
  split; [exact Htotal|]. split; [exact Hi|]. split.
  - apply Forall_app. split; [exact Hticks|]. apply Forall_singleton.
    unfold tick_ok. cbn. rewrite Htotal.
    repeat apply conj; [reflexivity|reflexivity|exact Hle|lia].
  - intros j' l Hl. destruct (decide (j = j')) as [<-|Hne]; [now split|].
    rewrite lookup_insert_ne in Hl by exact Hne. now apply (Hpend j' l).
Qed.

Lemma Awaiting_report_frame (j : nat) (f : Frame) :
  Awaiting f -> Awaiting (report_frame j f).
Proof.
  intros [Hinv Hindex]. destruct (FrameInv_report_frame j f Hinv) as (H1 & H2 & H3).
  split; [exact H1|]. now rewrite H2, H3.
Qed.

Lemma Ticks_ok_settle (s : System) (others : list Frame) (f : Frame) (r : result unit) :
  Ticks_ok s -> Forall Awaiting others -> FrameInv f ->
  Ticks_ok (settle s others f r).
Proof.
  intros [_ Hsettled] Hothers Hf. split; [exact Hothers|].
  cbn [Batch.settle settled]. apply Forall_app. split; [exact Hsettled|].
  now apply Forall_singleton.
Qed.

Lemma Ticks_ok_finish (s : System) (f : Frame) (others : list Frame) :
  Ticks_ok s -> Forall Awaiting others -> FrameInv f ->
  Ticks_ok (finish s f others).
Proof.
  intros Hs Hothers (Htotal & Hi & Hticks & Hpend). unfold Batch.finish.
  apply Ticks_ok_settle; [exact Hs|exact Hothers|].
  unfold FrameInv, Batch.emit, Batch.set_progress.
  cbn [files i progress emitted total completed errors fileIndex pending].
  repeat apply conj; try assumption.
  apply Forall_app. split; [exact Hticks|]. apply Forall_singleton.
  unfold tick_ok. cbn. reflexivity.
Qed.

Lemma Ticks_ok_loop_head (s : System) (f : Frame) (others : list Frame) :
  Ticks_ok s -> Forall Awaiting others -> FrameInv f ->
  Ticks_ok (loop_head s f others).
Proof.
  intros Hs Hothers Hf. unfold Batch.loop_head.
  destruct (files f !! i f) as [file|]; [|now apply Ticks_ok_finish].
  destruct (shouldCancel (inst s)); [now apply Ticks_ok_finish|].
  assert (Hnew : Awaiting
            (emit Start
               (set_progress f
                  {| fileIndex := i f; fileName := name file; fileProgress := 0;
                     overallProgress :=
                       (inject_Z (Z.of_nat (i f))
                        / inject_Z (Z.of_nat (length (files f))) * 100)%Q;
                     completed := completed (progress f);
                     total := total (progress f);
                     errors := errors (progress f) |}))).
  { pose proof (tick_ok_start f file Hf) as Hstart.
    destruct Hf as (Htotal & Hi & Hticks & Hpend).
    unfold Awaiting, FrameInv, Batch.emit, Batch.set_progress.
    cbn [files i progress emitted total completed errors fileIndex pending].
    repeat apply conj; try assumption; try reflexivity.
    - apply Forall_app. split; [exact Hticks|]. now apply Forall_singleton.
    - intros j l Hl. destruct (Hpend j l Hl). lia. }
  destruct (sink _).
  - apply Ticks_ok_settle; [exact Hs|exact Hothers|]. apply Hnew.
  - destruct Hs as [_ Hsettled]. split; [|exact Hsettled].
    cbn [active]. now apply Forall_cons.
Qed.

(** The engine call of the current file has settled: the file is counted,
    and the reports it has still to make are about a counted file. *)
Lemma FrameInv_next_file (f : Frame) (l : list Q) (p : BatchProgress) :
  Awaiting f ->
  total p = total (progress f) ->
  fileIndex p = fileIndex (progress f) ->
  (completed p + length (errors p))%nat
  = S (completed (progress f) + length (errors (progress f))) ->
  FrameInv (next_file (set_pending f (<[i f := l]> (pending f))) p).
Proof.
  intros ((Htotal & Hi & Hticks & Hpend) & Hindex) Ht Hx Hc.
  unfold FrameInv, Batch.next_file, Batch.set_pending.
  cbn [files i progress emitted total completed errors fileIndex pending].
  split; [congruence|]. split; [lia|]. split; [exact Hticks|].
  intros j l' Hl. destruct (decide (i f = j)) as [<-|Hne]; [lia|].
  rewrite lookup_insert_ne in Hl by exact Hne.
  destruct (Hpend j l' Hl). lia.
Qed.

Lemma Ticks_ok_resolve (s : System) (k : nat) : Ticks_ok s -> Ticks_ok (resolve s k).
Proof.
  intros Hs. unfold Batch.resolve.
  destruct (active s !! k) as [f|] eqn:Hk; [|exact Hs].
  destruct (files f !! i f) as [file|]; [|exact Hs].
  destruct (hung f); [exact Hs|].
  assert (Hf : Awaiting f).
  { destruct Hs as [Hactive _]. rewrite Forall_lookup in Hactive. now apply (Hactive k). }
  assert (Hothers : Forall Awaiting (delete k (active s))).
  { destruct Hs as [Hactive _]. now apply Forall_delete. }
  set (run := Batch.processingleFile engine dirname file (options f) (fs s)).
  destruct (Awaiting_deliver (reports run) f 0 Hf) as [Hf0 Hi0].
  destruct (Batch.deliver sink (reports run) f 0) as [f0 thrown].
  cbn [fst] in Hf0, Hi0.
  assert (Hhang : Ticks_ok
            {| inst := inst s; fs := fs s; history := history s;
               active := <[k := set_hung f0]> (active s); settled := settled s |}).
  { destruct Hs as [Hactive Hsettled]. split; [|exact Hsettled].
    cbn [active]. apply Forall_insert; [exact Hactive|]. exact Hf0. }
  assert (Hgo : forall l fs' h p,
             total p = total (progress f0) ->
             fileIndex p = fileIndex (progress f0) ->
             (completed p + length (errors p))%nat
             = S (completed (progress f0) + length (errors (progress f0))) ->
             Ticks_ok
               (loop_head
                  {| inst := inst s; fs := fs'; history := h; active := active s;
                     settled := settled s |}
                  (next_file (set_pending f0 (<[i f := l]> (pending f0))) p)
                  (delete k (active s)))).
  { intros l fs' h p Ht Hx Hc. apply Ticks_ok_loop_head; [exact Hs|exact Hothers|].
    rewrite <- Hi0. now apply FrameInv_next_file. }
  destruct thrown as [n|]; destruct (piped run);
    try (destruct Hhang as [Ha Hb]; split; [exact Ha|exact Hb]);
    destruct (failure run) as [message|];
    apply Hgo; cbn [total fileIndex completed errors Batch.set_pending progress];
    rewrite ?length_app; cbn [length]; try reflexivity; lia.
Qed.

Lemma Ticks_ok_report (s : System) (c : Call) (j : nat) :
  Ticks_ok s -> Ticks_ok (report s c j).
Proof.
  intros [Hactive Hsettled]. destruct c as [k|k]; split; cbn [Batch.report active settled];
    try assumption.
  - rewrite Forall_lookup in Hactive. apply Forall_lookup. intros n f Hn.
    rewrite list_lookup_alter in Hn.
    destruct (decide (k = n)) as [->|Hne].
    + destruct (active s !! n) as [f0|] eqn:H0; [|discriminate].
      injection Hn as <-. apply Awaiting_report_frame. now apply (Hactive n).
    + now apply (Hactive n).
  - rewrite Forall_lookup in Hsettled. apply Forall_lookup. intros n c Hn.
    rewrite list_lookup_alter in Hn.
    destruct (decide (k = n)) as [->|Hne].
    + destruct (settled s !! n) as [[[f0|] r]|] eqn:H0; try discriminate;
        injection Hn as <-; cbn; [|exact I].
      apply FrameInv_report_frame. exact (Hsettled n _ H0).
    + now apply (Hsettled n).
Qed.

Lemma Ticks_ok_step (s : System) (a : Action) : Ticks_ok s -> Ticks_ok (step s a).
Proof.
  intros Hs. destruct a as [fileList opts|k| |c j]; cbn [Batch.step].
  - unfold Batch.call. destruct (isProcessing (inst s)).
    + destruct Hs as [Hactive Hsettled]. split; [exact Hactive|].
      cbn [settled]. apply Forall_app. split; [exact Hsettled|].
      now apply Forall_singleton.
    + apply Ticks_ok_loop_head; [exact Hs|apply Hs|].
      repeat split; [constructor|..]; cbn in *; rewrite lookup_empty in *; discriminate.
  - now apply Ticks_ok_resolve.
  - exact Hs.
  - now apply Ticks_ok_report.
Qed.

Lemma Ticks_ok_reachable (fs0 : gmap string node) (acts : list Action) :
  Ticks_ok (foldl step (fresh fs0) acts).
Proof.
  assert (H : Ticks_ok (fresh fs0)) by (split; constructor).
  revert H. generalize (fresh fs0).
  induction acts as [|a acts IH]; intros s H; [exact H|].
  simpl. apply IH. now apply Ticks_ok_step.
Qed.

(** C8 (as amended): every snapshot handed to the progress callback for a
    file reports as overall figure the percentage
    [(k + currentFileFraction) / totalFiles * 100], where [k] is the index
    of the file the report is about, and as file figure the fraction as a
    percentage.  For the snapshot at the start of a file and for a report
    made while the engine call for the file is awaited, [k] is the
    [fileIndex] of the snapshot, that is the number of files tried before,
    completed or failed.  A report that the engine makes for file [k] after
    its call has settled ([decryptFile] reports from a stream that outlives
    its promise) carries the [fileIndex] and the counts that the loop has
    reached by then: [k <= fileIndex], and file [k] is among the files
    counted.  The snapshot after the loop reports 100. *)
Theorem progress_aggregation (fs0 : gmap string node) (acts : list Action) :
  let s := foldl step (fresh fs0) acts in
  forall f tick,
    (In f (active s) \/ exists r, In (Some f, r) (settled s)) ->
    In tick (emitted f) ->
    tick_ok tick.
Proof.
  intros s f tick Hf Htick.
  destruct (Ticks_ok_reachable fs0 acts) as [Hactive Hsettled]. fold s in Hactive, Hsettled.
  rewrite Forall_forall in Hactive. rewrite Forall_forall in Hsettled.
  assert (Hall : Forall tick_ok (emitted f)).
  { destruct Hf as [Hin|[r Hin]].
    - apply list_elem_of_In in Hin. now destruct (Hactive f Hin) as [(_ & _ & H & _) _].
    - apply list_elem_of_In in Hin. now destruct (Hsettled _ Hin) as (_ & _ & H & _). }
  rewrite Forall_forall in Hall. apply Hall. now apply list_elem_of_In.
Qed.

End Runner.

(** C8 (counterexample): two files, the first fails; when the engine
    reports the second file half done, no file has completed, the formula
    of the claim gives 1/4 (25 as a percentage), and the snapshot says 75. *)
Lemma overall_fraction_counterexample :
  exists f p,
    settled Toy.batch_run = [(Some f, Ok tt)] /\
    In (Tick (1 # 2), p) (emitted f) /\
    completed p = 0%nat /\ total p = 2%nat /\
    (overallProgress p == 75)%Q /\
    ~ (overallProgress p == spec_overallFraction p (1 # 2))%Q /\
    ~ (overallProgress p == spec_overallFraction p (1 # 2) * 100)%Q.
Proof.
  eexists _, _. split; [vm_compute; reflexivity|].
  split; [cbn; do 2 right; left; reflexivity|].
  repeat apply conj; try reflexivity; vm_compute; discriminate.
Qed.

Lemma progress_aggregation_witness :
  let s := foldl (Batch.step Samples.decrypt_engine Toy.batch_dirname Toy.batch_sink)
             (fresh Samples.decrypt_fs) Samples.decrypt_actions in
  exists f t p,
    In (Some f, Ok tt) (settled s) /\
    In (Late 0 t, p) (emitted f) /\
    (t == 1)%Q /\ fileIndex p = 1%nat /\
    (fileProgress p == 100)%Q /\ (overallProgress p == 50)%Q /\
    tick_ok (Late 0 t, p).
Proof.
  intros s.
  assert (H : exists f t p,
             settled s = [(Some f, Ok tt)] /\
             In (Late 0 t, p) (emitted f) /\
             (t == 1)%Q /\ fileIndex p = 1%nat /\
             (fileProgress p == 100)%Q /\ (overallProgress p == 50)%Q).
  { eexists _, _, _. split; [vm_compute; reflexivity|].
    split; [cbn; do 2 right; left; reflexivity|].
    repeat split. }
  destruct H as (f & t & p & Hs & Hin & Ht & Hi & Hfile & Hall).
  assert (Hf : In (Some f, Ok tt) (settled s)) by (rewrite Hs; left; reflexivity).
  exists f, t, p.
  split; [exact Hf|]. split; [exact Hin|]. split; [exact Ht|].
  split; [exact Hi|]. split; [exact Hfile|]. split; [exact Hall|].
  apply (progress_aggregation Samples.decrypt_engine Toy.batch_dirname Toy.batch_sink
           Samples.decrypt_fs Samples.decrypt_actions f (Late 0 t, p)).
  - right. exists (Ok tt). exact Hf.
  - exact Hin.
Defined.

Lemma batch_partial_failure_witness :
  (forall j : nat, (fun _ : nat => false) j = false) /\
  (forall p, Toy.batch_sink p = None) /\
  exists f,
    settled Toy.batch_run = [(Some f, Ok tt)] /\
    completed (progress f) = 1%nat /\
    length (errors (progress f)) = 1%nat.
Proof.
  split; [reflexivity|]. split; [reflexivity|].
  destruct (batch_partial_failure Toy.batch_engine Toy.batch_dirname Toy.batch_sink
              Toy.batch_fs Toy.batch_files Toy.batch_options (fun _ => false)
              (fun _ => eq_refl) (fun _ => eq_refl))
    as (f & H1 & _ & _ & H4 & H5 & _).
  exists f. split; [exact H1|]. split; [exact H4|exact H5].
Defined.

End BatchFacts.

(** * More facts about the worker pool *)

Module PoolMore.
Import Pool.

(** ** First in, first out *)

Local Abbreviation order := PoolHistory.order.

Lemma queued_ids_cons (ev : Event) (history : list Event) :
  PoolHistory.queued_ids (ev :: history)
  = PoolHistory.queued_ids [ev] ++ PoolHistory.queued_ids history.
Proof. unfold PoolHistory.queued_ids. cbn [flat_map]. now rewrite app_nil_r. Qed.

Lemma order_processQueue (m : Manager) : order (processQueue m) = order m.
Proof.
  unfold processQueue.
  destruct (_ || _); [reflexivity|].
  destruct (activeTasksQueue m) as [|task rest] eqn:Hq; [reflexivity|].
  unfold PoolHistory.order. cbn [startWorker set_queue spawned activeTasksQueue].
  rewrite Hq. cbn [map]. now rewrite <- app_assoc.
Qed.

Lemma order_cleanupWorker (m : Manager) (taskId : string) :
  order (cleanupWorker m taskId) = order m.
Proof. unfold cleanupWorker. now destruct (workers m !! taskId). Qed.

Lemma order_step (m : Manager) (ev : Event) :
  PoolHistory.no_cancel [ev] = true ->
  order (step m ev) = order m ++ PoolHistory.queued_ids [ev].
Proof.
  intros Hev.
  destruct ev as [task|taskId| |worker data throws|worker throws|worker code throws];
    try discriminate; cbn [step PoolHistory.queued_ids flat_map]; rewrite ?app_nil_r.
  - unfold queueTask. rewrite order_processQueue. unfold PoolHistory.order.
    cbn [set_queue spawned activeTasksQueue]. now rewrite map_app, app_assoc.
  - destruct (spawned m !! worker); [|reflexivity].
    unfold on_message. destruct throws, (status data); try reflexivity;
      now rewrite order_processQueue, order_cleanupWorker.
  - destruct (spawned m !! worker); [|reflexivity].
    unfold on_error. destruct throws; [reflexivity|].
    now rewrite order_processQueue, order_cleanupWorker.
  - destruct (spawned m !! worker); [|reflexivity].
    unfold on_exit. destruct (_ && _); [reflexivity|].
    now rewrite order_processQueue, order_cleanupWorker.
Qed.

Lemma order_foldl (history : list Event) (m : Manager) :
  PoolHistory.no_cancel history = true ->
  order (foldl step m history) = order m ++ PoolHistory.queued_ids history.
Proof.
  revert m. induction history as [|ev history IH]; intros m Hh.
  - simpl. now rewrite app_nil_r.
  - cbn [PoolHistory.no_cancel forallb] in Hh. apply andb_true_iff in Hh as [Hev Hh].
    cbn [foldl]. rewrite IH by exact Hh. rewrite order_step.
    + now rewrite (queued_ids_cons ev history), app_assoc.
    + cbn [PoolHistory.no_cancel forallb]. now rewrite Hev.
Qed.

(** X1: as long as nothing is cancelled, workers are created in the order
    in which the tasks were queued: the tasks started so far, followed by
    the tasks still waiting, are the queued tasks in the order of the
    [queueTask] calls. *)
Theorem pool_fifo (maxW : Z) (history : list Event) :
  PoolHistory.no_cancel history = true ->
  let m := run maxW history in
  spawned m ++ map id (activeTasksQueue m) = PoolHistory.queued_ids history.
Proof.
  intros Hh m. subst m. unfold run.
  apply (order_foldl history (create maxW)) in Hh. exact Hh.
Qed.

Lemma pool_fifo_witness :
  PoolHistory.no_cancel Toy.pool_history = true /\
  spawned (run 2 Toy.pool_history) ++ map id (activeTasksQueue (run 2 Toy.pool_history))
  = PoolHistory.queued_ids Toy.pool_history.
Proof.
  split; [reflexivity|]. exact (pool_fifo 2 Toy.pool_history eq_refl).
Defined.

(** ** The counter and the map of workers *)

Lemma size_workers_startWorker (m : Manager) (task : WorkerTask) :
  Z.of_nat (size (workers m)) <= currentWorkerCount m ->
  Z.of_nat (size (workers (startWorker m task))) <= currentWorkerCount (startWorker m task).
Proof.
  intros H. cbn [startWorker workers currentWorkerCount]. rewrite map_size_insert.
  destruct (workers m !! id task); unfold Datatypes.id; lia.
Qed.

Lemma size_workers_processQueue (m : Manager) :
  Z.of_nat (size (workers m)) <= currentWorkerCount m ->
  Z.of_nat (size (workers (processQueue m))) <= currentWorkerCount (processQueue m).
Proof.
  intros H. unfold processQueue. destruct (_ || _); [exact H|].
  destruct (activeTasksQueue m) as [|task rest]; [exact H|].
  now apply size_workers_startWorker.
Qed.

Lemma size_workers_cleanupWorker (m : Manager) (taskId : string) :
  Z.of_nat (size (workers m)) <= currentWorkerCount m ->
  Z.of_nat (size (workers (cleanupWorker m taskId)))
  <= currentWorkerCount (cleanupWorker m taskId).
Proof.
  intros H. unfold cleanupWorker.
  destruct (workers m !! taskId) as [worker|] eqn:Hw; [|exact H].
  cbn [workers currentWorkerCount]. rewrite map_size_delete_Some by eauto.
  assert (size (workers m) <> 0%nat).
  { intros H0. apply map_size_empty_inv in H0. rewrite H0, lookup_empty in Hw.
    discriminate. }
  lia.
Qed.

Lemma size_workers_foldl_cleanup (ids : list string) (m : Manager) :
  Z.of_nat (size (workers m)) <= currentWorkerCount m ->
  Z.of_nat (size (workers (foldl cleanupWorker m ids)))
  <= currentWorkerCount (foldl cleanupWorker m ids).
Proof.
  revert m. induction ids as [|taskId ids IH]; intros m H; [exact H|].
  cbn [foldl]. apply IH. now apply size_workers_cleanupWorker.
Qed.

Lemma size_workers_step (m : Manager) (ev : Event) :
  Z.of_nat (size (workers m)) <= currentWorkerCount m ->
  Z.of_nat (size (workers (step m ev))) <= currentWorkerCount (step m ev).
Proof.
  intros H.
  destruct ev as [task|taskId| |worker data throws|worker throws|worker code throws];
    cbn [step].
  - unfold queueTask. now apply size_workers_processQueue.
  - unfold cancelTask. cbn [set_queue workers currentWorkerCount].
    now apply size_workers_cleanupWorker.
  - unfold cancelAllTasks. cbn [set_queue workers currentWorkerCount].
    now apply size_workers_foldl_cleanup.
  - destruct (spawned m !! worker); [|exact H].
    unfold on_message. destruct throws, (status data); try exact H;
      apply size_workers_processQueue; now apply size_workers_cleanupWorker.
  - destruct (spawned m !! worker); [|exact H].
    unfold on_error. destruct throws; [exact H|].
    apply size_workers_processQueue. now apply size_workers_cleanupWorker.
  - destruct (spawned m !! worker); [|exact H].
    unfold on_exit. destruct (_ && _); [exact H|].
    apply size_workers_processQueue.
    now apply (size_workers_cleanupWorker (exited m worker)).
Qed.

(** X2: whatever the history, [getActiveTaskCount()] is never negative and
    never below the number of workers in the map: [cleanupWorker] only
    counts down for a task that is still in the map, so the message, error
    and exit handlers and [cancelTask] cannot release one slot twice. *)
Theorem pool_counter_not_negative (maxW : Z) (history : list Event) :
  let m := run maxW history in
  0 <= getActiveTaskCount m /\
  Z.of_nat (size (workers m)) <= getActiveTaskCount m /\
  (forall taskId,
     cleanupWorker (cleanupWorker m taskId) taskId = cleanupWorker m taskId).
Proof.
  intros m.
  assert (H : Z.of_nat (size (workers m)) <= currentWorkerCount m).
  { subst m. unfold run.
    assert (H0 : Z.of_nat (size (workers (create maxW))) <= currentWorkerCount (create maxW)).
    { cbn [create workers currentWorkerCount]. rewrite map_size_empty. lia. }
    revert H0. generalize (create maxW).
    induction history as [|ev history IH]; intros m0 H0; [exact H0|].
    cbn [foldl]. apply IH. now apply size_workers_step. }
  unfold getActiveTaskCount. repeat apply conj; [lia|exact H|].
  intros taskId. unfold cleanupWorker at 2 3.
  destruct (workers m !! taskId) as [worker|] eqn:Hw.
  - unfold cleanupWorker. cbn [workers]. now rewrite lookup_delete_eq.
  - unfold cleanupWorker. now rewrite Hw.
Qed.

(** ** Cancelling *)

Lemma foldl_cleanup_spec (ids : list string) :
  forall m : Manager,
    NoDup ids ->
    (forall k, k ∈ ids -> is_Some (workers m !! k)) ->
    let m' := foldl cleanupWorker m ids in
    (forall k, workers m' !! k = if decide (k ∈ ids) then None else workers m !! k) /\
    currentWorkerCount m' = currentWorkerCount m - Z.of_nat (length ids) /\
    (forall k w, k ∈ ids -> workers m !! k = Some w -> w ∉ running m') /\
    running m' ⊆ running m /\
    activeTasksQueue m' = activeTasksQueue m /\ spawned m' = spawned m /\
    maxWorkers m' = maxWorkers m.
Proof.
  induction ids as [|a ids IH]; intros m Hnd Hall; cbn zeta.
  - cbn [foldl length]. split; [|split; [|split; [|split]]].
    + intros k. destruct (decide (k ∈ [])) as [Hk|Hk]; [|reflexivity].
      now apply elem_of_nil in Hk.
    + lia.
    + intros k w Hk. now apply elem_of_nil in Hk.
    + intros w Hw. exact Hw.
    + now repeat split.
  - apply NoDup_cons in Hnd as [Ha Hnd].
    destruct (Hall a) as [wa Hwa]; [now left|].
    cbn [foldl]. set (m1 := cleanupWorker m a).
    assert (Hm1 : workers m1 = delete a (workers m) /\
                  currentWorkerCount m1 = currentWorkerCount m - 1 /\
                  running m1 = running m ∖ {[wa]} /\
                  activeTasksQueue m1 = activeTasksQueue m /\
                  spawned m1 = spawned m /\ maxWorkers m1 = maxWorkers m).
    { subst m1. unfold cleanupWorker. rewrite Hwa. now repeat split. }
    destruct Hm1 as (Hw1 & Hc1 & Hr1 & Hq1 & Hs1 & Hx1).
    destruct (IH m1 Hnd) as (Hlook & Hcount & Hrun & Hsub & Hq & Hs & Hx).
    { intros k Hk. rewrite Hw1, lookup_delete_ne; [apply Hall; now right|].
      intros ->. contradiction. }
    repeat apply conj.
    + intros k. rewrite Hlook, Hw1.
      destruct (decide (k ∈ ids)) as [Hk|Hk], (decide (k ∈ a :: ids)) as [Hk'|Hk'];
        try reflexivity.
      * exfalso. apply Hk'. now right.
      * apply elem_of_cons in Hk' as [->|Hk']; [apply lookup_delete_eq|contradiction].
      * rewrite lookup_delete_ne; [reflexivity|]. intros ->. apply Hk'. now left.
    + rewrite Hcount, Hc1. cbn [length]. lia.
    + intros k w Hk Hkw. apply elem_of_cons in Hk as [->|Hk].
      * intros Hin. apply Hsub in Hin. rewrite Hr1 in Hin.
        apply elem_of_difference in Hin as [_ Hne]. apply Hne.
        rewrite Hwa in Hkw. injection Hkw as <-. now apply elem_of_singleton.
      * apply (Hrun k w Hk). rewrite Hw1, lookup_delete_ne; [exact Hkw|].
        intros ->. contradiction.
    + intros w Hin. apply Hsub in Hin. rewrite Hr1 in Hin.
      now apply elem_of_difference in Hin as [Hin _].
    + now rewrite Hq.
    + now rewrite Hs.
    + now rewrite Hx.
Qed.

(** X3: after [cancelAllTasks()] no worker is left in the map, the queue is
    empty, every worker that was in the map has been terminated, and the
    counter has gone down by the number of workers that were in the map. *)
Theorem cancelAllTasks_clears (m : Manager) :
  let m' := cancelAllTasks m in
  workers m' = ∅ /\
  activeTasksQueue m' = [] /\
  currentWorkerCount m' = currentWorkerCount m - Z.of_nat (size (workers m)) /\
  (forall taskId worker, workers m !! taskId = Some worker -> worker ∉ running m') /\
  maxWorkers m' = maxWorkers m.
Proof.
  intros m'. subst m'. unfold cancelAllTasks.
  cbn [set_queue workers activeTasksQueue currentWorkerCount running maxWorkers].
  assert (Hin : forall k, k ∈ (map_to_list (workers m)).*1 <-> is_Some (workers m !! k)).
  { intros k. rewrite list_elem_of_fmap. split.
    - intros ([k' w] & -> & Hkw). apply elem_of_map_to_list in Hkw. eauto.
    - intros [w Hw]. exists (k, w). split; [reflexivity|].
      now apply elem_of_map_to_list. }
  destruct (foldl_cleanup_spec ((map_to_list (workers m)).*1) m)
    as (Hlook & Hcount & Hrun & _ & _ & _ & Hx).
  { apply NoDup_fst_map_to_list. }
  { intros k Hk. now apply Hin. }
  repeat apply conj.
  - apply map_eq. intros k. rewrite lookup_empty.
    change (map fst (map_to_list (workers m))) with ((map_to_list (workers m)).*1).
    rewrite Hlook. destruct (decide _) as [Hk|Hk]; [reflexivity|].
    destruct (workers m !! k) eqn:Hw; [|reflexivity].
    exfalso. apply Hk. apply Hin. eauto.
  - reflexivity.
  - change (map fst (map_to_list (workers m))) with ((map_to_list (workers m)).*1).
    rewrite Hcount, length_fmap, length_map_to_list. reflexivity.
  - intros taskId worker Hw.
    change (map fst (map_to_list (workers m))) with ((map_to_list (workers m)).*1).
    apply (Hrun taskId worker); [|exact Hw]. apply Hin. eauto.
  - exact Hx.
Qed.

Lemma filter_sublist {A} (f : A -> bool) (l : list A) : sublist (List.filter f l) l.
Proof.
  induction l as [|x l IH]; [constructor|].
  simpl. destruct (f x); now constructor.
Qed.

(** X4: after [cancelTask(id)] the task is neither in the map nor in the
    queue, whether it was running, waiting or unknown; the other waiting
    tasks stay in the queue in their order and the other workers stay in
    the map; the counter goes down by one exactly if the task had a worker;
    and no waiting task is started by the call. *)
Theorem cancelTask_removes (m : Manager) (taskId : string) :
  let m' := cancelTask m taskId in
  workers m' !! taskId = None /\
  (forall task, In task (activeTasksQueue m') <->
                In task (activeTasksQueue m) /\ id task <> taskId) /\
  sublist (activeTasksQueue m') (activeTasksQueue m) /\
  (forall other, other <> taskId -> workers m' !! other = workers m !! other) /\
  currentWorkerCount m'
  = currentWorkerCount m - match workers m !! taskId with Some _ => 1 | None => 0 end /\
  spawned m' = spawned m.
Proof.
  intros m'. subst m'. unfold cancelTask, cleanupWorker.
  destruct (workers m !! taskId) as [worker|] eqn:Hw;
    cbn [set_queue workers activeTasksQueue currentWorkerCount spawned];
    (repeat apply conj;
     [ rewrite ?lookup_delete_eq; try assumption; reflexivity
     | intros task; rewrite filter_In, negb_true_iff, String.eqb_neq; reflexivity
     | apply filter_sublist
     | intros other Hne; rewrite ?lookup_delete_ne by congruence; reflexivity
     | lia
     | reflexivity ]).
Qed.

(** [getOptimalWorkerCount] is half the number of CPU cores rounded
    down, kept between 2 and 8. *)
Theorem getOptimalWorkerCount_bounds (cpuCount : Z) :
  2 <= getOptimalWorkerCount cpuCount <= 8 /\
  (4 <= cpuCount < 18 -> getOptimalWorkerCount cpuCount = cpuCount / 2) /\
  (cpuCount < 4 -> getOptimalWorkerCount cpuCount = 2) /\
  (18 <= cpuCount -> getOptimalWorkerCount cpuCount = 8).
Proof.
  unfold getOptimalWorkerCount.
  assert (H4 : 4 <= cpuCount -> 2 <= cpuCount / 2) by (intros; apply Z.div_le_lower_bound; lia).
  assert (H3 : cpuCount < 4 -> cpuCount / 2 < 2) by (intros; apply Z.div_lt_upper_bound; lia).
  assert (H18 : 18 <= cpuCount -> 9 <= cpuCount / 2) by (intros; apply Z.div_le_lower_bound; lia).
  assert (H17 : cpuCount < 18 -> cpuCount / 2 < 9) by (intros; apply Z.div_lt_upper_bound; lia).
  repeat apply conj; try lia.
Qed.

Lemma getOptimalWorkerCount_bounds_witness :
  4 <= 12 < 18 /\ getOptimalWorkerCount 12 = 12 / 2.
Proof.
  split; [lia|].
  exact (proj1 (proj2 (getOptimalWorkerCount_bounds 12)) ltac:(lia)).
Defined.

End PoolMore.

(** * More facts about the batch runner *)

Module BatchMore.
Import Batch.

Lemma successes_cons (o : option string) (l : list (option string)) :
  BatchReport.successes (o :: l)
  = (match o with Some _ => 0 | None => 1 end + BatchReport.successes l)%nat.
Proof. unfold BatchReport.successes. now destruct o. Qed.

Lemma error_messages_nil_r (opts : BatchOptions) (fileList : list BatchFileInfo) :
  BatchReport.error_messages opts fileList [] = [].
Proof. now destruct fileList. Qed.

Lemma report_lengths (opts : BatchOptions) (fileList : list BatchFileInfo) :
  forall results : list (option string),
    (length results <= length fileList)%nat ->
    (BatchReport.successes results
     + length (BatchReport.error_messages opts fileList results))%nat
    = length results.
Proof.
  induction fileList as [|file fileList IH]; intros [|[message|] results] Hlen;
    try reflexivity; cbn [length] in Hlen; try lia.
  - rewrite successes_cons. cbn [BatchReport.error_messages length].
    specialize (IH results). lia.
  - rewrite successes_cons. cbn [BatchReport.error_messages length].
    specialize (IH results). lia.
Qed.

Lemma tried_le (cancels : nat -> bool) (start n : nat) :
  (BatchReport.tried cancels start n <= n)%nat.
Proof.
  revert start. induction n as [|n IH]; intros start; [reflexivity|].
  cbn [BatchReport.tried]. destruct (cancels start); [lia|].
  specialize (IH (S start)). lia.
Qed.

Lemma tried_no_cancel (cancels : nat -> bool) (start n : nat) :
  (forall j, cancels j = false) -> BatchReport.tried cancels start n = n.
Proof.
  intros Hc. revert start. induction n as [|n IH]; intros start; [reflexivity|].
  cbn [BatchReport.tried]. now rewrite Hc, IH.
Qed.

Lemma tried_first_cancel (cancels : nat -> bool) (start n j : nat) :
  (j < n)%nat ->
  cancels (start + j)%nat = true ->
  (forall j', (j' < j)%nat -> cancels (start + j')%nat = false) ->
  BatchReport.tried cancels start n = S j.
Proof.
  revert start n. induction j as [|j IH]; intros start n Hj Hc Hbefore.
  - destruct n as [|n]; [lia|]. cbn [BatchReport.tried].
    now rewrite Nat.add_0_r in Hc; rewrite Hc.
  - destruct n as [|n]; [lia|]. cbn [BatchReport.tried].
    rewrite <- (Nat.add_0_r start) at 1. rewrite (Hbefore 0%nat) by lia.
    f_equal. apply IH; [lia| |].
    + now replace (S start + j)%nat with (start + S j)%nat by lia.
    + intros j' Hj'. replace (S start + j')%nat with (start + S j')%nat by lia.
      apply Hbefore. lia.
Qed.

Section Runner.

Variable engine :
  Operation -> string -> string -> string -> gmap string node -> Run.
Variable dirname : string -> string.
Variable sink : BatchProgress -> option string.

Local Abbreviation processingleFile := (Batch.processingleFile engine dirname).
Local Abbreviation report_frame := (Batch.report_frame sink).
Local Abbreviation finish := (Batch.finish sink).
Local Abbreviation loop_head := (Batch.loop_head sink).
Local Abbreviation resolve := (Batch.resolve engine dirname sink).
Local Abbreviation step := (Batch.step engine dirname sink).
Local Abbreviation run_batch := (Batch.run_batch engine dirname sink).
Local Abbreviation outcomes := (Batch.outcomes engine dirname).

(** Once no call is in flight, files settling late and [cancel()] change
    neither the settled calls nor the flag. *)
Lemma idle_actions (acts : list Action) :
  Forall (fun a => match a with Resolve _ | Cancel => True | _ => False end) acts ->
  forall s, active s = [] ->
    let s' := foldl step s acts in
    settled s' = settled s /\ isProcessing (inst s') = isProcessing (inst s) /\
    active s' = [].
Proof.
  induction 1 as [|a acts Ha _ IH]; intros s Hs; [now repeat split|].
  cbn [foldl]. destruct a as [fileList opts|k| |c j]; try contradiction.
  - cbn [Batch.step]. unfold Batch.resolve. rewrite Hs. cbn [lookup list_lookup].
    now apply IH.
  - destruct (IH (cancel s) Hs) as (H1 & H2 & H3). now repeat split.
Qed.

(** One iteration, with or without a [cancel()] while the file is awaited. *)
Lemma iteration_full (Hsink : forall p, sink p = None)
    (s : System) (f : Frame) (file : BatchFileInfo) (c : bool) :
  shouldCancel (inst s) = false ->
  hung f = false ->
  files f !! i f = Some file ->
  let awaiting := loop_head s f [] in
  let r := processingleFile file (options f) (fs s) in
  exists s0 f0,
    resolve (if c then cancel awaiting else awaiting) 0 = loop_head s0 f0 [] /\
    shouldCancel (inst s0) = c /\ settled s0 = settled s /\
    hung f0 = false /\
    files f0 = files f /\ options f0 = options f /\ i f0 = S (i f) /\
    fs s0 = after r /\
    completed (progress f0)
    = (completed (progress f) + match failure r with Some _ => 0 | None => 1 end)%nat /\
    errors (progress f0)
    = errors (progress f)
      ++ match failure r with
         | Some message => [BatchReport.error_message (options f) file message]
         | None => []
         end.
Proof.
  intros Hcancel Hhung Hfile awaiting r. subst awaiting r.
  assert (Hawait : exists f2,
             loop_head s f [] = {| inst := inst s; fs := fs s; history := history s;
                                   active := [f2]; settled := settled s |} /\
             f2 = emit Start (set_progress f (progress f2)) /\
             completed (progress f2) = completed (progress f) /\
             errors (progress f2) = errors (progress f)).
  { eexists. unfold Batch.loop_head. rewrite Hfile, Hcancel, Hsink.
    split; [reflexivity|]. repeat split. }
  destruct Hawait as (f2 & -> & Hf2 & Hc2 & He2).
  assert (Hres : forall s_b, active s_b = [f2] -> fs s_b = fs s ->
            exists s0 f0,
              resolve s_b 0 = loop_head s0 f0 [] /\ inst s0 = inst s_b /\
              settled s0 = settled s_b /\
              hung f0 = false /\
              files f0 = files f /\ options f0 = options f /\ i f0 = S (i f) /\
              fs s0 = after (processingleFile file (options f) (fs s)) /\
              completed (progress f0)
              = (completed (progress f)
                 + match failure (processingleFile file (options f) (fs s)) with
                   | Some _ => 0 | None => 1 end)%nat /\
              errors (progress f0)
              = errors (progress f)
                ++ match failure (processingleFile file (options f) (fs s)) with
                   | Some message => [BatchReport.error_message (options f) file message]
                   | None => []
                   end).
  { intros s_b Hact Hfs. unfold Batch.resolve. rewrite Hact, Hfs.
    cbn [lookup list_lookup delete list_delete]. rewrite Hf2.
    cbn [Batch.emit Batch.set_progress files i options hung].
    rewrite Hfile, Hhung.
    set (run := Batch.processingleFile engine dirname file (options f) (fs s)).
    rewrite (BatchFacts.deliver_quiet sink Hsink).
    match goal with |- context [foldl file_tick ?f0 (reports run)] =>
      destruct (BatchFacts.file_ticks_fields (reports run) f0)
        as (Hf & Ho & Hi & Hc & He & _);
      destruct (BatchFacts.file_ticks_late (reports run) f0) as (Hh & _);
      set (f1 := foldl file_tick f0 (reports run)) in * end.
    cbn [Batch.emit Batch.set_progress files options i progress completed errors total
         hung] in Hf, Ho, Hi, Hc, He, Hh.
    rewrite Hc2 in Hc. rewrite He2 in He.
    destruct (failure run) as [message|]; do 2 eexists; (split; [reflexivity|]);
      cbn [Batch.next_file Batch.set_pending inst fs settled files options i progress
           completed errors total hung];
      rewrite ?Hc, ?He, ?Ho, ?app_nil_r; repeat apply conj;
      try assumption; try reflexivity; try congruence; try lia. }
  destruct c.
  - destruct (Hres (cancel {| inst := inst s; fs := fs s; history := history s;
                              active := [f2]; settled := settled s |}))
      as (s0 & f0 & H1 & H2 & H3 & H4); [reflexivity|reflexivity|].
    exists s0, f0. split; [exact H1|]. split; [now rewrite H2|].
    split; [exact H3|exact H4].
  - destruct (Hres {| inst := inst s; fs := fs s; history := history s;
                      active := [f2]; settled := settled s |})
      as (s0 & f0 & H1 & H2 & H3 & H4); [reflexivity|reflexivity|].
    exists s0, f0. split; [exact H1|]. split; [now rewrite H2|].
    split; [exact H3|exact H4].
Qed.

(** The end of a call: the snapshot after the loop says 100 and the call
    resolves. *)
Lemma finish_report (Hsink : forall p, sink p = None)
    (s : System) (f : Frame) :
  exists f',
    finish s f [] = settle s [] f' (Ok tt) /\
    i f' = i f /\ files f' = files f /\
    completed (progress f') = completed (progress f) /\
    errors (progress f') = errors (progress f) /\
    overallProgress (progress f') = 100%Q /\
    emitted f' = emitted f ++ [(Final, progress f')].
Proof.
  eexists. unfold Batch.finish. rewrite Hsink. split; [reflexivity|].
  now repeat split.
Qed.

Lemma loop_head_cancelled (s : System) (f : Frame) :
  shouldCancel (inst s) = true -> loop_head s f [] = finish s f [].
Proof.
  intros Hc. unfold Batch.loop_head. rewrite Hc. now destruct (files f !! i f).
Qed.

Lemma schedule_actions (cancels : nat -> bool) (start n : nat) :
  Forall (fun a => match a with Resolve _ | Cancel => True | _ => False end)
    (flat_map (fun j => (if cancels j then [Cancel] else []) ++ [Resolve 0])
       (seq start n)).
Proof.
  revert start. induction n as [|n IH]; intros start; [constructor|].
  cbn [seq flat_map]. apply Forall_app. split; [|apply IH].
  destruct (cancels start); repeat constructor.
Qed.

(** A whole run from any point of the loop, for any pattern of [cancel()]
    calls, with a progress callback that returns. *)
Lemma run_schedule (Hsink : forall p, sink p = None) (cancels : nat -> bool)
    (n : nat) :
  forall (s : System) (f : Frame),
    shouldCancel (inst s) = false ->
    hung f = false ->
    (i f + n)%nat = length (files f) ->
    let s1 := foldl step (loop_head s f [])
                (flat_map (fun j => (if cancels j then [Cancel] else []) ++ [Resolve 0])
                   (seq (i f) n)) in
    let t := BatchReport.tried cancels (i f) n in
    let results := take t (outcomes (fs s) (options f) (drop (i f) (files f))) in
    exists f',
      settled s1 = settled s ++ [(Some f', Ok tt)] /\
      isProcessing (inst s1) = false /\
      i f' = (i f + t)%nat /\
      completed (progress f')
      = (completed (progress f) + BatchReport.successes results)%nat /\
      errors (progress f')
      = errors (progress f)
        ++ BatchReport.error_messages (options f) (drop (i f) (files f)) results /\
      overallProgress (progress f') = 100%Q /\
      (exists before, emitted f' = before ++ [(Final, progress f')]).
Proof.
  induction n as [|n IH]; intros s f Hcancel Hhung Hlen s1 t results.
  - assert (Hnone : files f !! i f = None) by (apply lookup_ge_None; lia).
    subst s1 t results. cbn [seq flat_map foldl BatchReport.tried]. rewrite take_0.
    unfold Batch.loop_head. rewrite Hnone.
    destruct (finish_report Hsink s f) as (f' & -> & Hi & _ & Hc & He & Ho & Hem).
    exists f'. cbn [Batch.settle settled inst isProcessing].
    unfold BatchReport.successes. cbn [List.filter length].
    rewrite Hi, Hc, He, Ho.
    repeat apply conj; try reflexivity; try lia.
    + now rewrite error_messages_nil_r, app_nil_r.
    + eauto.
  - assert (Hsome : is_Some (files f !! i f)) by (apply lookup_lt_is_Some; lia).
    destruct Hsome as [file Hfile].
    destruct (iteration_full Hsink s f file (cancels (i f)) Hcancel Hhung Hfile)
      as (s0 & f0 & Heq & Hc0 & Hs0 & Hh0 & Hf0 & Ho0 & Hi0 & Hfs0 & Hcompleted
          & Herrors).
    assert (Hout : outcomes (fs s) (options f) (drop (i f) (files f))
                   = failure (processingleFile file (options f) (fs s))
                     :: outcomes (fs s0) (options f0) (drop (i f0) (files f0))).
    { rewrite (drop_S _ _ _ Hfile). cbn [Batch.outcomes].
      now rewrite Hfs0, Ho0, Hi0, Hf0. }
    assert (Hs1 : s1 = foldl step (loop_head s0 f0 [])
                         (flat_map (fun j => (if cancels j then [Cancel] else [])
                                             ++ [Resolve 0]) (seq (S (i f)) n))).
    { subst s1. cbn [seq flat_map]. rewrite foldl_app. rewrite <- Heq.
      now destruct (cancels (i f)). }
    subst t results. cbn [BatchReport.tried]. rewrite Hout.
    rewrite (drop_S _ _ _ Hfile).
    destruct (cancels (i f)) eqn:Hc.
    + (* cancel() during this file: the next loop test ends the call *)
      rewrite (loop_head_cancelled s0 f0 Hc0) in Hs1.
      destruct (finish_report Hsink s0 f0) as (f' & Hfin & Hi & _ & Hcf & Hef & Hof & Hem).
      rewrite Hfin in Hs1.
      destruct (idle_actions _ (schedule_actions cancels (S (i f)) n)
                  (settle s0 [] f' (Ok tt)) eq_refl) as (Hset & Hproc & _).
      rewrite <- Hs1 in Hset, Hproc.
      exists f'. rewrite Hset, Hproc. cbn [Batch.settle settled inst isProcessing].
      rewrite firstn_cons, take_0.
      rewrite Hs0, Hi, Hi0, Hcf, Hef, Hcompleted, Herrors, Hof, successes_cons.
      repeat apply conj; try reflexivity; try lia.
      * destruct (failure (processingleFile file (options f) (fs s))); cbn; lia.
      * f_equal. destruct (failure (processingleFile file (options f) (fs s)));
          cbn [BatchReport.error_messages]; now rewrite error_messages_nil_r.
      * eauto.
    + destruct (IH s0 f0 Hc0 Hh0) as (f' & H1 & H2 & H3 & H4 & H5 & H6 & H7).
      { rewrite Hi0, Hf0. lia. }
      cbn zeta in H1, H2, H3, H4, H5. rewrite Hi0 in H1, H2, H3, H4, H5.
      rewrite <- Hs1 in H1, H2.
      exists f'. rewrite firstn_cons, successes_cons.
      rewrite H1, H2, H3, H4, H5, Hs0, Hcompleted, Herrors, Ho0, Hf0, Hi0.
      repeat apply conj; try reflexivity; try lia; try assumption.
      rewrite <- app_assoc. f_equal.
      destruct (failure (processingleFile file (options f) (fs s))); reflexivity.
Qed.

(** The whole call on a fresh [BatchProcessor]. *)
Lemma run_batch_report (Hsink : forall p, sink p = None) (cancels : nat -> bool)
    (fs0 : gmap string node) (fileList : list BatchFileInfo) (opts : BatchOptions) :
  let s := run_batch (fresh fs0) fileList opts cancels in
  let t := BatchReport.tried cancels 0 (length fileList) in
  let results := take t (outcomes fs0 opts fileList) in
  exists f,
    settled s = [(Some f, Ok tt)] /\
    isProcessing (inst s) = false /\
    i f = t /\
    completed (progress f) = BatchReport.successes results /\
    errors (progress f) = BatchReport.error_messages opts fileList results /\
    overallProgress (progress f) = 100%Q /\
    (exists before, emitted f = before ++ [(Final, progress f)]).
Proof.
  intros s t results. subst s. unfold Batch.run_batch, Batch.schedule, Batch.call.
  cbn [fresh inst isProcessing active].
  match goal with |- context [Batch.loop_head sink ?s0 ?f0 []] =>
    destruct (run_schedule Hsink cancels (length fileList) s0 f0)
      as (f & H1 & H2 & H3 & H4 & H5 & H6 & H7)
  end; [reflexivity|reflexivity|reflexivity|].
  cbn [fresh files options i progress completed errors fs settled] in *.
  rewrite drop_0 in H4, H5.
  exists f. repeat apply conj; assumption.
Qed.

(** X6: with no [cancel()] and a progress callback that returns, the error
    list a batch ends with holds exactly one message
    'Failed to <operation> <file name>: <error message>' for each file that
    failed, in the order of the files, and the completed count is the
    number of files that did not fail. *)
Theorem batch_error_report (fs0 : gmap string node)
    (fileList : list BatchFileInfo) (opts : BatchOptions) (cancels : nat -> bool) :
  (forall j, cancels j = false) ->
  (forall p, sink p = None) ->
  let s := run_batch (fresh fs0) fileList opts cancels in
  let results := outcomes fs0 opts fileList in
  exists f,
    settled s = [(Some f, Ok tt)] /\
    errors (progress f) = BatchReport.error_messages opts fileList results /\
    completed (progress f) = BatchReport.successes results.
Proof.
  intros Hc Hsink s results.
  destruct (run_batch_report Hsink cancels fs0 fileList opts)
    as (f & H1 & _ & _ & H4 & H5 & _).
  rewrite (tried_no_cancel cancels 0 _ Hc) in H4, H5.
  rewrite firstn_all2 in H4, H5 by (rewrite BatchFacts.length_outcomes; lia).
  exists f. repeat apply conj; assumption.
Qed.

(** The parts of a call in flight that a late report leaves alone. *)
Lemma report_frame_same (j : nat) (f : Frame) :
  let f1 := report_frame j f in
  files f1 = files f /\ options f1 = options f /\ i f1 = i f /\ hung f1 = hung f /\
  completed (progress f1) = completed (progress f) /\
  errors (progress f1) = errors (progress f).
Proof.
  unfold Batch.report_frame.
  destruct (pending f !! j) as [[|t rest]|]; now repeat split.
Qed.

(** While a file is awaited, [cancel()] and late reports of earlier files
    leave the call where it is, with the flag of [cancel()] set. *)
Lemma cancelled_while_awaited (acts : list Action) :
  Forall (fun a => match a with Cancel | Report _ _ => True | _ => False end) acts ->
  forall (s : System) (f : Frame),
    active s = [f] ->
    shouldCancel (inst s) = true ->
    let s1 := foldl step s acts in
    exists f1,
      active s1 = [f1] /\ shouldCancel (inst s1) = true /\ fs s1 = fs s /\
      length (settled s1) = length (settled s) /\
      files f1 = files f /\ options f1 = options f /\ i f1 = i f /\ hung f1 = hung f /\
      completed (progress f1) = completed (progress f) /\
      errors (progress f1) = errors (progress f).
Proof.
  induction 1 as [|a acts Ha _ IH]; intros s f Hact Hc.
  - exists f. now repeat split.
  - cbn [foldl]. destruct a as [fileList opts|k| |[k|k] j]; try contradiction.
    + destruct (IH (cancel s) f Hact eq_refl) as (f1 & H); exists f1; exact H.
    + destruct (report_frame_same j f) as (R1 & R2 & R3 & R4 & R5 & R6).
      destruct k as [|k].
      * destruct (IH (step s (Report (InFlight 0) j)) (report_frame j f))
          as (f1 & H1 & H2 & H3 & H4 & H5 & H6 & H7 & H8 & H9 & H10).
        { cbn [Batch.step Batch.report active]. now rewrite Hact. }
        { exact Hc. }
        exists f1. cbn [Batch.step Batch.report fs settled] in H3, H4.
        cbn [Batch.step] in *. repeat apply conj; try assumption; congruence.
      * destruct (IH (step s (Report (InFlight (S k)) j)) f)
          as (f1 & H); [|exact Hc|exists f1; exact H].
        cbn [Batch.step Batch.report active]. now rewrite Hact.
    + destruct (IH (step s (Report (Over k) j)) f Hact Hc)
        as (f1 & H1 & H2 & H3 & H4 & H); exists f1.
      cbn [Batch.step Batch.report fs settled] in H3, H4.
      rewrite length_alter in H4. now repeat split.
Qed.

(** X7: when [cancel()] is called while a file is being processed, and the
    progress callback returns whenever it is called, then, whatever reports
    of earlier files arrive meanwhile, the file is still finished and
    counted (as completed or as failed), no later file is started (the file
    system is the one that the engine call for this file leaves), and the
    call does not fail: its promise resolves at the next loop test, the
    snapshot handed out there reports an overall progress of 100 although
    later files were never tried, and [isCurrentlyProcessing()] is [false]
    from then on. *)
Theorem batch_cancel (s : System) (f : Frame) (file : BatchFileInfo)
    (acts : list Action) :
  active s = [f] ->
  hung f = false ->
  files f !! i f = Some file ->
  (forall p, sink p = None) ->
  Forall (fun a => match a with Cancel | Report _ _ => True | _ => False end) acts ->
  let s1 := foldl step (cancel s) acts in
  let run := processingleFile file (options f) (fs s) in
  let s2 := resolve s1 0 in
  exists f' p,
    settled s2 = settled s1 ++ [(Some f', Ok tt)] /\
    active s2 = [] /\
    files f' = files f /\
    i f' = S (i f) /\
    completed (progress f')
    = (completed (progress f) + match failure run with Some _ => 0 | None => 1 end)%nat /\
    length (errors (progress f'))
    = (length (errors (progress f))
       + match failure run with Some _ => 1 | None => 0 end)%nat /\
    fs s2 = after run /\
    In (Final, p) (emitted f') /\ overallProgress p = 100%Q /\
    isCurrentlyProcessing s2 = false.
Proof.
  intros Hact Hhung Hfile Hsink Hacts s1 run s2.
  destruct (cancelled_while_awaited acts Hacts (cancel s) f Hact eq_refl)
    as (f1 & A1 & A2 & A3 & _ & A5 & A6 & A7 & A8 & A9 & A10).
  fold s1 in A1, A2, A3. cbn [cancel fs] in A3.
  subst s2. unfold Batch.resolve. rewrite A1.
  cbn [lookup list_lookup delete list_delete]. rewrite A5, A7, Hfile, A8, Hhung, A6, A3.
  fold run. rewrite (BatchFacts.deliver_quiet sink Hsink).
  match goal with |- context [foldl file_tick ?f0 (reports run)] =>
    destruct (BatchFacts.file_ticks_fields (reports run) f0)
      as (Hf & Ho & Hi & Hc & He & _);
    set (f2 := foldl file_tick f0 (reports run)) in * end.
  rewrite A5 in Hf. rewrite A7 in Hi. rewrite A9 in Hc. rewrite A10 in He.
  destruct (failure run) as [message|];
    rewrite loop_head_cancelled by exact A2;
    match goal with |- context [Batch.finish sink ?s0 ?f0 []] =>
      destruct (finish_report Hsink s0 f0) as (f' & -> & F1 & F2 & F3 & F4 & F5 & F6)
    end;
    exists f', (progress f');
    cbn [Batch.next_file Batch.set_pending files i progress completed errors]
      in F1, F2, F3, F4;
    cbn [Batch.settle settled active fs inst isProcessing];
    unfold isCurrentlyProcessing; cbn [Batch.settle inst isProcessing];
    rewrite F6, ?F4, ?length_app; cbn [length];
    repeat apply conj; try reflexivity; try congruence; try lia;
    try (rewrite He; lia);
    try (apply in_or_app; right; left; reflexivity).
Qed.

End Runner.

Lemma batch_error_report_witness :
  (forall j : nat, (fun _ : nat => false) j = false) /\
  (forall p, Toy.batch_sink p = None) /\
  exists f,
    settled Toy.batch_run = [(Some f, Ok tt)] /\
    errors (progress f)
    = ["Failed to encrypt missing: ENOENT: no such file or directory"%string].
Proof.
  split; [reflexivity|]. split; [reflexivity|].
  destruct (batch_error_report Toy.batch_engine Toy.batch_dirname Toy.batch_sink
              Toy.batch_fs Toy.batch_files Toy.batch_options (fun _ => false)
              (fun _ => eq_refl) (fun _ => eq_refl)) as (f & H1 & H2 & _).
  exists f. split; [exact H1|exact H2].
Defined.

Lemma batch_cancel_witness :
  exists f',
    settled (Batch.resolve Toy.batch_engine Toy.batch_dirname Toy.batch_sink
               (cancel Toy.batch_awaiting) 0)
    = [(Some f', Ok tt)] /\
    i f' = 1%nat /\ completed (progress f') = 1%nat.
Proof.
  assert (H : { f : Frame &
                { file : BatchFileInfo |
                  active Toy.batch_awaiting = [f] /\ hung f = false /\
                  files f !! i f = Some file /\ i f = 0%nat /\
                  completed (progress f) = 0%nat /\
                  failure (Batch.processingleFile Toy.batch_engine Toy.batch_dirname
                             file (options f) (fs Toy.batch_awaiting)) = None } }).
  { eexists _, _. split; [vm_compute; reflexivity|].
    split; [reflexivity|]. split; [reflexivity|]. split; [reflexivity|].
    split; reflexivity. }
  destruct H as (f & file & H1 & H2 & H3 & H4 & H5 & H6).
  destruct (batch_cancel Toy.batch_engine Toy.batch_dirname Toy.batch_sink
              Toy.batch_awaiting f file [] H1 H2 H3 (fun _ => eq_refl)
              (Forall_nil_2 _))
    as (f' & p & G1 & _ & _ & G4 & G5 & _).
  exists f'. cbn [foldl] in G1. rewrite H6 in G5.
  split; [exact G1|]. split; [now rewrite G4, H4|now rewrite G5, H5].
Defined.

End BatchMore.

(** * More facts about the checkpoint store *)

Module ResumeMore.
Import Resume.

Lemma truthy_path_join (dir name : string) : truthy (Some (path_join dir name)) = true.
Proof. unfold truthy, path_join. now destruct dir. Qed.

Section Store.

Variable sha256hex : string -> string.
Variable pbkdf2Sync : string -> list Z -> Z -> Z -> list Z.
Variable keystream : list Z -> list Z -> nat -> Z.
Variable ghash : list Z -> list Z -> list Z -> nat -> Z.
Variable tempDir : string.
Variable clock : Z -> Z.
Variable written_at : Z -> nat.
Variable flushed : nat.

Local Abbreviation verifyPassword := (Resume.verifyPassword sha256hex).
Local Abbreviation saveCheckpoint := (Resume.saveCheckpoint sha256hex tempDir).
Local Abbreviation canResumeOperation := (Resume.canResumeOperation sha256hex).
Local Abbreviation cleanupCheckpoint := (Resume.cleanupCheckpoint tempDir).
Local Abbreviation resumeOperation :=
  (Resume.resumeOperation sha256hex pbkdf2Sync keystream ghash tempDir clock written_at).
Local Abbreviation resumeEncryption :=
  (Resume.resumeEncryption pbkdf2Sync keystream ghash).
Local Abbreviation resumeDecryption :=
  (Resume.resumeDecryption pbkdf2Sync keystream ghash).
Local Abbreviation update := (Engine.update keystream).
Local Abbreviation getAuthTag := (Engine.getAuthTag ghash).
Local Abbreviation temp_of := (ResumeFiles.temp_of tempDir).
Local Abbreviation copyable := ResumeFiles.copyable.


Lemma canResume_first_failing store fs now operationId pw :
  canResumeOperation store fs now operationId pw
  = Ok (match loadCheckpoint store operationId with
        | None => refuse "Checkpoint not found"
        | Some cp =>
            match first_failing (Resume.code_checks sha256hex fs now pw cp) with
            | Some r => refuse r
            | None => accept cp
            end
        end).
Proof.
  unfold Resume.canResumeOperation, Resume.code_checks.
  destruct (loadCheckpoint store operationId) as [cp|]; [|reflexivity].
  rewrite !ResumeFacts.first_failing_cons, ResumeFacts.age_check.
  destruct (Resume.verifyPassword sha256hex pw (password cp)); [|reflexivity].
  unfold Fs.existsSync at 1 3, Fs.statSync.
  destruct (fs !! inputPath cp) as [[c r|sz]|]; cbn [negb]; try reflexivity.
  - destruct (Z.of_nat (length c) =? totalBytes cp); cbn [negb]; [|reflexivity].
    destruct (truthy (tempDataPath cp)),
      (Fs.existsSync fs (default ""%string (tempDataPath cp)));
      cbn [negb andb orb]; try reflexivity;
      now destruct (bool_decide _).
  - destruct (sz =? totalBytes cp); cbn [negb]; [|reflexivity].
    destruct (truthy (tempDataPath cp)),
      (Fs.existsSync fs (default ""%string (tempDataPath cp)));
      cbn [negb andb orb]; try reflexivity;
      now destruct (bool_decide _).
Qed.

(** The checkpoints a resumed encryption saves on the way are written
    under the id recorded in the checkpoint: no other record changes. *)
Lemma periodic_saves_store cp pw (points : list Z) :
  forall st other,
    other <> id cp ->
    (foldl (Resume.periodic_save sha256hex tempDir clock written_at cp pw) st points).1
      !! other
    = st.1 !! other.
Proof.
  induction points as [|p points IH]; intros st other Hne; [reflexivity|].
  cbn [foldl]. rewrite IH by exact Hne.
  unfold Resume.periodic_save.
  destruct (st.2 !! outputPath cp) as [[final [|]|sz]|]; try reflexivity.
  destruct (Fs.is_dir st.2 _); [reflexivity|].
  cbn [fst]. unfold Resume.saveCheckpoint. cbn [fst].
  apply lookup_insert_ne. congruence.
Qed.

(** X10: for a checkpoint with the algorithm the engine writes,
    'aes-256-gcm', [resumeOperation] resolves only if the stored hash
    matches the password, the input file exists with the recorded size and
    the checkpoint is at most 7 days old; when it resolves, the checkpoint
    and the temp copy of that operation id are gone, and every checkpoint
    other than that of the operation id and that of the id recorded inside
    the checkpoint (under which a resumed encryption saves checkpoints on
    the way) is as before. *)
Theorem resumeOperation_resolves store fs now operationId pw cp store' fs' :
  loadCheckpoint store operationId = Some cp ->
  algorithm cp = "aes-256-gcm"%string ->
  Fs.is_dir fs (temp_of operationId) = false ->
  resumeOperation store fs now operationId pw = (store', fs', Ok tt) ->
  verifyPassword pw (password cp) = true /\
  Fs.statSync fs (inputPath cp) = Ok (totalBytes cp) /\
  now - timestamp cp <= 7 * 24 * 60 * 60 * 1000 /\
  loadCheckpoint store' operationId = None /\
  Fs.existsSync fs' (temp_of operationId) = false /\
  (forall other, other <> operationId -> other <> id cp ->
     loadCheckpoint store' other = loadCheckpoint store other).
Proof.
  intros Hload _ _ Hrun. unfold Resume.resumeOperation in Hrun.
  unfold ResumeFiles.temp_of.
  rewrite canResume_first_failing, Hload in Hrun.
  destruct (Resume.verifyPassword sha256hex pw (password cp)) eqn:Hpw;
    cbn [negb] in Hrun; [|discriminate].
  destruct (first_failing (Resume.code_checks sha256hex fs now pw cp)) as [r|] eqn:Hff;
    [cbn in Hrun; discriminate|].
  cbn [canResume accept negb] in Hrun.
  apply ResumeFacts.first_failing_None in Hff.
  unfold Resume.code_checks in Hff.
  rewrite !Forall_cons in Hff. cbn [fst] in Hff.
  destruct Hff as (_ & _ & Hsize & _ & Hage & _).
  assert (Hdone : exists store1 fs1,
             store' = delete operationId store1 /\
             fs' = delete (path_join tempDir (operationId +:+ ".temp")) fs1 /\
             forall other, other <> id cp -> store1 !! other = store !! other).
  { destruct (operation cp).
    - unfold Resume.resumeEncryption_saving in Hrun.
      destruct (Resume.resumeEncryption pbkdf2Sync keystream ghash cp pw fs)
        as [fs1 [u|e]]; [|discriminate].
      pose proof (periodic_saves_store cp pw (Resume.save_points cp fs) (store, fs1))
        as Hframe.
      destruct (foldl _ (store, fs1) (Resume.save_points cp fs)) as [store1 fs2].
      unfold Resume.cleanupCheckpoint in Hrun. injection Hrun as <- <-.
      exists store1, fs2. now repeat split.
    - destruct (Resume.resumeDecryption pbkdf2Sync keystream ghash cp pw fs)
        as [fs1 [u|e]]; [|discriminate].
      unfold Resume.cleanupCheckpoint in Hrun. injection Hrun as <- <-.
      exists store, fs1. now repeat split. }
  destruct Hdone as (store1 & fs1 & -> & -> & Hframe).
  repeat apply conj.
  - reflexivity.
  - destruct (Fs.statSync fs (inputPath cp)) as [sz|]; [|discriminate].
    apply Z.eqb_eq in Hsize. now subst.
  - now apply bool_decide_eq_true in Hage.
  - unfold loadCheckpoint. now rewrite lookup_delete_eq.
  - unfold Fs.existsSync. now rewrite lookup_delete_eq.
  - intros other Hne Hid. unfold loadCheckpoint.
    now rewrite lookup_delete_ne, Hframe by congruence.
Qed.

(** X11: after [cleanupCheckpoint] (the temp path not being a directory)
    the operation can no longer be resumed: [canResumeOperation] reports
    'Checkpoint not found' and [resumeOperation] throws that error and
    changes nothing, whatever the password; checkpoints of other
    operations and files other than the temp copy are left as they were. *)
Theorem cleanupCheckpoint_forgets store fs now operationId pw :
  Fs.is_dir fs (temp_of operationId) = false ->
  let cleaned := cleanupCheckpoint store fs operationId in
  canResumeOperation cleaned.1 cleaned.2 now operationId pw
    = Ok (refuse "Checkpoint not found") /\
  resumeOperation cleaned.1 cleaned.2 now operationId pw
    = (cleaned.1, cleaned.2, Err (JsError "Checkpoint not found")) /\
  Fs.existsSync cleaned.2 (temp_of operationId) = false /\
  (forall other, other <> operationId ->
     loadCheckpoint cleaned.1 other = loadCheckpoint store other) /\
  (forall p, p <> temp_of operationId -> cleaned.2 !! p = fs !! p).
Proof.
  intros _ cleaned. subst cleaned.
  unfold Resume.cleanupCheckpoint, ResumeFiles.temp_of. cbn [fst snd].
  assert (Hload : loadCheckpoint (delete operationId store) operationId = None)
    by (unfold loadCheckpoint; now rewrite lookup_delete_eq).
  repeat apply conj.
  - unfold Resume.canResumeOperation. now rewrite Hload.
  - unfold Resume.resumeOperation. now rewrite Hload.
  - unfold Fs.existsSync. now rewrite lookup_delete_eq.
  - intros other Hne. unfold loadCheckpoint. now rewrite lookup_delete_ne.
  - intros p Hne. now rewrite lookup_delete_ne.
Qed.

(** What [resumeDecryption] does on a well-formed encrypted file. *)
Lemma resumeDecryption_run cp pw fs salt iv ct tag (n : nat) :
  Resume.salt cp = Some salt -> Resume.iv cp = Some iv ->
  algorithm cp = "aes-256-gcm"%string ->
  bytesProcessed cp = Z.of_nat n ->
  fs !! inputPath cp = Some (File (salt ++ iv ++ ct ++ tag) true) ->
  length salt = 32%nat -> length iv = 16%nat -> length tag = 16%nat ->
  (n < length ct)%nat ->
  let key := pbkdf2Sync pw salt 100000 32 in
  let rest := update key iv (drop n ct) in
  resumeDecryption cp pw fs
  = match Fs.append fs (outputPath cp) rest with
    | Err e => (fs, Err e)
    | Ok fs1 =>
        (fs1, if bool_decide (getAuthTag key iv (drop n ct) = tag)
              then Ok tt else Err ERR_CRYPTO_AUTH)
    end.
Proof.
  intros Hsalt Hiv Halg Hn Hin Hs Hi Ht Hlt key rest.
  unfold Resume.resumeDecryption. rewrite Hsalt, Hiv, Halg, Hn.
  cbn [is_gcm String.eqb Ascii.eqb Bool.eqb negb].
  unfold Fs.statSync, Fs.openSync. rewrite Hin.
  replace (salt ++ iv ++ ct ++ tag) with ((salt ++ iv ++ ct) ++ tag ++ [])
    by now rewrite app_nil_r, <- !app_assoc.
  rewrite (EngineFacts.readSync_slice (salt ++ iv ++ ct) tag [] true 16)
    by (rewrite ?length_app; simpl length; lia).
  assert (Hr : Fs.range_ok (48 + Z.of_nat n)
                 (Z.of_nat (length ((salt ++ iv ++ ct) ++ tag ++ [])) - 16 - 1) = true).
  { unfold Fs.range_ok. rewrite !length_app, Hs, Hi, Ht. simpl length.
    rewrite !andb_true_iff, !Z.leb_le. lia. }
  rewrite Hr. cbn [negb].
  assert (Hct : Fs.read_range ((salt ++ iv ++ ct) ++ tag ++ []) (48 + Z.of_nat n)
                  (Z.of_nat (length ((salt ++ iv ++ ct) ++ tag ++ [])) - 16 - 1)
                = drop n ct).
  { unfold Fs.read_range. rewrite app_nil_r, <- !app_assoc.
    replace (salt ++ iv ++ ct ++ tag)
      with ((salt ++ iv ++ take n ct) ++ drop n ct ++ tag)
      by (rewrite <- !app_assoc, (app_assoc (take n ct)), take_drop; reflexivity).
    replace (Z.to_nat (48 + Z.of_nat n)) with (length (salt ++ iv ++ take n ct))
      by (rewrite !length_app, length_take; lia).
    replace (Z.to_nat _) with (length (drop n ct))
      by (rewrite !length_app, length_take, length_drop; lia).
    apply EngineFacts.slice_app. }
  rewrite Hct. fold key. fold rest.
  destruct (Fs.append fs (outputPath cp) rest); [|reflexivity].
  now destruct (bool_decide _).
Qed.



(** X14: an encryption resumed at [bytesProcessed = 0] onto an output that
    holds the 48-byte header gives a file that [decryptFile] accepts with
    the same password and decrypts to the input. *)
Theorem resumeEncryption_from_zero_decrypts cp pw fs salt iv data plainPath :
  Resume.salt cp = Some salt -> Resume.iv cp = Some iv ->
  algorithm cp = "aes-256-gcm"%string ->
  bytesProcessed cp = 0 ->
  fs !! inputPath cp = Some (File data true) ->
  fs !! outputPath cp = Some (File (salt ++ iv) true) ->
  length salt = 32%nat -> length iv = 16%nat ->
  data <> [] ->
  plainPath <> outputPath cp ->
  Fs.is_dir fs plainPath = false ->
  let resumed := resumeEncryption cp pw fs in
  resumed.2 = Ok tt /\
  Engine.decryptFile pbkdf2Sync keystream ghash flushed resumed.1 (outputPath cp) plainPath pw
  = (<[plainPath := File data true]> resumed.1, Ok plainPath).
Proof.
  intros Hsalt Hiv Halg Hn Hin Hout Hs Hi Hne Hpath Hdir resumed.
  set (key := pbkdf2Sync pw salt 100000 32).
  assert (Hrun : resumed
    = (<[outputPath cp := File (salt ++ iv ++ update key iv data
                                ++ getAuthTag key iv (update key iv data)) true]> fs,
       Ok tt)).
  { subst resumed. unfold Resume.resumeEncryption. rewrite Hsalt, Hiv, Halg, Hn.
    cbn [Z.leb Z.compare negb is_gcm String.eqb Ascii.eqb Bool.eqb].
    unfold Fs.append at 1. rewrite Hout, app_nil_r.
    unfold Fs.read_from. rewrite Hin. cbn [Z.to_nat drop].
    unfold Fs.append. rewrite lookup_insert_eq, insert_insert_eq.
    fold key. now rewrite <- !app_assoc. }
  rewrite Hrun. cbn [fst snd]. split; [reflexivity|].
  rewrite (EngineFacts.decryptFile_long pbkdf2Sync keystream ghash flushed _ (outputPath cp)
             plainPath pw salt iv (update key iv data)
             (getAuthTag key iv (update key iv data))).
  - fold key. rewrite EngineFacts.update_involutive, bool_decide_true by reflexivity.
    reflexivity.
  - apply lookup_insert_eq.
  - unfold Fs.is_dir. rewrite lookup_insert_ne by congruence. apply Hdir.
  - assumption.
  - assumption.
  - apply EngineFacts.length_getAuthTag.
  - intros E. apply Hne. apply (f_equal length) in E.
    rewrite EngineFacts.length_update in E. now destruct data.
Qed.

End Store.


Lemma resumeOperation_resolves_witness :
  let run := Resume.resumeOperation Toy.sha256hex Toy.pbkdf2Sync Toy.keystream
               Toy.ghash "temp" Toy.clock Toy.written_at Toy.stale_store
               Samples.resumable_fs 1000 "op1" "pw" in
  Resume.loadCheckpoint Toy.stale_store "op1" = Some Toy.interrupted_cp /\
  Fs.is_dir Samples.resumable_fs "temp/op1.temp" = false /\
  run.2 = Ok tt /\
  Resume.loadCheckpoint run.1.1 "op1" = None /\
  Fs.existsSync run.1.2 "temp/op1.temp" = false.
Proof.
  intros run. split; [reflexivity|]. split; [reflexivity|].
  split; [vm_compute; reflexivity|].
  destruct (resumeOperation_resolves Toy.sha256hex Toy.pbkdf2Sync Toy.keystream
              Toy.ghash "temp" Toy.clock Toy.written_at Toy.stale_store
              Samples.resumable_fs 1000 "op1" "pw" Toy.interrupted_cp
              run.1.1 run.1.2) as (_ & _ & _ & H1 & H2 & _).
  - reflexivity.
  - reflexivity.
  - reflexivity.
  - vm_compute. reflexivity.
  - split; assumption.
Defined.

Lemma cleanupCheckpoint_forgets_witness :
  let cleaned := Resume.cleanupCheckpoint "temp" Toy.stale_store Samples.resumable_fs
                   "op1" in
  Fs.is_dir Samples.resumable_fs "temp/op1.temp" = false /\
  Resume.canResumeOperation Toy.sha256hex cleaned.1 cleaned.2 1000 "op1" "pw"
  = Ok (Resume.refuse "Checkpoint not found").
Proof.
  intros cleaned. split; [reflexivity|].
  apply (cleanupCheckpoint_forgets Toy.sha256hex Toy.pbkdf2Sync Toy.keystream
           Toy.ghash "temp" Toy.clock Toy.written_at Toy.stale_store Samples.resumable_fs 1000 "op1" "pw").
  reflexivity.
Defined.



Lemma resumeEncryption_from_zero_decrypts_witness :
  let resumed := Resume.resumeEncryption Toy.pbkdf2Sync Toy.keystream Toy.ghash
                   Samples.header_cp "pw" Samples.header_fs in
  Samples.header_fs !! "plain.enc"%string = Some (File (Toy.salt0 ++ Toy.iv0) true) /\
  resumed.2 = Ok tt /\
  Toy.decryptFile resumed.1 "plain.enc" "out" "pw"
  = (<["out"%string := File Toy.two_bytes true]> resumed.1, Ok "out"%string).
Proof.
  intros resumed. split; [reflexivity|].
  apply (resumeEncryption_from_zero_decrypts Toy.pbkdf2Sync Toy.keystream Toy.ghash
           Toy.flushed Samples.header_cp "pw" Samples.header_fs Toy.salt0 Toy.iv0 Toy.two_bytes
           "out"); try reflexivity; discriminate.
Defined.

End ResumeMore.

(** * More facts about the cipher engine *)

Module EngineMore.

Section Cipher.

Variable pbkdf2Sync : string -> list Z -> Z -> Z -> list Z.
Variable keystream : list Z -> list Z -> nat -> Z.
Variable ghash : list Z -> list Z -> list Z -> nat -> Z.
Variable write_after_end_lands : bool.
Variable flushed : nat.

Local Abbreviation update := (Engine.update keystream).
Local Abbreviation getAuthTag := (Engine.getAuthTag ghash).
Local Abbreviation encryptFile :=
  (Engine.encryptFile pbkdf2Sync keystream ghash write_after_end_lands).
Local Abbreviation decryptFile := (Engine.decryptFile pbkdf2Sync keystream ghash flushed).
Local Abbreviation envelope :=
  (Engine.envelope pbkdf2Sync keystream ghash write_after_end_lands).
Local Abbreviation isFileEncrypted := Engine.isFileEncrypted.

(** X15: on a well-formed encrypted file (32-byte salt, 16-byte IV,
    non-empty body, 16-byte tag) [decryptFile] resolves exactly when the tag
    recomputed from the body under the derived key equals the stored tag,
    and the output file then holds the decrypted body.  Otherwise it
    rejects with the authentication error, and the output file holds the
    part of the unauthenticated plaintext that had reached it when the
    pipeline destroyed the output stream: a prefix of the decrypted body,
    which may be all of it. *)
Theorem decryptFile_authenticates fs inputPath outputPath password salt iv ct tag :
  fs !! inputPath = Some (File (salt ++ iv ++ ct ++ tag) true) ->
  Fs.is_dir fs outputPath = false ->
  length salt = 32%nat -> length iv = 16%nat -> length tag = 16%nat ->
  ct <> [] ->
  let key := pbkdf2Sync password salt 100000 32 in
  let run := decryptFile fs inputPath outputPath password in
  (run.2 = Ok outputPath <-> getAuthTag key iv ct = tag) /\
  (getAuthTag key iv ct = tag ->
   run = (<[outputPath := File (update key iv ct) true]> fs, Ok outputPath)) /\
  (getAuthTag key iv ct <> tag ->
   run = (<[outputPath := File (take flushed (update key iv ct)) true]> fs,
          Err ERR_CRYPTO_AUTH)).
Proof.
  intros Hin Hout Hs Hi Ht Hne key run. subst run.
  rewrite (EngineFacts.decryptFile_long pbkdf2Sync keystream ghash flushed fs inputPath
             outputPath password salt iv ct tag) by assumption.
  fold key. cbn [fst snd].
  destruct (bool_decide_reflect (getAuthTag key iv ct = tag)) as [E|E]; cbn [snd].
  - split; [tauto|]. split; [reflexivity|]. intros H. now contradict H.
  - split; [split; [discriminate|tauto]|]. split; [tauto|reflexivity].
Qed.

(** X16: a readable input of fewer than 65 bytes is rejected by
    [decryptFile] with the range error of the read stream, whatever its
    bytes and the password, and the output path is left as an empty file. *)
Theorem decryptFile_short_input fs inputPath outputPath password c :
  fs !! inputPath = Some (File c true) ->
  Fs.is_dir fs outputPath = false ->
  (length c < 65)%nat ->
  decryptFile fs inputPath outputPath password
  = (<[outputPath := File [] true]> fs, Err ERR_OUT_OF_RANGE).
Proof.
  intros Hin Hout Hlen. unfold Engine.decryptFile, Fs.openSync, Fs.statSync.
  rewrite Hin, (EngineFacts.open_w_not_dir _ _ Hout). unfold Fs.readSync.
  simpl (0 <? 0). simpl (32 <? 0). cbv iota.
  destruct (Z.ltb_spec (Z.of_nat (length c) - 16) 0) as [|Hge]; [reflexivity|].
  assert (Hr : Fs.range_ok 48 (Z.of_nat (length c) - 17) = false).
  { unfold Fs.range_ok. apply andb_false_iff. right. apply Z.leb_gt. lia. }
  now rewrite Hr.
Qed.

(** X17: when the input path does not exist, [encryptFile] and
    [decryptFile] reject with ENOENT, and the output path has nevertheless
    been created, or truncated to an empty file if it existed. *)
Theorem missing_input_truncates_output fs inputPath outputPath password rng :
  fs !! inputPath = None ->
  Fs.is_dir fs outputPath = false ->
  encryptFile fs inputPath outputPath password rng
  = (<[outputPath := File [] true]> fs, Err ENOENT) /\
  decryptFile fs inputPath outputPath password
  = (<[outputPath := File [] true]> fs, Err ENOENT).
Proof.
  intros Hin Hout. split.
  - unfold Engine.encryptFile, Fs.statSync.
    now rewrite Hin, (EngineFacts.open_w_not_dir _ _ Hout).
  - unfold Engine.decryptFile, Fs.openSync.
    now rewrite Hin, (EngineFacts.open_w_not_dir _ _ Hout).
Qed.

Lemma open_w_frame fs outputPath fs' p :
  Fs.open_w fs outputPath = Ok fs' -> p <> outputPath -> fs' !! p = fs !! p.
Proof.
  unfold Fs.open_w. intros H Hne.
  destruct (fs !! outputPath) as [[c r|sz]|]; inversion H; subst;
    now rewrite lookup_insert_ne.
Qed.

(** X18: whatever [encryptFile] and [decryptFile] return, they change no
    path of the file system other than the output path. *)
Theorem engine_touches_only_output fs inputPath outputPath password rng p :
  p <> outputPath ->
  (encryptFile fs inputPath outputPath password rng).1 !! p = fs !! p /\
  (decryptFile fs inputPath outputPath password).1 !! p = fs !! p.
Proof.
  intros Hne. split.
  - unfold Engine.encryptFile.
    destruct (Fs.open_w fs outputPath) as [fs'|e] eqn:Hopen.
    + pose proof (open_w_frame _ _ _ p Hopen Hne) as Hf.
      destruct (Fs.statSync fs inputPath); [|exact Hf].
      destruct (Fs.read_from fs inputPath 0); cbn [fst];
        now rewrite lookup_insert_ne.
    + now destruct (Fs.statSync fs inputPath).
  - unfold Engine.decryptFile.
    destruct (Fs.open_w fs outputPath) as [fs'|e] eqn:Hopen.
    + pose proof (open_w_frame _ _ _ p Hopen Hne) as Hf.
      destruct (Fs.openSync fs inputPath) as [fd|]; [|exact Hf].
      destruct (Fs.readSync fd 32 0); [|exact Hf].
      destruct (Fs.readSync fd 16 32); [|exact Hf].
      destruct (Fs.statSync fs inputPath) as [size|]; [|exact Hf].
      destruct (Fs.readSync fd 16 (size - 16)); [|exact Hf].
      destruct (negb (Fs.range_ok 48 (size - 17))); [exact Hf|].
      destruct fd; [|exact Hf].
      destruct (bool_decide _); cbn [fst]; now rewrite lookup_insert_ne.
    + destruct (Fs.openSync fs inputPath) as [fd|]; [|reflexivity].
      destruct (Fs.readSync fd 32 0); [|reflexivity].
      destruct (Fs.readSync fd 16 32); [|reflexivity].
      destruct (Fs.statSync fs inputPath) as [size|]; [|reflexivity].
      destruct (Fs.readSync fd 16 (size - 16)); [|reflexivity].
      destruct (negb (Fs.range_ok 48 (size - 17))); [reflexivity|].
      now destruct fd.
Qed.

(** X19: [encryptFile] resolves only when the input is a readable regular
    file and the output path is not a directory, and then with the output
    path as its value; when the input is anything else, or the output path
    is a directory, it rejects.  (Other causes for which the output cannot
    be opened are not told apart by the file-system model, so the converse
    is not claimed.) *)
Theorem encryptFile_resolves_only_if fs inputPath outputPath password rng :
  let r := (encryptFile fs inputPath outputPath password rng).2 in
  (forall v, r = Ok v ->
     v = outputPath /\
     (exists data, fs !! inputPath = Some (File data true)) /\
     Fs.is_dir fs outputPath = false) /\
  ((forall data, fs !! inputPath <> Some (File data true)) \/
   Fs.is_dir fs outputPath = true ->
   exists e, r = Err e).
Proof.
  intros r. subst r. unfold Engine.encryptFile, Fs.statSync, Fs.read_from, Fs.open_w,
    Fs.is_dir.
  destruct (fs !! inputPath) as [[data [|]|sz]|];
    destruct (fs !! outputPath) as [[c r|sz']|]; cbn [snd];
    (split; [intros v [=]; subst; eauto | intros [H|[=]]; eauto]);
    exfalso; eapply H; reflexivity.
Qed.

(** X20: [isFileEncrypted] applied to the file a successful [encryptFile]
    has just written answers from the length alone: true exactly when the
    plaintext and the tag that reached the file make more than 16 bytes; in
    particular it is false for the encryption of an empty file. *)
Theorem isFileEncrypted_own_output fs inputPath outputPath password rng data :
  fs !! inputPath = Some (File data true) ->
  Fs.is_dir fs outputPath = false ->
  let fs1 := (encryptFile fs inputPath outputPath password rng).1 in
  isFileEncrypted fs1 outputPath
  = bool_decide (16 < length data + (if write_after_end_lands then 16 else 0))%nat /\
  (data = [] -> isFileEncrypted fs1 outputPath = false).
Proof.
  intros Hin Hout fs1. subst fs1.
  rewrite (EngineFacts.encryptFile_writes pbkdf2Sync keystream ghash
             write_after_end_lands fs inputPath outputPath password rng data)
    by assumption.
  cbn [fst].
  assert (H : isFileEncrypted
                (<[outputPath := File (envelope password rng data) true]> fs) outputPath
              = bool_decide
                  (16 < length data + (if write_after_end_lands then 16 else 0))%nat).
  { unfold Engine.isFileEncrypted, Engine.isFileEncrypted_try, Fs.openSync,
      Fs.statSync, Fs.readSync.
    rewrite lookup_insert_eq. cbn [Z.ltb Z.compare].
    rewrite (EngineFacts.length_envelope pbkdf2Sync keystream ghash).
    destruct (bool_decide_reflect
                (16 < length data + (if write_after_end_lands then 16 else 0))%nat);
      [apply Z.ltb_lt|apply Z.ltb_ge]; lia. }
  split; [exact H|].
  intros ->. rewrite H. apply bool_decide_eq_false. cbn [length].
  destruct write_after_end_lands; lia.
Qed.

(** X21: for a non-empty input, decrypting what [encryptFile] wrote gives
    back the input, with the same password, exactly when the tag that
    [encryptFile] writes after the pipeline has ended still reaches the
    file; if that write is lost, [decryptFile] never reproduces the
    input. *)
Theorem roundtrip_iff_tag_written fs inputPath encPath outPath password rng data :
  fs !! inputPath = Some (File data true) ->
  Fs.is_dir fs encPath = false ->
  Fs.is_dir fs outPath = false ->
  encPath <> outPath ->
  data <> [] ->
  let fs1 := (encryptFile fs inputPath encPath password rng).1 in
  decryptFile fs1 encPath outPath password
    = (<[outPath := File data true]> fs1, Ok outPath)
  <-> write_after_end_lands = true.
Proof.
  intros Hin Henc Hout Hne Hd fs1. split.
  - intros Hrun. destruct write_after_end_lands eqn:Hl; [reflexivity|exfalso].
    subst fs1.
    rewrite (EngineFacts.encryptFile_writes pbkdf2Sync keystream ghash
               false fs inputPath encPath password rng data) in Hrun
      by assumption.
    cbn [fst] in Hrun. unfold Engine.envelope in Hrun. rewrite app_nil_r in Hrun.
    set (salt := randomBytes rng 0 32) in Hrun.
    set (iv := randomBytes rng 32 16) in Hrun.
    set (key := pbkdf2Sync password salt 100000 32) in Hrun.
    set (ct := update key iv data) in Hrun.
    assert (Hct : length ct = length data) by apply EngineFacts.length_update.
    assert (Hdir : Fs.is_dir (<[encPath := File (salt ++ iv ++ ct) true]> fs) outPath
                   = false).
    { unfold Fs.is_dir. now rewrite lookup_insert_ne. }
    destruct (le_lt_dec (length data) 16) as [Hshort|Hlong].
    + apply (f_equal snd) in Hrun. cbn [snd] in Hrun.
      rewrite (EngineFacts.decryptFile_short pbkdf2Sync keystream ghash flushed _ encPath
                 outPath password (salt ++ iv ++ ct)) in Hrun.
      * discriminate.
      * apply lookup_insert_eq.
      * rewrite !length_app. unfold salt, iv.
        rewrite !EngineFacts.length_randomBytes. lia.
    + set (k := (length ct - 16)%nat).
      rewrite <- (take_drop k ct) in Hrun.
      rewrite (EngineFacts.decryptFile_long pbkdf2Sync keystream ghash flushed _ encPath
                 outPath password salt iv (take k ct) (drop k ct)) in Hrun.
      * destruct (bool_decide _); [|discriminate].
        apply (f_equal (fun run => run.1 !! outPath)) in Hrun. cbn [fst] in Hrun.
        rewrite !lookup_insert_eq in Hrun. injection Hrun as Hrun.
        apply (f_equal length) in Hrun.
        rewrite EngineFacts.length_update, length_take in Hrun. lia.
      * apply lookup_insert_eq.
      * rewrite take_drop. exact Hdir.
      * apply EngineFacts.length_randomBytes.
      * apply EngineFacts.length_randomBytes.
      * rewrite length_drop. lia.
      * intros E. apply (f_equal length) in E. rewrite length_take in E.
        simpl in E. lia.
  - intros Hl. subst fs1.
    apply (EngineFacts.roundtrip_nonempty pbkdf2Sync keystream ghash
             write_after_end_lands flushed); assumption.
Qed.

End Cipher.

Lemma decryptFile_authenticates_witness :
  let key := Toy.pbkdf2Sync "pw" Toy.salt0 100000 32 in
  Samples.encrypted_fs !! "data.enc"%string
  = Some (File (Toy.salt0 ++ Toy.iv0 ++ Samples.body ++ Samples.stored_tag) true) /\
  Engine.getAuthTag Toy.ghash key Toy.iv0 Samples.body <> Samples.stored_tag /\
  Toy.decryptFile Samples.encrypted_fs "data.enc" "data" "pw"
  = (<["data"%string := File [] true]> Samples.encrypted_fs, Err ERR_CRYPTO_AUTH).
Proof.
  intros key.
  assert (Htag : Engine.getAuthTag Toy.ghash key Toy.iv0 Samples.body
                 <> Samples.stored_tag) by (vm_compute; discriminate).
  split; [reflexivity|]. split; [exact Htag|].
  assert (Hne : Samples.body <> []) by discriminate.
  destruct (decryptFile_authenticates Toy.pbkdf2Sync Toy.keystream Toy.ghash Toy.flushed
              Samples.encrypted_fs "data.enc" "data" "pw" Toy.salt0 Toy.iv0
              Samples.body Samples.stored_tag
              eq_refl eq_refl eq_refl eq_refl eq_refl Hne) as (_ & _ & H).
  exact (H Htag).
Defined.

Lemma decryptFile_short_input_witness :
  Toy.one_byte_fs !! "plain"%string = Some (File [7] true) /\
  Toy.decryptFile Toy.one_byte_fs "plain" "out" "pw"
  = (<["out"%string := File [] true]> Toy.one_byte_fs, Err ERR_OUT_OF_RANGE).
Proof.
  split; [reflexivity|].
  apply (decryptFile_short_input Toy.pbkdf2Sync Toy.keystream Toy.ghash Toy.flushed
           Toy.one_byte_fs "plain" "out" "pw" [7]); [reflexivity|reflexivity|].
  simpl. lia.
Defined.

Lemma missing_input_truncates_output_witness :
  Toy.one_byte_fs !! "absent"%string = None /\
  Toy.encryptFile true Toy.one_byte_fs "absent" "plain" "pw" Toy.rng
  = (<["plain"%string := File [] true]> Toy.one_byte_fs, Err ENOENT).
Proof.
  split; [reflexivity|].
  apply (missing_input_truncates_output Toy.pbkdf2Sync Toy.keystream Toy.ghash true
           Toy.flushed Toy.one_byte_fs "absent" "plain" "pw" Toy.rng); reflexivity.
Defined.

Lemma engine_touches_only_output_witness :
  "plain"%string <> "plain.enc"%string /\
  (Toy.encryptFile true Toy.one_byte_fs "plain" "plain.enc" "pw" Toy.rng).1
    !! "plain"%string
  = Toy.one_byte_fs !! "plain"%string.
Proof.
  split; [discriminate|].
  apply (engine_touches_only_output Toy.pbkdf2Sync Toy.keystream Toy.ghash true
           Toy.flushed Toy.one_byte_fs "plain" "plain.enc" "pw" Toy.rng "plain").
  discriminate.
Defined.

Lemma encryptFile_resolves_only_if_witness :
  (Toy.encryptFile true Toy.one_byte_fs "plain" "plain.enc" "pw" Toy.rng).2
  = Ok "plain.enc"%string /\
  (exists data, Toy.one_byte_fs !! "plain"%string = Some (File data true)) /\
  Fs.is_dir Toy.one_byte_fs "plain.enc" = false.
Proof.
  split; [reflexivity|].
  destruct (encryptFile_resolves_only_if Toy.pbkdf2Sync Toy.keystream Toy.ghash true
              Toy.one_byte_fs "plain" "plain.enc" "pw" Toy.rng) as [H _].
  exact (proj2 (H "plain.enc"%string eq_refl)).
Defined.

Lemma isFileEncrypted_own_output_witness :
  Toy.empty_fs !! "plain"%string = Some (File [] true) /\
  Engine.isFileEncrypted
    (Toy.encryptFile true Toy.empty_fs "plain" "plain.enc" "pw" Toy.rng).1 "plain.enc"
  = false.
Proof.
  split; [reflexivity|].
  apply (isFileEncrypted_own_output Toy.pbkdf2Sync Toy.keystream Toy.ghash true
           Toy.empty_fs "plain" "plain.enc" "pw" Toy.rng []); reflexivity.
Defined.

Lemma roundtrip_iff_tag_written_witness :
  let fs1 := (Toy.encryptFile true Toy.one_byte_fs "plain" "plain.enc" "pw" Toy.rng).1 in
  Toy.one_byte_fs !! "plain"%string = Some (File [7] true) /\
  Toy.decryptFile fs1 "plain.enc" "out" "pw"
  = (<["out"%string := File [7] true]> fs1, Ok "out"%string).
Proof.
  intros fs1. split; [reflexivity|].
  apply (roundtrip_iff_tag_written Toy.pbkdf2Sync Toy.keystream Toy.ghash true
           Toy.flushed Toy.one_byte_fs "plain" "plain.enc" "out" "pw" Toy.rng [7]);
    try reflexivity; discriminate.
Defined.

End EngineMore.

(** * The list of recent files (fileHistory.ts) *)

Module HistoryMore.

Lemma statSync_existsSync fs p :
  Fs.existsSync fs p = match Fs.statSync fs p with Ok _ => true | Err _ => false end.
Proof. unfold Fs.existsSync, Fs.statSync. now destruct (fs !! p) as [[?|?]|]. Qed.

Lemma In_take {A} (n : nat) (l : list A) (x : A) : In x (take n l) -> In x l.
Proof.
  revert n. induction l as [|y l IH]; intros [|n]; simpl; try tauto.
  intros [->|H]; [now left|right; eauto].
Qed.

Lemma filter_none {A} (f : A -> bool) (l : list A) :
  (forall x, In x l -> f x = false) -> List.filter f l = [].
Proof.
  induction l as [|x l IH]; intros H; [reflexivity|]. simpl.
  rewrite (H x) by now left. apply IH. intros y Hy. apply H. now right.
Qed.

Lemma sublist_In {A} (l k : list A) x : sublist l k -> In x l -> In x k.
Proof.
  induction 1; simpl; [tauto| |]; intros; [|right; auto].
  destruct H0 as [->|H0]; [now left|right; auto].
Qed.

(** The entries that [addToHistory] keeps behind the new one. *)
Lemma kept_entries fs (history : list (string * Batch.Operation)) filePath :
  let kept := List.filter (fun e => negb (String.eqb e.1 filePath))
                (List.filter (fun e => Fs.existsSync fs e.1) history) in
  sublist kept history /\
  (forall e, In e kept -> e.1 <> filePath /\ Fs.existsSync fs e.1 = true).
Proof.
  intros kept. split.
  - etransitivity; apply PoolMore.filter_sublist.
  - intros e He. apply filter_In in He as [He Hne]. apply filter_In in He as [_ Hex].
    split; [|exact Hex]. intros E. rewrite E, String.eqb_refl in Hne. discriminate.
Qed.

(** X22: [addToHistory] of a path that [statSync] cannot reach leaves the
    list as it is.  Otherwise the new entry is the first of the list, the
    list has at most 20 entries and lists the path exactly once, the
    entries behind the first are earlier entries in their earlier order,
    and every listed path exists.  Lists without a repeated path stay
    so. *)
Theorem addToHistory_invariants fs (history : list (string * Batch.Operation))
    filePath op :
  let history' := Batch.addToHistory fs history filePath op in
  (Fs.existsSync fs filePath = false -> history' = history) /\
  (Fs.existsSync fs filePath = true ->
     head history' = Some (filePath, op) /\
     (length history' <= 20)%nat /\
     length (List.filter (fun e => String.eqb e.1 filePath) history') = 1%nat /\
     sublist (tail history') history /\
     (forall e, In e history' -> Fs.existsSync fs e.1 = true)) /\
  (NoDup (map fst history) -> NoDup (map fst history')).
Proof.
  intros history'. subst history'. unfold Batch.addToHistory.
  rewrite (statSync_existsSync fs filePath).
  destruct (kept_entries fs history filePath) as [Hsub Hkept].
  set (kept := List.filter (fun e => negb (String.eqb e.1 filePath))
                 (List.filter (fun e => Fs.existsSync fs e.1) history)) in *.
  destruct (Fs.statSync fs filePath) as [size|e] eqn:Hstat.
  2:{ split; [reflexivity|]. split; [discriminate|tauto]. }
  change (take 20 ((filePath, op) :: kept)) with ((filePath, op) :: take 19 kept).
  assert (Htake : forall e, In e (take 19 kept) ->
            e.1 <> filePath /\ Fs.existsSync fs e.1 = true).
  { intros e He. apply Hkept. eapply In_take, He. }
  split; [discriminate|]. split.
  - intros _. split; [reflexivity|]. split; [|split; [|split]].
    + cbn [length]. rewrite length_take. lia.
    + cbn [List.filter fst]. rewrite String.eqb_refl. cbn [length]. f_equal.
      rewrite filter_none; [reflexivity|].
      intros e He. apply String.eqb_neq. now apply Htake.
    + cbn [tail]. etransitivity; [apply sublist_take|exact Hsub].
    + intros e [<-|He]; [|now apply Htake].
      cbn [fst]. now rewrite statSync_existsSync, Hstat.
  - intros Hnd. cbn [map fst]. apply NoDup_cons. split.
    + rewrite list_elem_of_In, in_map_iff. intros (e & He1 & He2).
      now apply (Htake e He2).
    + eapply sublist_NoDup; [exact Hnd|].
      apply (fmap_sublist fst). etransitivity; [apply sublist_take|exact Hsub].
Qed.

End HistoryMore.

(** * Facts about the suggested output names *)

Module NamesFacts.
Import Names.

Lemma length_append (a b : string) :
  String.length (String.append a b) = (String.length a + String.length b)%nat.
Proof. induction a as [|c a IH]; simpl; [reflexivity|now rewrite IH]. Qed.

Lemma substring_whole (a : string) : substring 0 (String.length a) a = a.
Proof. induction a as [|c a IH]; simpl; [reflexivity|now rewrite IH]. Qed.

Lemma substring_append_l (a b : string) :
  substring 0 (String.length a) (String.append a b) = a.
Proof.
  induction a as [|c a IH]; simpl; [now destruct b|now rewrite IH].
Qed.

Lemma substring_append_r (a b : string) :
  substring (String.length a) (String.length b) (String.append a b) = b.
Proof.
  induction a as [|c a IH]; simpl; [apply substring_whole|exact IH].
Qed.

Lemma endsWith_append (a suffix : string) :
  endsWith (String.append a suffix) suffix = true.
Proof.
  unfold endsWith. rewrite length_append.
  replace (String.length a + String.length suffix - String.length suffix)%nat
    with (String.length a) by lia.
  rewrite substring_append_r, String.eqb_refl, andb_true_r.
  apply Nat.leb_le. lia.
Qed.

Lemma slice_end_append (a suffix : string) :
  slice_end (String.append a suffix) (String.length suffix) = a.
Proof.
  unfold slice_end. rewrite length_append.
  replace (String.length a + String.length suffix - String.length suffix)%nat
    with (String.length a) by lia.
  apply substring_append_l.
Qed.

Section Path.

Variable basename : string -> string.
Variable parse_name : string -> string.
Variable parse_ext : string -> string.

Local Abbreviation suggestOutputFilename :=
  (Names.suggestOutputFilename basename parse_name parse_ext).

(** X5: the name suggested for decrypting undoes the name suggested for
    encrypting: for a file stored under the name that
    [suggestOutputFilename(inputPath, 'encrypt')] gives, in whatever
    directory, [suggestOutputFilename(_, 'decrypt')] is the base name of
    [inputPath]. *)
Theorem suggest_decrypt_undoes_encrypt (inputPath encryptedPath : string) :
  basename encryptedPath = suggestOutputFilename inputPath Batch.encrypt ->
  suggestOutputFilename encryptedPath Batch.decrypt = basename inputPath.
Proof.
  intros Hname. unfold Names.suggestOutputFilename in *. rewrite Hname.
  rewrite endsWith_append. apply (slice_end_append (basename inputPath) ".enc").
Qed.

End Path.

Lemma suggest_decrypt_undoes_encrypt_witness :
  let suggest := Names.suggestOutputFilename (fun p => p) (fun p => p)
                   (fun _ => ""%string) in
  suggest "a.txt"%string Batch.encrypt = "a.txt.enc"%string /\
  suggest "a.txt.enc"%string Batch.decrypt = "a.txt"%string.
Proof.
  intros suggest. split; [reflexivity|].
  apply (suggest_decrypt_undoes_encrypt (fun p => p) (fun p => p)
           (fun _ => ""%string) "a.txt" "a.txt.enc").
  reflexivity.
Defined.

End NamesFacts.

(** * Facts about the secure buffers *)

Module SecureFacts.
Import Secure.

Lemma owns_spec (h : Heap) (sb : SecureBuffer) :
  owns h sb = true <->
  byteOffset (buffer sb) = 0%nat /\
  exists c, memory h !! block (buffer sb) = Some c /\
            length c = byteLength (buffer sb).
Proof.
  unfold owns. rewrite andb_true_iff, Nat.eqb_eq.
  destruct (memory h !! block (buffer sb)) as [c|].
  - rewrite Nat.eqb_eq. split.
    + intros [H1 H2]. eauto.
    + intros (H1 & c' & [= <-] & H2). auto.
  - split; [intros [_ [=]]|intros (_ & c' & [=] & _)].
Qed.

Lemma adjustOffset_id (x len : Z) : 0 <= x <= len -> adjustOffset x len = x.
Proof.
  intros H. unfold adjustOffset.
  destruct (Z.eqb_spec x 0) as [->|Hx]; [reflexivity|].
  destruct (Z.ltb_spec x 0); lia.
Qed.

Lemma adjustOffset_bounds (x len : Z) : 0 <= len -> 0 <= adjustOffset x len <= len.
Proof.
  intros H. unfold adjustOffset.
  destruct (Z.eqb_spec x 0); [lia|]. destruct (Z.ltb_spec x 0); lia.
Qed.

(** A slice of a view lies inside the view. *)
Lemma Buffer_slice_inside (b : Buffer) (start : Z) (end_ : option Z) :
  let v := Buffer_slice b start end_ in
  block v = block b /\
  (byteOffset b <= byteOffset v)%nat /\
  (byteOffset v + byteLength v <= byteOffset b + byteLength b)%nat.
Proof.
  intros v. subst v. unfold Buffer_slice. cbn [block byteOffset byteLength].
  set (len := Z.of_nat (byteLength b)).
  pose proof (adjustOffset_bounds start len ltac:(lia)) as Hs.
  assert (He : 0 <= match end_ with
                    | Some e => adjustOffset e len
                    | None => len
                    end <= len).
  { destruct end_ as [e|]; [apply adjustOffset_bounds|]; lia. }
  set (e := match end_ with Some e => adjustOffset e len | None => len end) in *.
  split; [reflexivity|]. split; [lia|].
  destruct (Z.ltb_spec (adjustOffset start len) e); lia.
Qed.

Lemma Buffer_slice_whole (b : Buffer) : Buffer_slice b 0 None = b \/
  Buffer_slice b 0 None
  = {| block := block b; byteOffset := byteOffset b; byteLength := 0 |}
    /\ byteLength b = 0%nat.
Proof.
  unfold Buffer_slice, adjustOffset. cbn [Z.eqb].
  destruct (Z.ltb_spec 0 (Z.of_nat (byteLength b))) as [H|H].
  - left. destruct b as [blk off len]. cbn in *. f_equal; lia.
  - right. split; [f_equal; lia|lia].
Qed.

(** Writing into a view of a block. *)
Lemma poke_inside (h : Heap) (b : Buffer) (pos : nat) (data c : list Z) :
  memory h !! block b = Some c ->
  (pos + length data <= byteLength b)%nat ->
  poke h b pos data
  = {| memory := <[block b := take (byteOffset b + pos) c ++ data
                               ++ drop (byteOffset b + pos + length data) c]>
                    (memory h);
       buffers := buffers h; strings := strings h; drawn := drawn h |}.
Proof.
  intros Hc Hfit. unfold poke. rewrite Hc.
  now rewrite (take_ge data) by lia.
Qed.

Lemma fill_inside (h : Heap) (b : Buffer) (v : Z) (c : list Z) :
  memory h !! block b = Some c ->
  fill h b v
  = {| memory := <[block b := take (byteOffset b) c ++ replicate (byteLength b) v
                               ++ drop (byteOffset b + byteLength b) c]> (memory h);
       buffers := buffers h; strings := strings h; drawn := drawn h |}.
Proof.
  intros Hc. unfold fill.
  rewrite (poke_inside h b 0 _ c Hc) by (rewrite length_replicate; lia).
  now rewrite length_replicate, !Nat.add_0_r.
Qed.

Lemma bytes_inside (h : Heap) (b : Buffer) (c : list Z) :
  memory h !! block b = Some c ->
  (byteOffset b + byteLength b <= length c)%nat ->
  length (bytes h b) = byteLength b.
Proof.
  intros Hc Hfit. unfold bytes. rewrite Hc. cbn [default from_option Datatypes.id].
  rewrite length_take, length_drop. lia.
Qed.

(** Reading back what a write on a view has put there. *)
Lemma take_drop_middle3 (a d z : list Z) :
  take (length d) (drop (length a) (a ++ d ++ z)) = d.
Proof. now rewrite drop_app_length, take_app_length. Qed.

Lemma owns_bytes (h : Heap) (sb : SecureBuffer) (c : list Z) :
  byteOffset (buffer sb) = 0%nat ->
  memory h !! block (buffer sb) = Some c ->
  length c = byteLength (buffer sb) ->
  bytes h (buffer sb) = c.
Proof.
  intros Hoff Hc Hlen. unfold bytes. rewrite Hc, Hoff.
  cbn [default from_option Datatypes.id drop]. apply take_ge. lia.
Qed.

Lemma sound_spec (h : Heap) (this : nat) :
  sound h this = true <->
  exists sb c,
    buffers h !! this = Some sb /\ byteOffset (buffer sb) = 0%nat /\
    memory h !! block (buffer sb) = Some c /\ length c = byteLength (buffer sb) /\
    (isCleared sb = true -> c = replicate (byteLength (buffer sb)) 0).
Proof.
  unfold sound. destruct (buffers h !! this) as [sb|].
  2:{ split; [discriminate|]. intros (sb & c & [=] & _). }
  rewrite andb_true_iff, owns_spec, orb_true_iff, negb_true_iff, bool_decide_eq_true.
  split.
  - intros [(Hoff & c & Hc & Hlen) Hz]. exists sb, c. repeat split; try assumption.
    intros Hcl. destruct Hz as [Hz|Hz]; [congruence|].
    now rewrite (owns_bytes h sb c) in Hz.
  - intros (sb' & c & [= <-] & Hoff & Hc & Hlen & Hz). split; [eauto|].
    destruct (isCleared sb); [right|now left].
    rewrite (owns_bytes h sb c) by assumption. now apply Hz.
Qed.

(** The three ways in which the methods change the heap keep the
    invariant: a new buffer on a new block, new bytes of the same length
    for a live buffer, and zeros for a buffer that is marked as cleared. *)
Lemma all_sound_alloc (h : Heap) (blk b : nat) (data : list Z) (d : nat) :
  all_sound h -> memory h !! blk = None -> buffers h !! b = None ->
  all_sound
    {| memory := <[blk := data]> (memory h);
       buffers := <[b := {| buffer := {| block := blk; byteOffset := 0;
                                         byteLength := length data |};
                            isCleared := false |}]> (buffers h);
       strings := strings h; drawn := d |}.
Proof.
  intros (Hs & Hinj & Hstr) Hblk Hb. split; [|split].
  - intros b' sb' Hl. cbn [buffers] in Hl. apply sound_spec. cbn [buffers memory].
    destruct (decide (b' = b)) as [->|Hne].
    + rewrite lookup_insert_eq in Hl. injection Hl as <-.
      exists {| buffer := {| block := blk; byteOffset := 0; byteLength := length data |};
                isCleared := false |}, data.
      cbn [buffer block byteOffset byteLength isCleared].
      rewrite !lookup_insert_eq. repeat split; try reflexivity. discriminate.
    + rewrite lookup_insert_ne in Hl by congruence.
      pose proof (Hs b' sb' Hl) as (sb2 & c & H1 & H2 & H3 & H4 & H5)%sound_spec.
      exists sb2, c. rewrite lookup_insert_ne by congruence.
      rewrite lookup_insert_ne by congruence. repeat split; assumption.
  - intros b1 b2 sb1 sb2 H1 H2 E. cbn [buffers] in H1, H2.
    destruct (decide (b1 = b)) as [->|N1], (decide (b2 = b)) as [->|N2];
      try reflexivity.
    + rewrite lookup_insert_eq in H1. rewrite lookup_insert_ne in H2 by congruence.
      injection H1 as <-. cbn [buffer block] in E.
      pose proof (Hs b2 sb2 H2) as (sb & c & H3 & _ & H4 & _)%sound_spec.
      congruence.
    + rewrite lookup_insert_eq in H2. rewrite lookup_insert_ne in H1 by congruence.
      injection H2 as <-. cbn [buffer block] in E.
      pose proof (Hs b1 sb1 H1) as (sb & c & H3 & _ & H4 & _)%sound_spec.
      congruence.
    + rewrite lookup_insert_ne in H1, H2 by congruence. eauto.
  - intros s r H. cbn [strings buffers] in *.
    destruct (decide (r = b)) as [->|N]; [rewrite lookup_insert_eq; eauto|].
    rewrite lookup_insert_ne by congruence. eauto.
Qed.

Lemma all_sound_overwrite (h : Heap) (b : nat) (sb : SecureBuffer)
    (c' : list Z) (cleared : bool) (d : nat) :
  all_sound h -> buffers h !! b = Some sb ->
  length c' = byteLength (buffer sb) ->
  (cleared = false -> isCleared sb = false) ->
  (cleared = true -> c' = replicate (byteLength (buffer sb)) 0) ->
  all_sound
    {| memory := <[block (buffer sb) := c']> (memory h);
       buffers := <[b := {| buffer := buffer sb; isCleared := cleared |}]> (buffers h);
       strings := strings h; drawn := d |}.
Proof.
  intros (Hs & Hinj & Hstr) Hb Hlen Hlive Hzero.
  pose proof (Hs b sb Hb) as (sb0 & c & H1 & Hoff & H3 & H4 & H5)%sound_spec.
  assert (sb0 = sb) as -> by congruence.
  split; [|split].
  - intros b' sb' Hl. cbn [buffers] in Hl. apply sound_spec. cbn [buffers memory].
    destruct (decide (b' = b)) as [->|Hne].
    + rewrite lookup_insert_eq in Hl. injection Hl as <-.
      exists {| buffer := buffer sb; isCleared := cleared |}, c'.
      cbn [buffer isCleared]. rewrite !lookup_insert_eq. repeat split; assumption.
    + rewrite lookup_insert_ne in Hl by congruence.
      pose proof (Hs b' sb' Hl) as (sb2 & c2 & G1 & G2 & G3 & G4 & G5)%sound_spec.
      assert (sb2 = sb') as -> by congruence.
      exists sb', c2. rewrite lookup_insert_ne by congruence.
      rewrite lookup_insert_ne; [repeat split; assumption|].
      intros E. apply Hne. symmetry. exact (Hinj b b' sb sb' Hb Hl E).
  - intros b1 b2 sb1 sb2 G1 G2 E. cbn [buffers] in G1, G2.
    destruct (decide (b1 = b)) as [->|N1], (decide (b2 = b)) as [->|N2];
      try reflexivity.
    + rewrite lookup_insert_eq in G1. rewrite lookup_insert_ne in G2 by congruence.
      injection G1 as <-. cbn [buffer] in E. exact (Hinj b b2 sb sb2 Hb G2 E).
    + rewrite lookup_insert_eq in G2. rewrite lookup_insert_ne in G1 by congruence.
      injection G2 as <-. cbn [buffer] in E. exact (Hinj b1 b sb1 sb G1 Hb E).
    + rewrite lookup_insert_ne in G1, G2 by congruence. eauto.
  - intros s r H. cbn [strings buffers] in *.
    destruct (decide (r = b)) as [->|N]; [rewrite lookup_insert_eq; eauto|].
    rewrite lookup_insert_ne by congruence. eauto.
Qed.

Lemma all_sound_same_buffers (h : Heap) (b : nat) (sb : SecureBuffer)
    (c' : list Z) (d : nat) :
  all_sound h -> buffers h !! b = Some sb -> isCleared sb = false ->
  length c' = byteLength (buffer sb) ->
  all_sound
    {| memory := <[block (buffer sb) := c']> (memory h);
       buffers := buffers h; strings := strings h; drawn := d |}.
Proof.
  intros Hall Hb Hlive Hlen.
  pose proof (all_sound_overwrite h b sb c' false d Hall Hb Hlen
                (fun _ => Hlive) ltac:(discriminate)) as H.
  replace (<[b := {| buffer := buffer sb; isCleared := false |}]> (buffers h))
    with (buffers h) in H; [exact H|].
  symmetry. apply insert_id. rewrite Hb. f_equal.
  destruct sb as [bf cl]. cbn in *. now subst.
Qed.

Lemma all_sound_string (h : Heap) (s r : nat) :
  all_sound h -> is_Some (buffers h !! r) ->
  all_sound
    {| memory := memory h; buffers := buffers h;
       strings := <[s := r]> (strings h); drawn := drawn h |}.
Proof.
  intros (Hs & Hinj & Hstr) Hr. split; [|split].
  - intros b sb Hb. cbn [buffers] in Hb. specialize (Hs b sb Hb).
    unfold sound in *. cbn [buffers]. rewrite Hb in *. exact Hs.
  - exact Hinj.
  - intros s' r' H. cbn [strings buffers] in *.
    destruct (decide (s' = s)) as [->|N].
    + rewrite lookup_insert_eq in H. now injection H as <-.
    + rewrite lookup_insert_ne in H by congruence. eauto.
Qed.

Section Sources.

Variable rng : nat -> Z.
Variable encode : string -> list Z.
Variable decode : list Z -> string.

Local Abbreviation SecureBuffer_new := (Secure.SecureBuffer_new rng).
Local Abbreviation clear := (Secure.clear rng).
Local Abbreviation slice := (Secure.slice rng).
Local Abbreviation toString := (Secure.toString decode).
Local Abbreviation SecureString_new := (Secure.SecureString_new rng encode).
Local Abbreviation getValue := (Secure.getValue decode).
Local Abbreviation string_clear := (Secure.string_clear rng).
Local Abbreviation clone := (Secure.clone rng encode).

Lemma SecureBuffer_new_spec (h : Heap) (size : Z) :
  0 <= size ->
  let n := Z.to_nat size in
  let blk := fresh (dom (memory h)) in
  let this := fresh (dom (buffers h)) in
  memory h !! blk = None /\ buffers h !! this = None /\
  SecureBuffer_new h size
  = Ok ({| memory := <[blk := randomBytes rng (drawn h) n]> (memory h);
           buffers := <[this := {| buffer := {| block := blk; byteOffset := 0;
                                                byteLength := n |};
                                   isCleared := false |}]> (buffers h);
           strings := strings h; drawn := drawn h + n |}, this).
Proof.
  intros Hsize n blk this.
  split; [apply not_elem_of_dom, is_fresh|].
  split; [apply not_elem_of_dom, is_fresh|].
  unfold Secure.SecureBuffer_new. destruct (Z.ltb_spec size 0); [lia|].
  fold n blk this. unfold randomFillSync. cbn [byteLength drawn].
  erewrite poke_inside; cycle 1.
  - cbn [memory block]. apply lookup_insert_eq.
  - cbn [byteLength]. rewrite EngineFacts.length_randomBytes. lia.
  - cbn [memory buffers strings drawn block byteOffset].
    rewrite insert_insert_eq, EngineFacts.length_randomBytes.
    cbn [take app Nat.add]. rewrite drop_ge by (rewrite length_replicate; lia).
    now rewrite app_nil_r.
Qed.

(** What [clear] does to a buffer that owns its block. *)
Lemma clear_owned (h : Heap) (this : nat) (sb : SecureBuffer) :
  buffers h !! this = Some sb -> isCleared sb = false -> owns h sb = true ->
  clear h this
  = {| memory := <[block (buffer sb) := replicate (byteLength (buffer sb)) 0]> (memory h);
       buffers := <[this := {| buffer := buffer sb; isCleared := true |}]> (buffers h);
       strings := strings h;
       drawn := drawn h + byteLength (buffer sb) |}.
Proof.
  intros Hthis Hlive (Hoff & c & Hc & Hlen)%owns_spec. unfold Secure.clear.
  rewrite Hthis, Hlive.
  set (b := buffer sb) in *. set (n := byteLength b) in *.
  assert (Hfull : forall (c' : list Z) (d : list Z), length c' = n -> length d = n ->
            take (byteOffset b) c' ++ d ++ drop (byteOffset b + n) c' = d).
  { intros c' d Hc' Hd. rewrite Hoff. cbn [take app Nat.add].
    rewrite drop_ge by lia. apply app_nil_r. }
  rewrite (fill_inside h b 0 c Hc). fold n.
  rewrite Hfull by (try assumption; apply length_replicate).
  erewrite (fill_inside _ b 255); [|cbn [memory]; apply lookup_insert_eq].
  fold n. rewrite Hfull by apply length_replicate.
  cbn [memory buffers strings drawn]. rewrite insert_insert_eq.
  unfold randomFillSync. cbn [drawn].
  erewrite poke_inside; cycle 1.
  { cbn [memory]. apply lookup_insert_eq. }
  { fold n. rewrite EngineFacts.length_randomBytes. lia. }
  cbn [memory buffers strings drawn]. rewrite insert_insert_eq. fold n.
  rewrite Nat.add_0_r, EngineFacts.length_randomBytes.
  rewrite Hfull by (try apply length_replicate; apply EngineFacts.length_randomBytes).
  erewrite (fill_inside _ b 0); [|cbn [memory]; apply lookup_insert_eq].
  fold n. rewrite Hfull by (try apply length_replicate; apply EngineFacts.length_randomBytes).
  unfold set_cleared. cbn [memory buffers strings drawn].
  now rewrite insert_insert_eq.
Qed.

(** X23: on a live secure buffer, [write(data, offset)] succeeds exactly
    when [offset >= 0] and [offset + data.length] is within the buffer; it
    then returns the number of bytes of [data], [read(offset, offset + n)]
    gives back [data], and the bytes before and after are as they were. *)
Theorem write_then_read (h : Heap) (this : nat) (sb : SecureBuffer)
    (data : list Z) (offset : Z) :
  buffers h !! this = Some sb -> isCleared sb = false -> owns h sb = true ->
  let len := Z.of_nat (byteLength (buffer sb)) in
  let old := bytes h (buffer sb) in
  ((exists r, write h this data offset = Ok r)
   <-> 0 <= offset /\ offset + Z.of_nat (length data) <= len) /\
  (forall h' n, write h this data offset = Ok (h', n) ->
     n = Z.of_nat (length data) /\
     (exists view, read h' this offset (Some (offset + n)) = Ok view /\
                   bytes h' view = data) /\
     bytes h' (buffer sb)
     = take (Z.to_nat offset) old ++ data
       ++ drop (Z.to_nat offset + length data) old).
Proof.
  intros Hthis Hlive (Hoff & c & Hc & Hlen)%owns_spec len old.
  assert (Hold : old = c).
  { subst old. unfold bytes. rewrite Hc, Hoff. cbn [default from_option Datatypes.id drop].
    apply take_ge. lia. }
  unfold write. rewrite Hthis, Hlive. fold len.
  destruct (Z.ltb_spec len (offset + Z.of_nat (length data))) as [Hbig|Hfit].
  { split; [|discriminate]. split; [intros [r [=]]|lia]. }
  destruct (Z.ltb_spec offset 0) as [Hneg|Hpos].
  { split; [|discriminate]. split; [intros [r [=]]|lia]. }
  split; [split; [lia|eauto]|].
  intros h' n [= <- <-]. split; [reflexivity|].
  rewrite (poke_inside h (buffer sb) (Z.to_nat offset) data c Hc) by lia.
  rewrite Hoff. cbn [Nat.add].
  set (o := Z.to_nat offset).
  assert (Ho : length (take o c) = o) by (rewrite length_take; lia).
  split.
  - unfold read. cbn [buffers]. rewrite Hthis, Hlive. eexists. split; [reflexivity|].
    unfold bytes, Buffer_slice. cbn [memory block byteOffset byteLength].
    rewrite lookup_insert_eq. cbn [default from_option Datatypes.id].
    fold len. rewrite !adjustOffset_id by lia. rewrite Hoff. cbn [Nat.add]. fold o.
    destruct (Z.ltb_spec offset (offset + Z.of_nat (length data))) as [Hlt|Hge].
    + replace (Z.to_nat (offset + Z.of_nat (length data) - offset)) with (length data)
        by lia.
      rewrite <- Ho at 1. apply take_drop_middle3.
    + assert (length data = 0%nat) as Hnil by lia.
      destruct data; [|discriminate]. apply take_0.
  - unfold bytes. cbn [memory]. rewrite lookup_insert_eq, Hoff, Hold.
    cbn [default from_option Datatypes.id drop].
    apply take_ge. rewrite !length_app, length_drop. lia.
Qed.

(** X24: [clear] on a live secure buffer leaves all its bytes at zero and
    marks it cleared; views handed out earlier by [read] show zeros too,
    because they share the buffer's memory; afterwards [write], [read],
    [toString] and [slice] throw, [equals] answers false for every other
    buffer and for the buffer itself, and a second [clear] does nothing. *)
Theorem clear_wipes (h : Heap) (this : nat) (sb : SecureBuffer) :
  buffers h !! this = Some sb -> isCleared sb = false -> owns h sb = true ->
  let h' := clear h this in
  get_cleared h' this = true /\
  bytes h' (buffer sb) = replicate (byteLength (buffer sb)) 0 /\
  (forall start end_ view,
     read h this start end_ = Ok view ->
     bytes h' view = replicate (byteLength view) 0) /\
  (forall data offset,
     write h' this data offset = Err (JsError "Cannot write to cleared SecureBuffer")) /\
  (forall start end_,
     read h' this start end_ = Err (JsError "Cannot read from cleared SecureBuffer")) /\
  toString h' this = Err (JsError "Cannot convert cleared SecureBuffer to string") /\
  (forall start end_,
     slice h' this start end_ = Err (JsError "Cannot slice cleared SecureBuffer")) /\
  (forall other, equals h' this other = false /\ equals h' other this = false) /\
  clear h' this = h'.
Proof.
  intros Hthis Hlive Hown h'. subst h'.
  rewrite (clear_owned h this sb Hthis Hlive Hown).
  apply owns_spec in Hown as (Hoff & c & Hc & Hlen).
  set (h' := {| memory := _ |}).
  assert (Hnow : buffers h' !! this = Some {| buffer := buffer sb; isCleared := true |})
    by apply lookup_insert_eq.
  assert (Hzero : forall v, block v = block (buffer sb) ->
            (byteOffset v + byteLength v <= byteLength (buffer sb))%nat ->
            bytes h' v = replicate (byteLength v) 0).
  { intros v Hblk Hin. unfold bytes. cbn [memory h']. rewrite Hblk, lookup_insert_eq.
    cbn [default from_option Datatypes.id].
    rewrite drop_replicate, take_replicate. f_equal. lia. }
  repeat apply conj.
  - unfold get_cleared. now rewrite Hnow.
  - apply Hzero; [reflexivity|lia].
  - intros start end_ view Hread. unfold read in Hread.
    rewrite Hthis, Hlive in Hread. injection Hread as <-.
    destruct (Buffer_slice_inside (buffer sb) start end_) as (Hb & _ & Hin).
    apply Hzero; [exact Hb|lia].
  - intros data offset. unfold write. now rewrite Hnow.
  - intros start end_. unfold read. now rewrite Hnow.
  - unfold Secure.toString. now rewrite Hnow.
  - intros start end_. unfold Secure.slice. now rewrite Hnow.
  - intros other. unfold equals. rewrite Hnow. cbn [isCleared orb].
    destruct (buffers h' !! other) as [a|]; [|now split].
    now rewrite orb_true_r.
  - unfold Secure.clear. now rewrite Hnow.
Qed.

Lemma bytes_slice_whole (h : Heap) (b : Buffer) :
  bytes h (Buffer_slice b 0 None) = bytes h b.
Proof.
  destruct (Buffer_slice_whole b) as [->|[-> Hz]]; [reflexivity|].
  unfold bytes. cbn [block byteOffset byteLength]. now rewrite Hz.
Qed.

(** What [slice] does on a buffer that owns its block. *)
Lemma slice_spec (h : Heap) (this : nat) (sb : SecureBuffer)
    (start : Z) (end_ : option Z) (c : list Z) :
  buffers h !! this = Some sb -> isCleared sb = false ->
  byteOffset (buffer sb) = 0%nat ->
  memory h !! block (buffer sb) = Some c ->
  length c = byteLength (buffer sb) ->
  let sliced := Buffer_slice (buffer sb) start end_ in
  let n := byteLength sliced in
  let blk := fresh (dom (memory h)) in
  let new := fresh (dom (buffers h)) in
  slice h this start end_
  = Ok ({| memory := <[block (buffer sb) :=
                         take (byteOffset sliced) c ++ replicate n 0
                         ++ drop (byteOffset sliced + n) c]>
                       (<[blk := bytes h sliced]> (memory h));
           buffers := <[new := {| buffer := {| block := blk; byteOffset := 0;
                                               byteLength := n |};
                                  isCleared := false |}]> (buffers h);
           strings := strings h;
           drawn := drawn h + n |}, new).
Proof.
  intros Hthis Hlive Hoff Hc Hlen sliced n blk new.
  destruct (Buffer_slice_inside (buffer sb) start end_) as (Hblk & _ & Hin).
  fold sliced in Hblk, Hin. fold n in Hin.
  destruct (SecureBuffer_new_spec h (Z.of_nat n) ltac:(lia)) as (Hfb & Hfn & Hnew).
  rewrite Nat2Z.id in Hnew. fold blk new in Hfb, Hfn, Hnew.
  assert (Hne : blk <> block (buffer sb)) by congruence.
  unfold Secure.slice. rewrite Hthis, Hlive. fold sliced n. rewrite Hnew.
  cbn [buffers]. rewrite lookup_insert_eq. cbn [buffer].
  set (h1 := {| memory := <[blk := randomBytes rng (drawn h) n]> (memory h) |}).
  assert (Hsame : bytes h1 sliced = bytes h sliced).
  { unfold bytes. cbn [memory h1]. rewrite Hblk.
    now rewrite lookup_insert_ne by exact Hne. }
  rewrite Hsame.
  assert (Hdata : length (bytes h sliced) = n).
  { apply (bytes_inside h sliced c); [now rewrite Hblk|lia]. }
  erewrite (poke_inside h1); cycle 1.
  { cbn [memory h1 block]. apply lookup_insert_eq. }
  { cbn [byteLength]. lia. }
  cbn [block byteOffset Nat.add take app memory buffers strings drawn h1].
  rewrite insert_insert_eq.
  rewrite (drop_ge (randomBytes rng (drawn h) n))
    by (rewrite EngineFacts.length_randomBytes; lia).
  rewrite app_nil_r.
  erewrite fill_inside; cycle 1.
  { cbn [memory]. rewrite Hblk. rewrite lookup_insert_ne by exact Hne. exact Hc. }
  cbn [memory buffers strings drawn]. fold n. now rewrite Hblk.
Qed.

(** X25: [slice(start, end)] on a live secure buffer returns a new secure
    buffer that holds the bytes of the range, and leaves that range of the
    source filled with zeros (the bytes outside the range stay): the
    temporary view it zeroes is a view on the source's own memory.  With
    the default arguments the whole source is zeroed, and it is not marked
    as cleared. *)
Theorem slice_zeroes_source (h : Heap) (this : nat) (sb : SecureBuffer)
    (start : Z) (end_ : option Z) :
  buffers h !! this = Some sb -> isCleared sb = false -> owns h sb = true ->
  let range := Buffer_slice (buffer sb) start end_ in
  let old := bytes h (buffer sb) in
  exists h' new new_sb,
    slice h this start end_ = Ok (h', new) /\
    new <> this /\
    buffers h' !! new = Some new_sb /\ isCleared new_sb = false /\
    bytes h' (buffer new_sb) = bytes h range /\
    bytes h' range = replicate (byteLength range) 0 /\
    bytes h' (buffer sb)
    = take (byteOffset range) old ++ replicate (byteLength range) 0
      ++ drop (byteOffset range + byteLength range) old /\
    get_cleared h' this = false /\
    (start = 0 -> end_ = None ->
     bytes h' (buffer sb) = replicate (byteLength (buffer sb)) 0).
Proof.
  intros Hthis Hlive (Hoff & c & Hc & Hlen)%owns_spec range old.
  destruct (Buffer_slice_inside (buffer sb) start end_) as (Hblk & _ & Hin).
  fold range in Hblk, Hin.
  assert (Hold : old = c) by (apply owns_bytes; assumption).
  assert (Hfb : memory h !! fresh (dom (memory h)) = None)
    by apply not_elem_of_dom, is_fresh.
  assert (Hfn : buffers h !! fresh (dom (buffers h)) = None)
    by apply not_elem_of_dom, is_fresh.
  assert (Hne : fresh (dom (memory h)) <> block (buffer sb)) by congruence.
  assert (Hnew : fresh (dom (buffers h)) <> this) by congruence.
  assert (Hdata : length (bytes h range) = byteLength range).
  { apply (bytes_inside h range c); [now rewrite Hblk|lia]. }
  pose proof (slice_spec h this sb start end_ c Hthis Hlive Hoff Hc Hlen) as Hrun.
  cbv zeta in Hrun. fold range in Hrun.
  set (h' := {| memory := _ |}) in Hrun.
  assert (Hsrc : bytes h' (buffer sb)
                 = take (byteOffset range) c ++ replicate (byteLength range) 0
                   ++ drop (byteOffset range + byteLength range) c).
  { unfold bytes. cbn [memory h']. rewrite lookup_insert_eq, Hoff.
    cbn [default from_option Datatypes.id drop]. apply take_ge.
    rewrite !length_app, length_take, length_replicate, length_drop. lia. }
  exists h', (fresh (dom (buffers h))),
    {| buffer := {| block := fresh (dom (memory h)); byteOffset := 0;
                    byteLength := byteLength range |};
       isCleared := false |}.
  split; [exact Hrun|]. split; [exact Hnew|].
  split; [cbn [buffers h']; apply lookup_insert_eq|].
  split; [reflexivity|]. repeat apply conj.
  - unfold bytes at 1. cbn [memory h' buffer block byteOffset byteLength].
    rewrite lookup_insert_ne by congruence. rewrite lookup_insert_eq.
    cbn [default from_option Datatypes.id drop]. apply take_ge. lia.
  - unfold bytes. cbn [memory h']. rewrite Hblk, lookup_insert_eq.
    cbn [default from_option Datatypes.id].
    assert (Ht : length (take (byteOffset range) c) = byteOffset range)
      by (rewrite length_take; lia).
    rewrite <- Ht at 1. rewrite <- (length_replicate (byteLength range) 0) at 1.
    apply take_drop_middle3.
  - now rewrite Hold.
  - unfold get_cleared. cbn [buffers h'].
    rewrite lookup_insert_ne by exact Hnew. now rewrite Hthis.
  - intros -> ->. rewrite Hsrc.
    destruct (Buffer_slice_whole (buffer sb)) as [E|[E Hz]]; fold range in E; rewrite E.
    + rewrite Hoff. cbn [take app Nat.add]. rewrite drop_ge by lia. apply app_nil_r.
    + cbn [byteOffset byteLength]. rewrite Hoff, Hz. cbn [take app replicate Nat.add drop].
      destruct c; [reflexivity|cbn in Hlen; lia].
Qed.

Lemma SecureString_new_spec (h : Heap) (value : string) :
  let data := encode value in
  let blk := fresh (dom (memory h)) in
  let b := fresh (dom (buffers h)) in
  let s := fresh (dom (strings h)) in
  SecureString_new h value
  = Ok ({| memory := <[blk := data]> (memory h);
           buffers := <[b := {| buffer := {| block := blk; byteOffset := 0;
                                             byteLength := length data |};
                                isCleared := false |}]> (buffers h);
           strings := <[s := b]> (strings h);
           drawn := drawn h + length data |}, s).
Proof.
  intros data blk b s. unfold Secure.SecureString_new. fold data.
  destruct (SecureBuffer_new_spec h (Z.of_nat (length data)) ltac:(lia))
    as (_ & _ & Hnew).
  rewrite Nat2Z.id in Hnew. fold blk b in Hnew. rewrite Hnew.
  unfold write. cbn [buffers]. rewrite lookup_insert_eq. cbn [isCleared buffer byteLength].
  destruct (Z.ltb_spec (Z.of_nat (length data)) (0 + Z.of_nat (length data))); [lia|].
  cbn [Z.ltb Z.compare].
  erewrite poke_inside; cycle 1.
  { cbn [memory block]. apply lookup_insert_eq. }
  { cbn [byteLength Z.to_nat]. lia. }
  cbn [memory buffers strings drawn block byteOffset Z.to_nat Nat.add take app].
  rewrite insert_insert_eq, drop_ge, app_nil_r
    by (rewrite EngineFacts.length_randomBytes; lia).
  reflexivity.
Qed.

(** X26: [clone()] of a live secure string returns a new secure string
    with the value the original had, and leaves the original holding only
    zero bytes, of the same length and not marked as cleared: the clone is
    made with [slice()], which zeroes its source. *)
Theorem clone_empties_original (h : Heap) (this ref : nat) (sb : SecureBuffer) :
  strings h !! this = Some ref ->
  buffers h !! ref = Some sb -> isCleared sb = false -> owns h sb = true ->
  exists h' copy,
    clone h this = Ok (h', copy) /\
    copy <> this /\
    getValue h' copy = getValue h this /\
    getValue h this = Ok (decode (bytes h (buffer sb))) /\
    getValue h' this = Ok (decode (replicate (byteLength (buffer sb)) 0)) /\
    string_cleared h' this = false.
Proof.
  intros Hthis Href Hlive (Hoff & c & Hc & Hlen)%owns_spec.
  assert (Hval : getValue h this = Ok (decode (bytes h (buffer sb)))).
  { unfold Secure.getValue, Secure.toString. now rewrite Hthis, Href, Hlive. }
  unfold Secure.clone.
  assert (Hsc : string_cleared h this = false).
  { unfold string_cleared, get_cleared. now rewrite Hthis, Href. }
  rewrite Hsc, SecureString_new_spec.
  set (data := encode "").
  set (blk0 := fresh (dom (memory h))). set (b0 := fresh (dom (buffers h))).
  set (copy := fresh (dom (strings h))).
  assert (Hfm : memory h !! blk0 = None) by apply not_elem_of_dom, is_fresh.
  assert (Hfb : buffers h !! b0 = None) by apply not_elem_of_dom, is_fresh.
  assert (Hfs : strings h !! copy = None) by apply not_elem_of_dom, is_fresh.
  assert (Hn1 : blk0 <> block (buffer sb)) by congruence.
  assert (Hn2 : b0 <> ref) by congruence.
  assert (Hn3 : copy <> this) by congruence.
  set (h1 := {| memory := <[blk0 := data]> (memory h) |}).
  unfold Secure.string_clear at 1 2. cbn [strings h1]. rewrite lookup_insert_eq.
  erewrite (clear_owned h1 b0); cycle 1.
  { cbn [buffers h1]. apply lookup_insert_eq. }
  { reflexivity. }
  { apply owns_spec. split; [reflexivity|]. exists data. split; [|reflexivity].
    cbn [memory h1 buffer block]. apply lookup_insert_eq. }
  cbn [buffer block byteLength memory buffers strings drawn h1].
  rewrite !insert_insert_eq, lookup_insert_ne by exact Hn3. rewrite Hthis.
  set (h2 := {| memory := <[blk0 := replicate (length data) 0]> (memory h) |}).
  assert (Hthis2 : strings h2 !! this = Some ref).
  { cbn [strings h2]. now rewrite lookup_insert_ne by exact Hn3. }
  assert (Href2 : buffers h2 !! ref = Some sb).
  { cbn [buffers h2]. now rewrite lookup_insert_ne by exact Hn2. }
  assert (Hc2 : memory h2 !! block (buffer sb) = Some c).
  { cbn [memory h2]. now rewrite lookup_insert_ne by exact Hn1. }
  rewrite (slice_spec h2 ref sb 0 None c Href2 Hlive Hoff Hc2 Hlen).
  set (range := Buffer_slice (buffer sb) 0 None).
  set (blk := fresh (dom (memory h2))). set (new := fresh (dom (buffers h2))).
  assert (Hgm : memory h2 !! blk = None) by apply not_elem_of_dom, is_fresh.
  assert (Hgb : buffers h2 !! new = None) by apply not_elem_of_dom, is_fresh.
  assert (Hn4 : blk <> block (buffer sb)) by congruence.
  assert (Hn5 : new <> ref) by congruence.
  assert (Hrange : bytes h2 range = c).
  { unfold range. rewrite bytes_slice_whole. now apply owns_bytes. }
  assert (Hrl : byteLength range = byteLength (buffer sb) /\ byteOffset range = 0%nat).
  { unfold range.
    destruct (Buffer_slice_whole (buffer sb)) as [->|[-> Hz]]; cbn; lia. }
  destruct Hrl as [Hrl Hro].
  eexists _, copy. split; [reflexivity|]. split; [exact Hn3|].
  rewrite Hval. repeat apply conj.
  - unfold Secure.getValue, Secure.toString. cbn [strings buffers].
    rewrite !lookup_insert_eq. cbn [isCleared buffer]. do 2 f_equal.
    unfold bytes at 1. cbn [memory block byteOffset byteLength].
    rewrite lookup_insert_ne by congruence. rewrite lookup_insert_eq, Hrange.
    cbn [default from_option Datatypes.id drop].
    rewrite drop_0, take_ge by lia. symmetry. now apply owns_bytes.
  - reflexivity.
  - unfold Secure.getValue, Secure.toString. cbn [strings buffers].
    rewrite lookup_insert_ne by exact Hn3. rewrite Hthis2.
    rewrite lookup_insert_ne by exact Hn5. rewrite Href2, Hlive. do 2 f_equal.
    unfold bytes. cbn [memory]. rewrite lookup_insert_eq, Hoff, Hro, Hrl.
    cbn [default from_option Datatypes.id drop take app Nat.add].
    rewrite drop_0, take_0, (drop_ge c), app_nil_r by lia. cbn [app].
    apply take_ge. rewrite length_replicate. lia.
  - unfold string_cleared, get_cleared. cbn [strings buffers].
    rewrite lookup_insert_ne by exact Hn3. rewrite Hthis2.
    rewrite lookup_insert_ne by exact Hn5. now rewrite Href2.
Qed.

(** Clearing one sound buffer keeps every sound buffer sound and every
    cleared buffer cleared. *)
Lemma clear_sound (h : Heap) (x b : nat) :
  sound h x = true -> sound h b = true ->
  sound (clear h x) b = true /\
  (get_cleared h b = true -> get_cleared (clear h x) b = true) /\
  get_cleared (clear h x) x = true /\
  strings (clear h x) = strings h.
Proof.
  intros Hx Hb.
  pose proof Hx as (sx & cx & Hsx & Hox & Hcx & Hlx & Hzx)%sound_spec.
  destruct (isCleared sx) eqn:Hlive.
  { assert (E : clear h x = h) by (unfold Secure.clear; now rewrite Hsx, Hlive).
    rewrite E. repeat split; try assumption; try tauto.
    unfold get_cleared. now rewrite Hsx. }
  rewrite (clear_owned h x sx Hsx Hlive) by (apply owns_spec; eauto).
  set (h' := {| memory := _ |}).
  assert (Hx' : get_cleared h' x = true).
  { unfold get_cleared. cbn [buffers h']. now rewrite lookup_insert_eq. }
  split; [|split; [|split; [exact Hx'|reflexivity]]].
  - apply sound_spec.
    destruct (decide (b = x)) as [->|Hne].
    + exists {| buffer := buffer sx; isCleared := true |}, (replicate (byteLength (buffer sx)) 0).
      cbn [buffers memory h' buffer]. rewrite !lookup_insert_eq.
      repeat split; try assumption. apply length_replicate.
    + apply sound_spec in Hb as (sb & cb & Hsb & Hob & Hcb & Hlb & Hzb).
      destruct (decide (block (buffer sb) = block (buffer sx))) as [E|E].
      * exists sb, (replicate (byteLength (buffer sb)) 0).
        cbn [buffers memory h']. rewrite lookup_insert_ne by congruence.
        rewrite E, lookup_insert_eq.
        assert (byteLength (buffer sb) = byteLength (buffer sx)) as ->
          by (rewrite E in Hcb; congruence).
        repeat split; try assumption. apply length_replicate.
      * exists sb, cb. cbn [buffers memory h'].
        rewrite !lookup_insert_ne by congruence. repeat split; assumption.
  - unfold get_cleared. cbn [buffers h'].
    destruct (decide (b = x)) as [->|Hne]; [now rewrite lookup_insert_eq|].
    now rewrite lookup_insert_ne by congruence.
Qed.

Lemma foldl_clear_sound (l : list nat) (h : Heap) :
  Forall (fun x => sound h x = true) l ->
  let h' := foldl clear h l in
  strings h' = strings h /\
  (forall b, sound h b = true ->
     sound h' b = true /\ (get_cleared h b = true -> get_cleared h' b = true)) /\
  Forall (fun x => get_cleared h' x = true) l.
Proof.
  revert h. induction l as [|x l IH]; intros h Hall h'.
  - subst h'. cbn. repeat split; auto.
  - apply Forall_cons in Hall as [Hx Hl]. subst h'. cbn [foldl].
    assert (Hl' : Forall (fun y => sound (clear h x) y = true) l).
    { eapply Forall_impl; [exact Hl|]. intros y Hy. now apply clear_sound. }
    destruct (IH (clear h x) Hl') as (Hs & Hkeep & Hdone).
    destruct (clear_sound h x x Hx Hx) as (Hsx & _ & Hcx & Hstr).
    split; [congruence|]. split.
    + intros b Hb. destruct (clear_sound h x b Hx Hb) as (H1 & H2 & _).
      destruct (Hkeep b H1) as [H3 H4]. split; [exact H3|auto].
    + apply Forall_cons. split; [|exact Hdone]. now apply Hkeep.
Qed.

Lemma foldl_string_clear_sound (l : list nat) (h : Heap) :
  Forall (fun s => sound_string h s = true) l ->
  let h' := foldl string_clear h l in
  strings h' = strings h /\
  (forall b, sound h b = true ->
     sound h' b = true /\ (get_cleared h b = true -> get_cleared h' b = true)) /\
  Forall (fun s => string_cleared h' s = true) l.
Proof.
  revert h. induction l as [|s l IH]; intros h Hall h'.
  - subst h'. cbn. repeat split; auto.
  - apply Forall_cons in Hall as [Hs Hl]. subst h'. cbn [foldl].
    unfold sound_string in Hs.
    destruct (strings h !! s) as [x|] eqn:Hsx; [|discriminate].
    assert (E : string_clear h s = clear h x)
      by (unfold Secure.string_clear; now rewrite Hsx).
    rewrite E.
    destruct (clear_sound h x x Hs Hs) as (Hxx & _ & Hcx & Hstr).
    assert (Hl' : Forall (fun t => sound_string (clear h x) t = true) l).
    { eapply Forall_impl; [exact Hl|]. intros t Ht. unfold sound_string in *.
      rewrite Hstr. destruct (strings h !! t); [|discriminate].
      now apply clear_sound. }
    destruct (IH (clear h x) Hl') as (Hs' & Hkeep & Hdone).
    split; [congruence|]. split.
    + intros b Hb. destruct (clear_sound h x b Hs Hb) as (H1 & H2 & _).
      destruct (Hkeep b H1) as [H3 H4]. split; [exact H3|auto].
    + apply Forall_cons. split; [|exact Hdone].
      unfold string_cleared. rewrite Hs', Hstr, Hsx. now apply Hkeep.
Qed.

Lemma sound_cleared_zero (h : Heap) (b : nat) :
  sound h b = true -> get_cleared h b = true ->
  exists sb, buffers h !! b = Some sb /\ isCleared sb = true /\
             bytes h (buffer sb) = replicate (byteLength (buffer sb)) 0.
Proof.
  intros (sb & c & Hsb & Hoff & Hc & Hlen & Hz)%sound_spec Hcl.
  unfold get_cleared in Hcl. rewrite Hsb in Hcl.
  exists sb. repeat split; try assumption.
  rewrite (owns_bytes h sb c) by assumption. now apply Hz.
Qed.

(** X27: [destroy] on a manager that is in use clears every buffer and
    every string it tracks (each is marked as cleared and holds zeros
    only), forgets them, and marks the manager as destroyed: afterwards
    [createBuffer] and [createString] throw, and a second [destroy] does
    nothing. *)
Theorem destroy_clears_everything (m : Manager) (h : Heap) :
  isDestroyed m = false ->
  forallb (sound h) (tracked_buffers m) = true ->
  forallb (sound_string h) (tracked_strings m) = true ->
  let m' := (Secure.destroy rng m h).1 in
  let h' := (Secure.destroy rng m h).2 in
  isDestroyed m' = true /\ tracked_buffers m' = [] /\ tracked_strings m' = [] /\
  (forall b, In b (tracked_buffers m) ->
     exists sb, buffers h' !! b = Some sb /\ isCleared sb = true /\
                bytes h' (buffer sb) = replicate (byteLength (buffer sb)) 0) /\
  (forall s, In s (tracked_strings m) ->
     string_cleared h' s = true /\
     getValue h' s = Err (JsError "Cannot convert cleared SecureBuffer to string")) /\
  (forall size, Secure.createBuffer rng m' h' size = Err destroyed_error) /\
  (forall value, Secure.createString rng encode m' h' value = Err destroyed_error) /\
  Secure.destroy rng m' h' = (m', h').
Proof.
  intros Hlive Hb Hs m' h'. subst m' h'.
  unfold Secure.destroy, Secure.clearAll. rewrite Hlive.
  cbn [fst snd tracked_buffers tracked_strings isDestroyed].
  rewrite forallb_forall in Hb, Hs.
  assert (Hb' : Forall (fun x => sound h x = true) (tracked_buffers m))
    by (apply List.Forall_forall; exact Hb).
  destruct (foldl_clear_sound _ h Hb') as (Hstr1 & Hkeep1 & Hdone1).
  set (h1 := foldl clear h (tracked_buffers m)) in *.
  assert (Hs' : Forall (fun s => sound_string h1 s = true) (tracked_strings m)).
  { apply List.Forall_forall. intros s Hin. specialize (Hs s Hin).
    unfold sound_string in *. rewrite Hstr1.
    destruct (strings h !! s); [|discriminate]. now apply Hkeep1. }
  destruct (foldl_string_clear_sound _ h1 Hs') as (Hstr2 & Hkeep2 & Hdone2).
  set (h2 := foldl string_clear h1 (tracked_strings m)) in *.
  repeat apply conj; try reflexivity.
  - intros b Hin. apply sound_cleared_zero.
    + apply Hkeep2, Hkeep1, Hb, Hin.
    + apply Hkeep2; [apply Hkeep1, Hb, Hin|].
      rewrite List.Forall_forall in Hdone1. now apply Hdone1.
  - intros s Hin. rewrite List.Forall_forall in Hdone2. specialize (Hdone2 s Hin).
    split; [exact Hdone2|].
    unfold string_cleared, get_cleared in Hdone2.
    unfold Secure.getValue, Secure.toString.
    destruct (strings h2 !! s) as [x|]; [|discriminate].
    destruct (buffers h2 !! x) as [sb|]; [|discriminate]. now rewrite Hdone2.
Qed.

Lemma all_sound_empty : all_sound empty_heap.
Proof.
  split; [|split]; cbn; intros *; rewrite lookup_empty; discriminate.
Qed.

Lemma sound_owner (h : Heap) (b : nat) (sb : SecureBuffer) :
  all_sound h -> buffers h !! b = Some sb ->
  byteOffset (buffer sb) = 0%nat /\
  exists c, memory h !! block (buffer sb) = Some c /\
            length c = byteLength (buffer sb).
Proof.
  intros (Hs & _) Hb.
  pose proof (Hs b sb Hb) as (sb0 & c & H1 & Hoff & H3 & H4 & _)%sound_spec.
  assert (sb0 = sb) as -> by congruence. eauto.
Qed.

Lemma new_all_sound (h : Heap) (size : Z) (h' : Heap) (b : nat) :
  all_sound h -> SecureBuffer_new h size = Ok (h', b) -> all_sound h'.
Proof.
  intros Hall Hnew.
  destruct (Z.ltb_spec size 0) as [Hneg|Hpos].
  { unfold Secure.SecureBuffer_new in Hnew.
    destruct (Z.ltb_spec size 0); [discriminate|lia]. }
  destruct (SecureBuffer_new_spec h size Hpos) as (Hfb & Hfn & Hrun).
  rewrite Hrun in Hnew. injection Hnew as <- <-.
  pose proof (all_sound_alloc h _ _ (randomBytes rng (drawn h) (Z.to_nat size))
                (drawn h + Z.to_nat size) Hall Hfb Hfn) as H.
  now rewrite EngineFacts.length_randomBytes in H.
Qed.

Lemma write_all_sound (h : Heap) (this : nat) (data : list Z) (offset : Z)
    (h' : Heap) (n : Z) :
  all_sound h -> write h this data offset = Ok (h', n) -> all_sound h'.
Proof.
  intros Hall Hw. unfold write in Hw.
  destruct (buffers h !! this) as [sb|] eqn:Hb; [|discriminate].
  destruct (isCleared sb) eqn:Hlive; [discriminate|].
  destruct (Z.ltb_spec (Z.of_nat (byteLength (buffer sb)))
              (offset + Z.of_nat (length data))); [discriminate|].
  destruct (Z.ltb_spec offset 0); [discriminate|].
  injection Hw as <- <-.
  destruct (sound_owner h this sb Hall Hb) as (Hoff & c & Hc & Hlen).
  rewrite (poke_inside h (buffer sb) (Z.to_nat offset) data c Hc) by lia.
  apply (all_sound_same_buffers h this sb); try assumption.
  rewrite !length_app, length_take, length_drop. lia.
Qed.

Lemma clear_all_sound (h : Heap) (this : nat) : all_sound h -> all_sound (clear h this).
Proof.
  intros Hall.
  destruct (buffers h !! this) as [sb|] eqn:Hb.
  2:{ unfold Secure.clear. now rewrite Hb. }
  destruct (isCleared sb) eqn:Hlive.
  { unfold Secure.clear. now rewrite Hb, Hlive. }
  destruct (sound_owner h this sb Hall Hb) as (Hoff & c & Hc & Hlen).
  rewrite (clear_owned h this sb Hb Hlive) by (apply owns_spec; eauto).
  apply all_sound_overwrite; try assumption; try discriminate.
  - apply length_replicate.
  - reflexivity.
Qed.

Lemma slice_all_sound (h : Heap) (this : nat) (start : Z) (end_ : option Z)
    (h' : Heap) (b : nat) :
  all_sound h -> slice h this start end_ = Ok (h', b) ->
  all_sound h' /\ is_Some (buffers h' !! b).
Proof.
  intros Hall Hrun.
  destruct (buffers h !! this) as [sb|] eqn:Hb.
  2:{ unfold Secure.slice in Hrun. now rewrite Hb in Hrun. }
  destruct (isCleared sb) eqn:Hlive.
  { unfold Secure.slice in Hrun. now rewrite Hb, Hlive in Hrun. }
  destruct (sound_owner h this sb Hall Hb) as (Hoff & c & Hc & Hlen).
  rewrite (slice_spec h this sb start end_ c Hb Hlive Hoff Hc Hlen) in Hrun.
  injection Hrun as <- <-.
  set (range := Buffer_slice (buffer sb) start end_).
  destruct (Buffer_slice_inside (buffer sb) start end_) as (Hblk & _ & Hin).
  fold range in Hblk, Hin.
  assert (Hfm : memory h !! fresh (dom (memory h)) = None)
    by apply not_elem_of_dom, is_fresh.
  assert (Hfb : buffers h !! fresh (dom (buffers h)) = None)
    by apply not_elem_of_dom, is_fresh.
  assert (Hdata : length (bytes h range) = byteLength range).
  { apply (bytes_inside h range c); [now rewrite Hblk|lia]. }
  pose proof (all_sound_alloc h _ _ (bytes h range) (drawn h + byteLength range)
                Hall Hfm Hfb) as H1.
  rewrite Hdata in H1.
  split; [|cbn [buffers]; rewrite lookup_insert_eq; eauto].
  apply (all_sound_same_buffers _ this sb) with
    (c' := take (byteOffset range) c ++ replicate (byteLength range) 0
           ++ drop (byteOffset range + byteLength range) c)
    (d := (drawn h + byteLength range)%nat) in H1.
  - exact H1.
  - cbn [buffers]. rewrite lookup_insert_ne by congruence. exact Hb.
  - exact Hlive.
  - rewrite !length_app, length_take, length_replicate, length_drop. lia.
Qed.

Lemma string_new_all_sound (h : Heap) (value : string) (h' : Heap) (s : nat) :
  all_sound h -> SecureString_new h value = Ok (h', s) ->
  all_sound h' /\ is_Some (strings h' !! s) /\
  (forall t, t <> s -> strings h' !! t = strings h !! t).
Proof.
  intros Hall Hrun. rewrite SecureString_new_spec in Hrun. injection Hrun as <- <-.
  assert (Hfm : memory h !! fresh (dom (memory h)) = None)
    by apply not_elem_of_dom, is_fresh.
  assert (Hfb : buffers h !! fresh (dom (buffers h)) = None)
    by apply not_elem_of_dom, is_fresh.
  pose proof (all_sound_alloc h _ _ (encode value) (drawn h + length (encode value))
                Hall Hfm Hfb) as H1.
  split; [|split].
  - apply (all_sound_string _ (fresh (dom (strings h))) (fresh (dom (buffers h)))) in H1.
    + exact H1.
    + cbn [buffers]. rewrite lookup_insert_eq. eauto.
  - cbn [strings]. rewrite lookup_insert_eq. eauto.
  - intros t Hne. cbn [strings]. now rewrite lookup_insert_ne by congruence.
Qed.

Lemma string_clear_all_sound (h : Heap) (s : nat) :
  all_sound h -> all_sound (string_clear h s).
Proof.
  intros Hall. unfold Secure.string_clear.
  destruct (strings h !! s); [now apply clear_all_sound|exact Hall].
Qed.

(** X28: the methods keep the invariant of the heap: whatever sequence of
    [new SecureBuffer], [write], [clear], [slice], [new SecureString],
    [SecureString.clear], [clone] and [equals] has run, every secure
    buffer covers the whole of a memory block of exactly its length, no
    two secure buffers share a block, every buffer marked as cleared holds
    zeros only, and every secure string refers to a secure buffer. *)
Theorem heap_invariant (h : Heap) :
  all_sound h ->
  (forall size h' b, SecureBuffer_new h size = Ok (h', b) -> all_sound h') /\
  (forall this data offset h' n,
     write h this data offset = Ok (h', n) -> all_sound h') /\
  (forall this, all_sound (clear h this)) /\
  (forall this start end_ h' b,
     slice h this start end_ = Ok (h', b) -> all_sound h') /\
  (forall value h' s, SecureString_new h value = Ok (h', s) -> all_sound h') /\
  (forall s, all_sound (string_clear h s)) /\
  (forall s h' copy, clone h s = Ok (h', copy) -> all_sound h') /\
  (forall s other h' r,
     Secure.string_equals rng encode h s other = Ok (h', r) -> all_sound h').
Proof.
  intros Hall. repeat apply conj.
  - intros size h' b. now apply new_all_sound.
  - intros this data offset h' n. now apply write_all_sound.
  - intros this. now apply clear_all_sound.
  - intros this start end_ h' b Hrun. now apply (slice_all_sound h this start end_ h' b).
  - intros value h' s Hrun. now apply (string_new_all_sound h value h' s).
  - intros s. now apply string_clear_all_sound.
  - intros s h' copy Hrun. unfold Secure.clone in Hrun.
    destruct (string_cleared h s); [discriminate|].
    destruct (SecureString_new h "") as [[h1 c1]|] eqn:E1; [|discriminate].
    destruct (string_new_all_sound h "" h1 c1 Hall E1) as (H1 & _ & _).
    pose proof (string_clear_all_sound h1 c1 H1) as H2.
    destruct (strings (string_clear h1 c1) !! s) as [r|]; [|discriminate].
    destruct (slice (string_clear h1 c1) r 0 None) as [[h3 sl]|] eqn:E3;
      [|discriminate].
    destruct (slice_all_sound _ r 0 None h3 sl H2 E3) as [H3 Hsl].
    injection Hrun as <- <-. now apply all_sound_string.
  - intros s other h' r Hrun. unfold Secure.string_equals in Hrun.
    destruct (SecureString_new h other) as [[h1 t]|] eqn:E1; [|discriminate].
    destruct (string_new_all_sound h other h1 t Hall E1) as (H1 & _ & _).
    destruct (strings h1 !! s); [|discriminate].
    destruct (strings h1 !! t); [|discriminate].
    injection Hrun as <- <-. now apply string_clear_all_sound.
Qed.

(** X29: [equals(other)] of a live secure string with a plain string
    compares by value: it answers whether the bytes of the secure string
    are the UTF-8 bytes of [other]; the temporary secure string made for
    the comparison is cleared when the call returns, and the secure string
    itself keeps its bytes. *)
Theorem string_equals_by_value (h : Heap) (this ref : nat) (sb : SecureBuffer)
    (other : string) :
  strings h !! this = Some ref ->
  buffers h !! ref = Some sb -> isCleared sb = false -> owns h sb = true ->
  exists h',
    Secure.string_equals rng encode h this other
    = Ok (h', bool_decide (bytes h (buffer sb) = encode other)) /\
    string_cleared h' (fresh (dom (strings h))) = true /\
    bytes h' (buffer sb) = bytes h (buffer sb) /\
    string_cleared h' this = false.
Proof.
  intros Hthis Href Hlive (Hoff & c & Hc & Hlen)%owns_spec.
  unfold Secure.string_equals. rewrite SecureString_new_spec.
  set (data := encode other).
  set (blk0 := fresh (dom (memory h))). set (b0 := fresh (dom (buffers h))).
  set (temp := fresh (dom (strings h))).
  assert (Hfm : memory h !! blk0 = None) by apply not_elem_of_dom, is_fresh.
  assert (Hfb : buffers h !! b0 = None) by apply not_elem_of_dom, is_fresh.
  assert (Hfs : strings h !! temp = None) by apply not_elem_of_dom, is_fresh.
  assert (Hn1 : blk0 <> block (buffer sb)) by congruence.
  assert (Hn2 : b0 <> ref) by congruence.
  assert (Hn3 : temp <> this) by congruence.
  set (h1 := {| memory := <[blk0 := data]> (memory h) |}).
  assert (Hbytes : bytes h (buffer sb) = c) by now apply owns_bytes.
  assert (Hbytes1 : bytes h1 (buffer sb) = c).
  { unfold bytes. cbn [memory h1]. rewrite lookup_insert_ne by exact Hn1.
    exact Hbytes. }
  cbn [strings h1]. rewrite lookup_insert_ne by exact Hn3.
  rewrite Hthis, lookup_insert_eq.
  assert (Heq : equals h1 ref b0 = bool_decide (c = data)).
  { unfold equals. cbn [buffers h1]. rewrite lookup_insert_ne by exact Hn2.
    rewrite Href, lookup_insert_eq, Hlive. cbn [isCleared orb buffer byteLength].
    rewrite Hbytes1.
    assert (Hd : bytes h1 {| block := blk0; byteOffset := 0; byteLength := length data |}
                 = data).
    { unfold bytes. cbn [memory h1 block byteOffset byteLength].
      rewrite lookup_insert_eq. cbn [default from_option Datatypes.id drop].
      now apply take_ge. }
    rewrite Hd.
    destruct (Nat.eqb_spec (byteLength (buffer sb)) (length data)) as [E|E];
      [reflexivity|].
    cbn [negb]. symmetry. apply bool_decide_eq_false. intros ->. lia. }
  rewrite Heq, Hbytes.
  eexists. split; [reflexivity|].
  unfold Secure.string_clear. cbn [strings h1]. rewrite lookup_insert_eq.
  erewrite (clear_owned h1 b0); cycle 1.
  { cbn [buffers h1]. apply lookup_insert_eq. }
  { reflexivity. }
  { apply owns_spec. split; [reflexivity|]. exists data. split; [|reflexivity].
    cbn [memory h1 buffer block]. apply lookup_insert_eq. }
  cbn [buffer block byteLength memory buffers strings drawn h1].
  repeat apply conj.
  - unfold string_cleared, get_cleared. cbn [strings buffers].
    now rewrite !lookup_insert_eq.
  - rewrite <- Hbytes. unfold bytes. cbn [memory].
    now rewrite !lookup_insert_ne by exact Hn1.
  - unfold string_cleared, get_cleared. cbn [strings buffers].
    rewrite lookup_insert_ne by exact Hn3. rewrite Hthis.
    rewrite !lookup_insert_ne by exact Hn2. now rewrite Href.
Qed.

End Sources.

Lemma write_then_read_witness :
  buffers Samples.key_heap !! 0%nat = Some Samples.key_buffer /\
  owns Samples.key_heap Samples.key_buffer = true /\
  exists r, write Samples.key_heap 0 [1; 2] 1 = Ok r.
Proof.
  split; [reflexivity|]. split; [reflexivity|].
  apply (write_then_read Samples.key_heap 0 Samples.key_buffer [1; 2] 1);
    [reflexivity|reflexivity|reflexivity|].
  cbn. lia.
Defined.

Lemma clear_wipes_witness :
  buffers Samples.key_heap !! 0%nat = Some Samples.key_buffer /\
  bytes (Secure.clear Toy.rng Samples.key_heap 0) (buffer Samples.key_buffer)
  = [0; 0; 0].
Proof.
  split; [reflexivity|].
  apply (clear_wipes Toy.rng Samples.from_utf8 Samples.key_heap 0 Samples.key_buffer);
    reflexivity.
Defined.

Lemma slice_zeroes_source_witness :
  buffers Samples.key_heap !! 0%nat = Some Samples.key_buffer /\
  exists h' new,
    Secure.slice Toy.rng Samples.key_heap 0 0 None = Ok (h', new) /\
    bytes h' (buffer Samples.key_buffer) = [0; 0; 0].
Proof.
  split; [reflexivity|].
  destruct (slice_zeroes_source Toy.rng Samples.key_heap 0 Samples.key_buffer 0 None
              eq_refl eq_refl eq_refl)
    as (h' & new & new_sb & Hrun & _ & _ & _ & _ & _ & _ & _ & Hzero).
  exists h', new. split; [exact Hrun|]. now apply Hzero.
Defined.

Lemma clone_empties_original_witness :
  strings Samples.key_heap !! 0%nat = Some 0%nat /\
  Secure.getValue Samples.from_utf8 Samples.key_heap 0 = Ok "key"%string /\
  exists h' copy,
    Secure.clone Toy.rng Samples.utf8 Samples.key_heap 0 = Ok (h', copy) /\
    Secure.getValue Samples.from_utf8 h' copy = Ok "key"%string /\
    Secure.getValue Samples.from_utf8 h' 0
    = Ok (Samples.from_utf8 [0; 0; 0]).
Proof.
  split; [reflexivity|]. split; [reflexivity|].
  destruct (clone_empties_original Toy.rng Samples.utf8 Samples.from_utf8
              Samples.key_heap 0 0 Samples.key_buffer eq_refl eq_refl eq_refl eq_refl)
    as (h' & copy & Hrun & _ & Hcopy & _ & Horig & _).
  exists h', copy. split; [exact Hrun|]. split; [|exact Horig].
  rewrite Hcopy. reflexivity.
Defined.

Lemma destroy_clears_everything_witness :
  forallb (sound_string Samples.key_heap) (tracked_strings Samples.key_manager) = true /\
  isDestroyed (Secure.destroy Toy.rng Samples.key_manager Samples.key_heap).1 = true.
Proof.
  split; [reflexivity|].
  apply (destroy_clears_everything Toy.rng Samples.utf8 Samples.from_utf8
           Samples.key_manager Samples.key_heap); reflexivity.
Defined.

Lemma heap_invariant_witness :
  all_sound empty_heap /\ all_sound Samples.key_heap.
Proof.
  split; [apply all_sound_empty|].
  destruct (heap_invariant Toy.rng Samples.utf8 empty_heap all_sound_empty)
    as (_ & _ & _ & _ & Hnew & _).
  apply (Hnew "key"%string Samples.key_heap 0%nat). reflexivity.
Defined.

Lemma string_equals_by_value_witness :
  strings Samples.key_heap !! 0%nat = Some 0%nat /\
  exists h',
    Secure.string_equals Toy.rng Samples.utf8 Samples.key_heap 0 "key" = Ok (h', true).
Proof.
  split; [reflexivity|].
  destruct (string_equals_by_value Toy.rng Samples.utf8 Samples.key_heap 0 0
              Samples.key_buffer "key" eq_refl eq_refl eq_refl eq_refl)
    as (h' & Hrun & _).
  exists h'. exact Hrun.
Defined.

End SecureFacts.
